(** * Americano organizer: the fair-round scheduler of [src/app/page.tsx]

    A shallow embedding of the scheduling core of the page component:
    [makeKey], [computeStats], [partnerCoverage], [recommendRoundsPartner]
    and [generateFairRound], followed by the properties of the written
    specification that concern them.

    Modelling conventions.
    - JavaScript numbers are modelled where doubles are exact: counters,
      sizes and their sums and products are integers ([Z]), which
      doubles hold exactly below 2^53, and the cost of a split is a
      rational ([Q]) in quarters.  Of the two quotients that are no
      integers, the one of [partnerCoverage] is rounded to the nearest
      double at each step, as the code rounds it ([toDouble]); the one
      of [recommendRoundsPartner] is only rounded up to an integer, and
      below 2^53 rounding the double up gives the integer that rounding
      the exact quotient up gives.  [NaN] is kept as a separate value,
      because [computeStats] can produce it.
    - Strings are sequences of 8-bit code units compared
      lexicographically, which is how JavaScript's [<] orders strings of
      such units.
    - A [Set<string>] is a finite set.  A [Record<string, number>] is an
      object literal: a finite map of the properties it owns, read and
      assigned through [read] and [assign], which account for what it
      inherits from [Object.prototype].
    - Reading [.id] of an array slot that is not there raises a
      [TypeError]; it is the only exception the core can raise and is
      modelled by [Throw].
    - Roster sizes and court counts are integers.
    - The sort with the random comparator leaves the copy of the roster
      in some order; that order is a parameter, [shuffle], of
      [generateFairRound], and the properties are stated for every
      [shuffle] that permutes its argument. *)

From Stdlib Require Import ZArith QArith Qround Qpower Lqa Lia String Ascii List Permutation
  Sorted.
From stdpp Require Import gmap strings list.

Close Scope Q_scope.
Local Open Scope string_scope.
Local Open Scope list_scope.
Local Open Scope Z_scope.

(** ** Completions: a value, or a thrown [TypeError] *)

Inductive Completion (A : Type) : Type :=
| Return (a : A)
| Throw.
Arguments Return {A} a.
Arguments Throw {A}.

#[global] Instance Completion_ret : MRet Completion := @Return.
#[global] Instance Completion_bind : MBind Completion :=
  fun A B f c => match c with Return a => f a | Throw => Throw end.

(** ** JavaScript numbers that may be [NaN] *)

Inductive jsval (A : Type) : Type :=
| Num (a : A)
| NaN.
Arguments Num {A} a.
Arguments NaN {A}.

Definition jsLift2 {A B C} (f : A -> B -> C) (x : jsval A) (y : jsval B) : jsval C :=
  match x, y with
  | Num a, Num b => Num (f a b)
  | _, _ => NaN
  end.

Definition jsMap {A B} (f : A -> B) (x : jsval A) : jsval B :=
  match x with Num a => Num (f a) | NaN => NaN end.

(** [x < y] on numbers: false as soon as one side is [NaN]. *)
Definition jsLtQ (x y : jsval Q) : bool :=
  match x, y with
  | Num a, Num b => negb (Qle_bool b a)
  | _, _ => false
  end.

(** The sign test [Array.prototype.sort] applies to what a comparator
    returns: a [NaN] counts as [+0]. *)
Definition positiveZ (v : jsval Z) : bool :=
  match v with Num z => 0 <? z | NaN => false end.

Definition positiveQ (v : jsval Q) : bool :=
  match v with Num q => negb (Qle_bool q 0) | NaN => false end.

(** [Math.round]: the nearest integer, halves going up. *)
Definition mathRound (x : Q) : Z := Qfloor (x + (1 # 2))%Q.

(** ** Doubles

    A quotient or a product that is no integer is the double nearest to
    the exact value: a significand of 53 binary digits, a tie going to
    the even one.  [toDouble] is that rounding for the normal doubles,
    the only ones the percentage of [partnerCoverage] meets. *)

(** The integer nearest to [x], a half going to the even one. *)
Definition nearestEven (x : Q) : Z :=
  let f := Qfloor x in
  match (x - inject_Z f ?= 1 # 2)%Q with
  | Lt => f
  | Gt => f + 1
  | Eq => if Z.even f then f else f + 1
  end.

(** The exponent of the last digit of the significand of a positive [q]:
    the [e] with 2^52 <= q / 2^e < 2^53. *)
Definition exponentOf (q : Q) : Z :=
  let e := Z.log2 (Qnum q) - Z.log2 (Z.pos (Qden q)) - 52 in
  if Qle_bool (2 ^ (e + 52)) q then e else e - 1.

Definition toDoublePositive (q : Q) : Q :=
  let e := exponentOf q in
  (inject_Z (nearestEven (q / 2 ^ e)) * 2 ^ e)%Q.

Definition toDouble (q : Q) : Q :=
  match (q ?= 0)%Q with
  | Eq => 0%Q
  | Gt => toDoublePositive q
  | Lt => (- toDoublePositive (- q))%Q
  end.

(** ** Data model *)

Module Player.
Record t : Type := mk { id : string; name : string }.
End Player.
Abbreviation Player := Player.t.

Module Match.
Record t : Type := mk { court : Z; teamA : list Player; teamB : list Player }.
End Match.
Abbreviation Match := Match.t.

Module SavedRound.
Record t : Type := mk {
  id : string;
  createdAt : Z;
  courts : Z;
  matches : list Match;
  results : list (Z * (Z * Z))
}.
End SavedRound.
Abbreviation SavedRound := SavedRound.t.

(** ** Control structures *)

(** [for (const x of l) body]: the state is threaded through the
    iterations and a throwing iteration ends the loop. *)
Fixpoint forOf {A S} (body : S -> A -> Completion S) (l : list A) (s : S) : Completion S :=
  match l with
  | [] => Return s
  | x :: l' => s' ← body s x; forOf body l' s'
  end.

(** [for (let i = ...; i < l.length; i++)] where the body of iteration
    [i] sees [l[i]] and the elements after it, which is all the nested
    index loops of the search look at. *)
Fixpoint forTails {A S} (body : A -> list A -> S -> S) (l : list A) (s : S) : S :=
  match l with
  | [] => s
  | x :: l' => forTails body l' (body x l' s)
  end.

(** [Array.prototype.sort(comparefn)] as a stable insertion sort;
    [after x y] says that [comparefn(x, y) > 0]. *)
Fixpoint jsInsert {A} (after : A -> A -> bool) (x : A) (l : list A) : list A :=
  match l with
  | [] => [x]
  | y :: l' => if after x y then y :: jsInsert after x l' else x :: y :: l'
  end.

Fixpoint jsSort {A} (after : A -> A -> bool) (l : list A) : list A :=
  match l with
  | [] => []
  | x :: l' => jsInsert after x (jsSort after l')
  end.

(** [team[i].id] *)
Definition idAt (team : list Player) (i : nat) : Completion string :=
  match team !! i with
  | Some p => Return (Player.id p)
  | None => Throw
  end.

(** ** [makeKey] *)

Definition makeKey (a b : string) : string :=
  if String.ltb a b then a +:+ "__" +:+ b else b +:+ "__" +:+ a.

(** ** Object literals used as maps

    [gamesPlayed], [partnerCount] and [opponentCount], and the [points]
    of the two rankings, are object literals.  Reading a name that the
    object does not own finds the member of [Object.prototype] of that
    name, if there is one; assigning to a name creates a property of the
    object, except for [__proto__], whose inherited setter ignores a
    number or a string. *)

Definition prototypeNames : list string :=
  ["constructor"; "__defineGetter__"; "__defineSetter__"; "hasOwnProperty";
   "__lookupGetter__"; "__lookupSetter__"; "isPrototypeOf"; "propertyIsEnumerable";
   "toString"; "valueOf"; "__proto__"; "toLocaleString"].

(** A piece of a string made by [+]: the digits of a number, or the text
    that a member of [Object.prototype] turns into (the source text of a
    function; the text of an object for the prototype itself). *)
Inductive Piece : Type :=
| Digits (n : jsval Z)
| Source (name : string).

(** The values read from such an object: a number, the member of
    [Object.prototype] of some name (the prototype itself under
    [__proto__], a function under the other names), or a string that
    was made by adding to such a member: the digits of [front], the text
    of the member [name], the pieces of [back]. *)
Inductive Value : Type :=
| Numeric (n : jsval Z)
| Inherited (name : string)
| Text (front : list (jsval Z)) (name : string) (back : list Piece).

Definition pieces (v : Value) : list Piece :=
  match v with
  | Numeric n => [Digits n]
  | Inherited name => [Source name]
  | Text front name back => map Digits front ++ Source name :: back
  end.

(** [x + y]: the sum of two numbers, and otherwise the concatenation of
    what the operands turn into as strings. *)
Definition plus (x y : Value) : Value :=
  match x, y with
  | Numeric a, Numeric b => Numeric (jsLift2 Z.add a b)
  | Numeric a, Inherited name => Text [a] name []
  | Numeric a, Text front name back => Text (a :: front) name back
  | Inherited name, _ => Text [] name (pieces y)
  | Text front name back, _ => Text front name (back ++ pieces y)
  end.

(** The number a value counts as under [*] and [-]: the text of a member
    of [Object.prototype] is not a numeral. *)
Definition toNumber (v : Value) : jsval Z :=
  match v with Numeric n => n | _ => NaN end.

(** [o[k]] *)
Definition read (o : gmap string Value) (k : string) : option Value :=
  match o !! k with
  | Some v => Some v
  | None => if decide (k ∈ prototypeNames) then Some (Inherited k) else None
  end.

(** [o[k] = v], for a number or a string [v] *)
Definition assign (o : gmap string Value) (k : string) (v : Value) : gmap string Value :=
  if decide (k = "__proto__") then o else <[k := v]> o.

(** [v ?? d] for a property read that yielded [o]: only a property that
    is neither owned nor inherited is nullish. *)
Definition nullish (o : option Value) (d : Z) : Value :=
  match o with Some v => v | None => Numeric (Num d) end.

(** ** [computeStats] *)

Record Stats : Type := mkStats {
  gamesPlayed : gmap string Value;
  partnerCount : gmap string Value;
  opponentCount : gmap string Value
}.

(** [gamesPlayed[k] += 1]: a name that is neither owned nor inherited
    reads [undefined], and [undefined + 1] is [NaN]. *)
Definition bump (g : gmap string Value) (k : string) : gmap string Value :=
  assign g k match read g k with
             | Some v => plus v (Numeric (Num 1))
             | None => Numeric NaN
             end.

(** [m[k] = (m[k] ?? 0) + 1] *)
Definition tally (m : gmap string Value) (k : string) : gmap string Value :=
  assign m k (plus (nullish (read m k) 0) (Numeric (Num 1))).

Definition statsOfMatch (st : Stats) (m : Match) : Completion Stats :=
  a1 ← idAt (Match.teamA m) 0;
  a2 ← idAt (Match.teamA m) 1;
  b1 ← idAt (Match.teamB m) 0;
  b2 ← idAt (Match.teamB m) 1;
  let g := bump (bump (bump (bump (gamesPlayed st) a1) a2) b1) b2 in
  let pa := makeKey a1 a2 in
  let pb := makeKey b1 b2 in
  let pc := tally (tally (partnerCount st) pa) pb in
  let pairs := [(a1, b1); (a1, b2); (a2, b1); (a2, b2)] in
  let oc := fold_left (fun oc xy => tally oc (makeKey xy.1 xy.2)) pairs (opponentCount st) in
  Return (mkStats g pc oc).

Definition computeStats (players : list Player) (savedRounds : list SavedRound) : Completion Stats :=
  let gamesPlayed := fold_left (fun g p => assign g (Player.id p) (Numeric (Num 0))) players ∅ in
  forOf (fun st round => forOf statsOfMatch (SavedRound.matches round) st)
        savedRounds (mkStats gamesPlayed ∅ ∅).

(** ** [partnerCoverage] *)

Record Coverage : Type := mkCoverage {
  complete : bool;
  percent : Z;
  missingPairs : Z;
  totalPairs : Z
}.

Definition seenOfMatch (seen : gset string) (m : Match) : Completion (gset string) :=
  a0 ← idAt (Match.teamA m) 0;
  a1 ← idAt (Match.teamA m) 1;
  let a := makeKey a0 a1 in
  b0 ← idAt (Match.teamB m) 0;
  b1 ← idAt (Match.teamB m) 1;
  let b := makeKey b0 b1 in
  Return ({[b]} ∪ ({[a]} ∪ seen)).

Definition partnerCoverage (players : list Player) (savedRounds : list SavedRound) : Completion Coverage :=
  let n := Z.of_nat (length players) in
  if n <=? 1 then Return (mkCoverage true 100 0 0) else
  (* n * (n - 1) is even, the division is exact *)
  let totalPairs := (n * (n - 1)) / 2 in
  seenPairs ← forOf (fun seen round => forOf seenOfMatch (SavedRound.matches round) seen)
                    savedRounds ∅;
  let done := Z.of_nat (size seenPairs) in
  let percent :=
    Z.max 0 (Z.min 100 (mathRound
                          (toDouble (toDouble (inject_Z done / inject_Z totalPairs) * 100))%Q)) in
  let missingPairs := Z.max 0 (totalPairs - done) in
  Return (mkCoverage (totalPairs <=? done) percent missingPairs totalPairs).

(** ** [recommendRoundsPartner] *)

Definition recommendRoundsPartner (playerCount courts : Z) : Z :=
  if playerCount <? 4 then 0 else
  let possible := playerCount / 4 in
  let c := Z.max 1 (Z.min courts (if possible =? 0 then 1 else possible)) in
  let num := playerCount * (playerCount - 1) in
  let den := 4 * c in
  Z.max 1 (Qceiling (inject_Z num / inject_Z den)%Q).

(** ** [generateFairRound] *)

Module Split.
Record t : Type := mk { a : Player; b : Player; c : Player; d : Player; score : jsval Q }.
End Split.

Module Best.
Record t : Type := mk { group : list Player; split : Split.t; score : jsval Q }.
End Best.

Module Generated.
Record t : Type := mk { matches : list Match; bench : list Player }.
End Generated.

Section Closures.
(** The helpers that [generateFairRound] defines close over the stats
    snapshot. *)
Variable stats : Stats.

Definition partner (x y : string) : Value :=
  nullish (read (partnerCount stats) (makeKey x y)) 0.
Definition opp (x y : string) : Value :=
  nullish (read (opponentCount stats) (makeKey x y)) 0.
Definition gp (x : string) : Value := nullish (read (gamesPlayed stats) x) 0.

(** [k * v] *)
Definition times (k : Z) (v : Value) : jsval Z := jsMap (Z.mul k) (toNumber v).

Definition matchScore (a b c d : Player) : jsval Q :=
  let partnerPenalty :=
    jsLift2 Z.add (times 14 (partner (Player.id a) (Player.id b)))
                  (times 14 (partner (Player.id c) (Player.id d))) in
  let opponentPenalty :=
    times 3 (plus (plus (plus (opp (Player.id a) (Player.id c))
                              (opp (Player.id a) (Player.id d)))
                        (opp (Player.id b) (Player.id c)))
                  (opp (Player.id b) (Player.id d))) in
  let games :=
    toNumber (plus (plus (plus (gp (Player.id a)) (gp (Player.id b))) (gp (Player.id c)))
                   (gp (Player.id d))) in
  let playtimeBonus := jsMap (fun g => (- (1 # 4)) * inject_Z g)%Q games in
  jsLift2 Qplus (jsLift2 (fun p o => inject_Z p + inject_Z o)%Q partnerPenalty opponentPenalty)
          playtimeBonus.

Definition bestSplitForFour (p q r s : Player) : Split.t :=
  let o1 := Split.mk p q r s (matchScore p q r s) in
  let o2 := Split.mk p r q s (matchScore p r q s) in
  let o3 := Split.mk p s q r (matchScore p s q r) in
  let sorted :=
    jsSort (fun x y => positiveQ (jsLift2 Qminus (Split.score x) (Split.score y)))
           [o1; o2; o3] in
  match sorted with
  | o :: _ => o
  | [] => o1
  end.

(** The body of the innermost loop. *)
Definition consider (p q r s : Player) (best : option Best.t) : option Best.t :=
  let split := bestSplitForFour p q r s in
  let better :=
    match best with
    | None => true
    | Some b => jsLtQ (Split.score split) (Best.score b)
    end in
  if better then Some (Best.mk [p; q; r; s] split (Split.score split)) else best.

(** The four nested index loops over [remaining]. *)
Definition searchBest (remaining : list Player) : option Best.t :=
  forTails (fun p after_i =>
    forTails (fun q after_j =>
      forTails (fun r after_k =>
        forTails (fun s _ => consider p q r s) after_k) after_j) after_i)
    remaining None.

(** The backwards [splice] loop: every element whose id is chosen goes. *)
Definition removeChosen (chosenIds : gset string) (remaining : list Player) : list Player :=
  filter (fun x => Player.id x ∉ chosenIds) remaining.

Definition matchOfSplit (court : Z) (sp : Split.t) : Match :=
  Match.mk court [Split.a sp; Split.b sp] [Split.c sp; Split.d sp].

(** The loop over the courts, [todo] iterations being left.  Next to each
    match pushed it records the pool ([remaining]) the search for that
    court ran on; the pools are not part of what the function returns. *)
Fixpoint courtLoop (todo : nat) (court : Z) (remaining : list Player)
  : list (list Player * Match) :=
  match todo with
  | O => []
  | S todo' =>
    if (length remaining <? 4)%nat then [] else
    match searchBest remaining with
    | None => []
    | Some best =>
      let chosenIds : gset string := list_to_set (map Player.id (Best.group best)) in
      (remaining, matchOfSplit court (Best.split best))
        :: courtLoop todo' (court + 1) (removeChosen chosenIds remaining)
    end
  end.

(** The comparator of the sort by games played. *)
Definition afterByGames (a b : Player) : bool :=
  positiveZ (jsLift2 Z.sub (toNumber (gp (Player.id a))) (toNumber (gp (Player.id b)))).

End Closures.

Definition usedCourts (players : list Player) (courtsWanted : Z) : Z :=
  let n := Z.of_nat (length players) in
  let possibleCourts := n / 4 in
  Z.max 0 (Z.min courtsWanted possibleCourts).

(** The players in ranked order and the two slices taken from it. *)
Definition byGames (stats : Stats) (shuffled : list Player) : list Player :=
  jsSort (afterByGames stats) shuffled.

Definition activeOf (stats : Stats) (shuffled : list Player) (slots : Z) : list Player :=
  take (Z.to_nat slots) (byGames stats shuffled).

Definition benchOf (stats : Stats) (shuffled : list Player) (slots : Z) : list Player :=
  drop (Z.to_nat slots) (byGames stats shuffled).

(** [shuffle] stands for the sort with the random comparator: whatever
    order it leaves the copy of [players] in. *)
Definition generateFairRound (shuffle : list Player -> list Player)
    (players : list Player) (courtsWanted : Z) (savedRounds : list SavedRound)
  : Completion Generated.t :=
  let courts := usedCourts players courtsWanted in
  let slots := courts * 4 in
  stats ← computeStats players savedRounds;
  let shuffled := shuffle players in
  let active := activeOf stats shuffled slots in
  let bench := benchOf stats shuffled slots in
  let matches := map snd (courtLoop stats (Z.to_nat courts) 1 active) in
  Return (Generated.mk matches bench).

(** * The page component: rankings, derived values and handlers

    The rest of [src/app/page.tsx] that is plain computation: the two
    rankings, the values the component derives from its state on every
    render, and the event handlers, each a function from the state of the
    render it was created in to the state after it.

    Further conventions.
    - Scores are integers, as the counters are; an empty score field is
      [None].
    - [crypto.randomUUID()] and [Date.now()] are inputs of the handlers
      that call them; [Number], applied to the text of a score field, and
      [String.prototype.localeCompare] with the German locale are
      parameters.
    - A handler reads the state of its render ([s]) and queues updates
      (applied to [t]); what the handler leaves is the state of the next
      render.  Updates to local storage and the clipboard are outside the
      model.
    - The texts of the error messages are written with 7-bit letters. *)

(** ** Strings *)

(** The white space [trim] removes, among 8-bit code units: TAB, LF, VT,
    FF, CR, SP and NBSP. *)
Definition isWhiteSpace (c : ascii) : bool :=
  let n := nat_of_ascii c in
  ((9 <=? n) && (n <=? 13) || (n =? 32) || (n =? 160))%nat.

Fixpoint trimStart (s : string) : string :=
  match s with
  | EmptyString => EmptyString
  | String c s' => if isWhiteSpace c then trimStart s' else s
  end.

Fixpoint trimEnd (s : string) : string :=
  match s with
  | EmptyString => EmptyString
  | String c s' =>
    match trimEnd s' with
    | EmptyString => if isWhiteSpace c then EmptyString else String c EmptyString
    | t => String c t
    end
  end.

Definition trim (s : string) : string := trimEnd (trimStart s).

(** ** Results *)

(** The result of a match of the current round: each score is a number
    or the empty text. *)
Module MatchResult.
Record t : Type := mk { scoreA : option Z; scoreB : option Z }.
End MatchResult.
Abbreviation MatchResult := MatchResult.t.

(** [results[court]] on a saved round. *)
Fixpoint resultAt (results : list (Z * (Z * Z))) (court : Z) : option (Z * Z) :=
  match results with
  | [] => None
  | (k, r) :: rest => if k =? court then Some r else resultAt rest court
  end.

(** [Number(v)] for a score: the empty text reads as zero. *)
Definition numberOf (v : option Z) : Z := default 0 v.

(** [v !== ""] *)
Definition entered (v : option Z) : bool :=
  match v with Some _ => true | None => false end.

(** ** The rankings *)

Module Row.
Record t : Type := mk { id : string; name : string; points : Value }.
End Row.
Abbreviation Row := Row.t.

(** [points[p.id] += a] *)
Definition addPoints (a : Z) (points : gmap string Value) (p : Player)
  : gmap string Value :=
  assign points (Player.id p)
         match read points (Player.id p) with
         | Some v => plus v (Numeric (Num a))
         | None => Numeric NaN
         end.

Definition creditTeams (a b : Z) (m : Match) (points : gmap string Value)
  : gmap string Value :=
  fold_left (addPoints b) (Match.teamB m) (fold_left (addPoints a) (Match.teamA m) points).

(** The callback of the ranking over the saved rounds: reading a score
    of a result that is not there raises a [TypeError]. *)
Definition pointsOfMatch (results : list (Z * (Z * Z))) (points : gmap string Value)
    (m : Match) : Completion (gmap string Value) :=
  match resultAt results (Match.court m) with
  | None => Throw
  | Some (a, b) => Return (creditTeams a b m points)
  end.

(** The callback of the ranking of the current round: a match without
    both scores is passed over. *)
Definition pointsOfCurrent (results : gmap Z MatchResult) (points : gmap string Value)
    (m : Match) : gmap string Value :=
  match results !! Match.court m with
  | Some (MatchResult.mk (Some a) (Some b)) => creditTeams a b m points
  | _ => points
  end.

Definition zeroPoints (players : list Player) : gmap string Value :=
  fold_left (fun points p => assign points (Player.id p) (Numeric (Num 0))) players ∅.

Definition rowsOf (players : list Player) (points : gmap string Value) : list Row :=
  map (fun p => Row.mk (Player.id p) (Player.name p) (nullish (read points (Player.id p)) 0))
      players.

Section Collation.
Variable localeCompare : string -> string -> Z.

(** [y.points - x.points || x.name.localeCompare(y.name, "de")]: a
    difference that is zero or [NaN] gives way to the names. *)
Definition byPointsThenName (x y : Row) : jsval Z :=
  match jsLift2 Z.sub (toNumber (Row.points y)) (toNumber (Row.points x)) with
  | Num d => if d =? 0 then Num (localeCompare (Row.name x) (Row.name y)) else Num d
  | NaN => Num (localeCompare (Row.name x) (Row.name y))
  end.

Definition rankRows (rows : list Row) : list Row :=
  jsSort (fun x y => positiveZ (byPointsThenName x y)) rows.

Definition totalRanking (players : list Player) (savedRounds : list SavedRound)
  : Completion (list Row) :=
  points ← forOf (fun points round =>
                    forOf (pointsOfMatch (SavedRound.results round))
                          (SavedRound.matches round) points)
                 savedRounds (zeroPoints players);
  Return (rankRows (rowsOf players points)).

Definition currentRoundRanking (players : list Player) (matches : list Match)
    (results : gmap Z MatchResult) : list Row :=
  let points := fold_left (pointsOfCurrent results) matches (zeroPoints players) in
  rankRows (rowsOf players points).

Definition sortedPlayers (players : list Player) : list Player :=
  jsSort (fun a b => 0 <? localeCompare (Player.name a) (Player.name b)) players.

(** The identifiers of the players of the matches. *)
Definition usedIdsOf (matches : list Match) : gset string :=
  let addAll (team : list Player) (used : gset string) :=
    fold_left (fun used p => {[Player.id p]} ∪ used) team used in
  fold_left (fun used m => addAll (Match.teamB m) (addAll (Match.teamA m) used)) matches ∅.

Definition unusedPlayers (players : list Player) (matches : list Match) : list Player :=
  filter (fun p => Player.id p ∉ usedIdsOf matches) (sortedPlayers players).

End Collation.

(** ** The state of the component *)

Module App.
Record t : Type := mk {
  tournamentName : string;
  setupDone : bool;
  setupPlayerCount : Z;
  setupNames : list string;
  setupCourts : Z;
  targetRounds : Z;
  name : string;
  players : list Player;
  courts : Z;
  matches : list Match;
  results : gmap Z MatchResult;
  savedRounds : list SavedRound;
  manualEnded : bool;
  extraMode : bool;
  error : string;
  toast : string
}.
End App.

(** The state setters of the component: each replaces one field. *)

Definition setTournamentName (v : string) (s : App.t) : App.t :=
  App.mk v (App.setupDone s) (App.setupPlayerCount s) (App.setupNames s) (App.setupCourts s)
         (App.targetRounds s) (App.name s) (App.players s) (App.courts s) (App.matches s)
         (App.results s) (App.savedRounds s) (App.manualEnded s) (App.extraMode s)
         (App.error s) (App.toast s).

Definition setSetupDone (v : bool) (s : App.t) : App.t :=
  App.mk (App.tournamentName s) v (App.setupPlayerCount s) (App.setupNames s)
         (App.setupCourts s) (App.targetRounds s) (App.name s) (App.players s)
         (App.courts s) (App.matches s) (App.results s) (App.savedRounds s)
         (App.manualEnded s) (App.extraMode s) (App.error s) (App.toast s).

Definition setSetupPlayerCount (v : Z) (s : App.t) : App.t :=
  App.mk (App.tournamentName s) (App.setupDone s) v (App.setupNames s) (App.setupCourts s)
         (App.targetRounds s) (App.name s) (App.players s) (App.courts s) (App.matches s)
         (App.results s) (App.savedRounds s) (App.manualEnded s) (App.extraMode s)
         (App.error s) (App.toast s).

Definition setSetupNames (v : list string) (s : App.t) : App.t :=
  App.mk (App.tournamentName s) (App.setupDone s) (App.setupPlayerCount s) v
         (App.setupCourts s) (App.targetRounds s) (App.name s) (App.players s)
         (App.courts s) (App.matches s) (App.results s) (App.savedRounds s)
         (App.manualEnded s) (App.extraMode s) (App.error s) (App.toast s).

Definition setSetupCourts (v : Z) (s : App.t) : App.t :=
  App.mk (App.tournamentName s) (App.setupDone s) (App.setupPlayerCount s)
         (App.setupNames s) v (App.targetRounds s) (App.name s) (App.players s)
         (App.courts s) (App.matches s) (App.results s) (App.savedRounds s)
         (App.manualEnded s) (App.extraMode s) (App.error s) (App.toast s).

Definition setTargetRounds (v : Z) (s : App.t) : App.t :=
  App.mk (App.tournamentName s) (App.setupDone s) (App.setupPlayerCount s)
         (App.setupNames s) (App.setupCourts s) v (App.name s) (App.players s)
         (App.courts s) (App.matches s) (App.results s) (App.savedRounds s)
         (App.manualEnded s) (App.extraMode s) (App.error s) (App.toast s).

Definition setName (v : string) (s : App.t) : App.t :=
  App.mk (App.tournamentName s) (App.setupDone s) (App.setupPlayerCount s)
         (App.setupNames s) (App.setupCourts s) (App.targetRounds s) v (App.players s)
         (App.courts s) (App.matches s) (App.results s) (App.savedRounds s)
         (App.manualEnded s) (App.extraMode s) (App.error s) (App.toast s).

Definition setPlayers (v : list Player) (s : App.t) : App.t :=
  App.mk (App.tournamentName s) (App.setupDone s) (App.setupPlayerCount s)
         (App.setupNames s) (App.setupCourts s) (App.targetRounds s) (App.name s) v
         (App.courts s) (App.matches s) (App.results s) (App.savedRounds s)
         (App.manualEnded s) (App.extraMode s) (App.error s) (App.toast s).

Definition setCourts (v : Z) (s : App.t) : App.t :=
  App.mk (App.tournamentName s) (App.setupDone s) (App.setupPlayerCount s)
         (App.setupNames s) (App.setupCourts s) (App.targetRounds s) (App.name s)
         (App.players s) v (App.matches s) (App.results s) (App.savedRounds s)
         (App.manualEnded s) (App.extraMode s) (App.error s) (App.toast s).

Definition setMatches (v : list Match) (s : App.t) : App.t :=
  App.mk (App.tournamentName s) (App.setupDone s) (App.setupPlayerCount s)
         (App.setupNames s) (App.setupCourts s) (App.targetRounds s) (App.name s)
         (App.players s) (App.courts s) v (App.results s) (App.savedRounds s)
         (App.manualEnded s) (App.extraMode s) (App.error s) (App.toast s).

Definition setResults (v : gmap Z MatchResult) (s : App.t) : App.t :=
  App.mk (App.tournamentName s) (App.setupDone s) (App.setupPlayerCount s)
         (App.setupNames s) (App.setupCourts s) (App.targetRounds s) (App.name s)
         (App.players s) (App.courts s) (App.matches s) v (App.savedRounds s)
         (App.manualEnded s) (App.extraMode s) (App.error s) (App.toast s).

Definition setSavedRounds (v : list SavedRound) (s : App.t) : App.t :=
  App.mk (App.tournamentName s) (App.setupDone s) (App.setupPlayerCount s)
         (App.setupNames s) (App.setupCourts s) (App.targetRounds s) (App.name s)
         (App.players s) (App.courts s) (App.matches s) (App.results s) v
         (App.manualEnded s) (App.extraMode s) (App.error s) (App.toast s).

Definition setManualEnded (v : bool) (s : App.t) : App.t :=
  App.mk (App.tournamentName s) (App.setupDone s) (App.setupPlayerCount s)
         (App.setupNames s) (App.setupCourts s) (App.targetRounds s) (App.name s)
         (App.players s) (App.courts s) (App.matches s) (App.results s) (App.savedRounds s)
         v (App.extraMode s) (App.error s) (App.toast s).

Definition setExtraMode (v : bool) (s : App.t) : App.t :=
  App.mk (App.tournamentName s) (App.setupDone s) (App.setupPlayerCount s)
         (App.setupNames s) (App.setupCourts s) (App.targetRounds s) (App.name s)
         (App.players s) (App.courts s) (App.matches s) (App.results s) (App.savedRounds s)
         (App.manualEnded s) v (App.error s) (App.toast s).

Definition setError (v : string) (s : App.t) : App.t :=
  App.mk (App.tournamentName s) (App.setupDone s) (App.setupPlayerCount s)
         (App.setupNames s) (App.setupCourts s) (App.targetRounds s) (App.name s)
         (App.players s) (App.courts s) (App.matches s) (App.results s) (App.savedRounds s)
         (App.manualEnded s) (App.extraMode s) v (App.toast s).

Definition setToast (v : string) (s : App.t) : App.t :=
  App.mk (App.tournamentName s) (App.setupDone s) (App.setupPlayerCount s)
         (App.setupNames s) (App.setupCourts s) (App.targetRounds s) (App.name s)
         (App.players s) (App.courts s) (App.matches s) (App.results s) (App.savedRounds s)
         (App.manualEnded s) (App.extraMode s) (App.error s) v.

Definition initialState : App.t :=
  App.mk "Mein Americano" false 8 (replicate 8 EmptyString) 2 (recommendRoundsPartner 8 2)
         EmptyString [] 1 [] ∅ [] false false EmptyString EmptyString.

(** ** Derived values *)

Definition maxCourtsPossible (s : App.t) : Z :=
  Z.max 1 (Z.of_nat (length (App.players s)) / 4).

Definition effectiveCourts (s : App.t) : Z :=
  Z.min (Z.max 1 (App.courts s)) (maxCourtsPossible s).

Definition coverage (s : App.t) : Completion Coverage :=
  partnerCoverage (App.players s) (App.savedRounds s).

Definition tournamentFinished (s : App.t) : bool :=
  App.manualEnded s
  || (negb (App.extraMode s) && (0 <? App.targetRounds s)
      && (App.targetRounds s <=? Z.of_nat (length (App.savedRounds s)))).

Definition canSaveCurrentRound (s : App.t) : bool :=
  if (length (App.matches s) =? 0)%nat then false else
  forallb (fun m =>
             match App.results s !! Match.court m with
             | Some r => entered (MatchResult.scoreA r) && entered (MatchResult.scoreB r)
             | None => false
             end)
          (App.matches s).

Definition anyCurrentResultEntered (s : App.t) : bool :=
  existsb (fun m =>
             match App.results s !! Match.court m with
             | Some r => entered (MatchResult.scoreA r) || entered (MatchResult.scoreB r)
             | None => false
             end)
          (App.matches s).

(** ** Messages *)

Definition finishedMessage : string :=
  "Turnier ist beendet. Tippe auf 'Extra-Runden spielen' oder starte ein neues Turnier.".

Definition tooFewPlayersMessage : string :=
  "Du brauchst mindestens 4 Spieler fuer ein Match (2v2).".

Definition nothingToSaveMessage : string :=
  "Erst eine Runde generieren, dann speichern.".

Definition scoresMissingMessage : string :=
  "Bitte fuer alle Courts beide Punktzahlen eintragen, bevor du speicherst.".

Definition tournamentNameMessage : string :=
  "Bitte einen Turniernamen eingeben.".

Definition namesMissingMessage : string :=
  "Bitte fuer alle Spieler:innen einen Namen eintragen (oder Auto-Fill nutzen).".

Definition courtsMissingMessage : string :=
  "Bitte mindestens 1 Court auswaehlen.".

(** ** Handlers *)

Definition resetAll (s : App.t) : App.t :=
  let t := setTournamentName "Mein Americano" s in
  let t := setSetupDone false t in
  let t := setTargetRounds 0 t in
  let t := setManualEnded false t in
  let t := setExtraMode false t in
  let t := setPlayers [] t in
  let t := setCourts 1 t in
  let t := setMatches [] t in
  let t := setResults ∅ t in
  let t := setSavedRounds [] t in
  let t := setName EmptyString t in
  let t := setError EmptyString t in
  setToast EmptyString t.

Definition newTournamentFromCurrent (s : App.t) : App.t :=
  let n := Z.of_nat (length (App.players s)) in
  let count := Z.max 4 (if n =? 0 then 8 else n) in
  let one (c : Z) := if c =? 0 then 1 else c in
  let t := setError EmptyString s in
  let t := setSetupPlayerCount count t in
  let t := setSetupNames (if 0 <? n then map Player.name (App.players s)
                          else replicate 8 EmptyString) t in
  let t := setSetupCourts (one (App.courts s)) t in
  let t := setTargetRounds (recommendRoundsPartner count (one (App.courts s))) t in
  let t := setSavedRounds [] t in
  let t := setMatches [] t in
  let t := setResults ∅ t in
  let t := setManualEnded false t in
  let t := setExtraMode false t in
  setSetupDone false t.

Definition addPlayer (uuid : string) (s : App.t) : App.t :=
  let trimmed := trim (App.name s) in
  if (String.length trimmed <? 2)%nat then s else
  let t := setPlayers (App.players s ++ [Player.mk uuid trimmed]) s in
  let t := setName EmptyString t in
  setError EmptyString t.

Definition removePlayer (id : string) (s : App.t) : App.t :=
  let t := setPlayers (filter (fun p => Player.id p <> id) (App.players s)) s in
  setError EmptyString t.

Definition generateRoundFair (shuffle : list Player -> list Player) (s : App.t)
  : Completion App.t :=
  let t := setError EmptyString s in
  if tournamentFinished s then Return (setError finishedMessage t) else
  if (length (App.players s) <? 4)%nat then
    Return (setError tooFewPlayersMessage (setResults ∅ (setMatches [] t)))
  else
  let possible := Z.of_nat (length (App.players s)) / 4 in
  let used := Z.min (effectiveCourts s) possible in
  generated ← generateFairRound shuffle (App.players s) used (App.savedRounds s);
  let fairMatches := Generated.matches generated in
  let newResults :=
    fold_left (fun res m => <[Match.court m := MatchResult.mk None None]> res)
              fairMatches ∅ in
  Return (setResults newResults (setMatches fairMatches t)).

Inductive Side : Type := SideA | SideB.

Section Scores.
Variable Number : string -> Z.

Definition updateScore (court : Z) (side : Side) (value : string) (s : App.t) : App.t :=
  let num := match value with
             | EmptyString => None
             | _ => Some (Z.max 0 (Number value))
             end in
  let prev := App.results s in
  let kept (score : MatchResult -> option Z) := r ← prev !! court; score r in
  setResults
    (<[court := MatchResult.mk
                  (match side with SideA => num | SideB => kept MatchResult.scoreA end)
                  (match side with SideB => num | SideA => kept MatchResult.scoreB end)]>
       prev)
    s.

End Scores.

Definition freezeResult (results : gmap Z MatchResult) (frozen : list (Z * (Z * Z)))
    (m : Match) : Completion (list (Z * (Z * Z))) :=
  match results !! Match.court m with
  | None => Throw
  | Some r =>
    Return ((Match.court m,
             (numberOf (MatchResult.scoreA r), numberOf (MatchResult.scoreB r))) :: frozen)
  end.

Definition saveRound (uuid : string) (now : Z) (s : App.t) : Completion App.t :=
  let t := setError EmptyString s in
  if tournamentFinished s then Return (setError finishedMessage t) else
  if (length (App.matches s) =? 0)%nat then Return (setError nothingToSaveMessage t) else
  if negb (canSaveCurrentRound s) then Return (setError scoresMissingMessage t) else
  frozenResults ← forOf (freezeResult (App.results s)) (App.matches s) [];
  let round :=
    SavedRound.mk uuid now (Z.of_nat (length (App.matches s))) (App.matches s)
                  frozenResults in
  let t := setSavedRounds (round :: App.savedRounds t) t in
  let t := setMatches [] t in
  Return (setResults ∅ t).

Definition deleteLastRound (s : App.t) : App.t :=
  setSavedRounds (drop 1 (App.savedRounds s)) s.

Definition endTournamentNow (s : App.t) : App.t :=
  let t := setError EmptyString s in
  let t := setManualEnded true t in
  let t := setMatches [] t in
  setResults ∅ t.

Definition resumeTournament (s : App.t) : App.t :=
  let t := setError EmptyString s in
  setManualEnded false t.

Definition playExtraRounds (s : App.t) : App.t :=
  let t := setError EmptyString s in
  let t := setManualEnded false t in
  setExtraMode true t.

(** [uuid i] is what the [i]-th call of [crypto.randomUUID] returns. *)
Definition startTournamentFromSetup (uuid : nat -> string) (s : App.t) : App.t :=
  let t := setError EmptyString s in
  let tName := trim (App.tournamentName s) in
  let names := map trim (App.setupNames s) in
  if (String.length tName <? 2)%nat then setError tournamentNameMessage t else
  if existsb (fun n => (String.length n =? 0)%nat) names then
    setError namesMissingMessage t
  else
  if App.setupCourts s <? 1 then setError courtsMissingMessage t else
  let newPlayers := imap (fun i n => Player.mk (uuid i) n) names in
  let maxPossible := Z.max 1 (Z.of_nat (length newPlayers) / 4) in
  let fixedCourts := Z.min (App.setupCourts s) maxPossible in
  let t := setPlayers newPlayers t in
  let t := setCourts fixedCourts t in
  let t := setSavedRounds [] t in
  let t := setMatches [] t in
  let t := setResults ∅ t in
  let t := setTargetRounds
             (if App.targetRounds s =? 0
              then recommendRoundsPartner (App.setupPlayerCount s) fixedCourts
              else App.targetRounds s) t in
  let t := setManualEnded false t in
  let t := setExtraMode false t in
  setSetupDone true t.

(** * Notions used in the statements *)

(** ** Identifiers *)

(** An identifier in which the separator character does not occur. *)
Fixpoint underscoreFree (s : string) : bool :=
  match s with
  | EmptyString => true
  | String c s' => negb (Ascii.eqb c "_") && underscoreFree s'
  end.

(** Every identifier of the list is free of underscores. *)
Definition plainIds (ids : list string) : Prop :=
  Forall (fun x => underscoreFree x = true) ids.

(** No identifier of the list is [__proto__], the one name under which
    an object literal stores nothing. *)
Definition storable (ids : list string) : Prop := "__proto__" ∉ ids.

(** The identifiers are storable and the key of no two of them is a
    name that an object literal inherits. *)
Definition ownNames (ids : list string) : Prop :=
  storable ids /\
  forall x y, x ∈ ids -> y ∈ ids -> makeKey x y ∉ prototypeNames.

(** The number a value holds, zero when it holds none. *)
Definition countOf (v : Value) : Z :=
  match v with Numeric (Num n) => n | _ => 0 end.

(** The value is a number other than [NaN]. *)
Definition isCount (v : Value) : Prop := exists n, v = Numeric (Num n).

(** The value is no number. *)
Definition foreign (v : Value) : Prop :=
  match v with Numeric _ => False | _ => True end.

(** The number of underscores in a string. *)
Fixpoint underscores (s : string) : nat :=
  match s with
  | EmptyString => 0
  | String c s' => (if Ascii.eqb c "_" then 1 else 0) + underscores s'
  end.

(** [k] ones appended to a string. *)
Definition ones (k : Z) : list Piece := replicate (Z.to_nat k) (Digits (Num 1)).

(** ** Matches and histories *)

(** Both teams of the match have the two slots the aggregation reads. *)
Definition wfMatch (m : Match) : bool :=
  (2 <=? length (Match.teamA m))%nat && (2 <=? length (Match.teamB m))%nat.

Definition historyMatches (history : list SavedRound) : list Match :=
  flat_map SavedRound.matches history.

Definition wfHistory (history : list SavedRound) : bool :=
  forallb wfMatch (historyMatches history).

(** The identifiers read from a match: [a1; a2; b1; b2]. *)
Definition slotIds (m : Match) : list string :=
  map Player.id (take 2 (Match.teamA m) ++ take 2 (Match.teamB m)).

Definition teamKeys (m : Match) : list string :=
  match slotIds m with
  | [a1; a2; b1; b2] => [makeKey a1 a2; makeKey b1 b2]
  | _ => []
  end.

Definition crossKeys (m : Match) : list string :=
  match slotIds m with
  | [a1; a2; b1; b2] => [makeKey a1 b1; makeKey a1 b2; makeKey a2 b1; makeKey a2 b2]
  | _ => []
  end.

Definition historyIds (history : list SavedRound) : list string :=
  flat_map slotIds (historyMatches history).

(** The team keys of a history, as a set. *)
Definition seenKeys (history : list SavedRound) : gset string :=
  list_to_set (flat_map teamKeys (historyMatches history)).

(** How often [x] occurs in [l]. *)
Definition occ (x : string) (l : list string) : Z :=
  Z.of_nat (length (filter (fun y => y = x) l)).

(** The matches in which no player of the roster takes part are left
    out. *)
Definition withoutOrphanRows (players : list Player) (history : list SavedRound)
  : list SavedRound :=
  map (fun r =>
         SavedRound.mk (SavedRound.id r) (SavedRound.createdAt r) (SavedRound.courts r)
           (filter (fun m => Exists (fun x => x ∈ map Player.id players) (slotIds m))
                   (SavedRound.matches r))
           (SavedRound.results r))
      history.

Definition matchPlayers (m : Match) : list Player := Match.teamA m ++ Match.teamB m.

(** Each team of the match has exactly two players. *)
Definition twoPerTeam (m : Match) : Prop :=
  length (Match.teamA m) = 2%nat /\ length (Match.teamB m) = 2%nat.

(** The first two players of [team] are [x] and [y], in one order or the
    other. *)
Definition isTeam (x y : string) (team : list Player) : Prop :=
  map Player.id (take 2 team) = [x; y] \/ map Player.id (take 2 team) = [y; x].

(** [x] and [y] make up one of the two teams of the match. *)
Definition partnersIn (x y : string) (m : Match) : Prop :=
  isTeam x y (Match.teamA m) \/ isTeam x y (Match.teamB m).

(** A round in which nobody is on two courts or twice on one. *)
Definition validRound (r : SavedRound) : Prop :=
  forallb wfMatch (SavedRound.matches r) = true /\
  NoDup (flat_map slotIds (SavedRound.matches r)).

(** ** The search space of one court *)

(** The [k]-element combinations of [l], in the order of the nested index
    loops. *)
Fixpoint choose {A} (k : nat) (l : list A) {struct l} : list (list A) :=
  match k, l with
  | O, _ => [[]]
  | S _, [] => []
  | S k', x :: l' => map (cons x) (choose k' l') ++ choose k l'
  end.

(** The number of [k]-element combinations of [n] elements. *)
Fixpoint binomial (n k : nat) : nat :=
  match n, k with
  | _, O => 1
  | O, S _ => 0
  | S n', S k' => binomial n' k' + binomial n' k
  end.

Definition Candidate : Type := Player * Player * Player * Player.

(** The three ways to split four players into two teams of two. *)
Definition splitsOf (g : list Player) : list Candidate :=
  match g with
  | [p; q; r; s] => [(p, q, r, s); (p, r, q, s); (p, s, q, r)]
  | _ => []
  end.

Definition candidates (pool : list Player) : list Candidate :=
  flat_map splitsOf (choose 4 pool).

Definition candOf (sp : Split.t) : Candidate :=
  (Split.a sp, Split.b sp, Split.c sp, Split.d sp).

(** The number of games recorded for [x], zero when there is none. *)
Definition gamesOf (stats : Stats) (x : string) : Z := countOf (gp stats x).

(** The numbers of earlier partnerships and meetings on record for [x]
    and [y], zero when there is none. *)
Definition partnerOf (stats : Stats) (x y : string) : Z := countOf (partner stats x y).
Definition oppOf (stats : Stats) (x y : string) : Z := countOf (opp stats x y).

(** [a] has played no more games than [b]. *)
Definition fewerGames (stats : Stats) (a b : Player) : Prop :=
  gamesOf stats (Player.id a) <= gamesOf stats (Player.id b).

(** The cost of a candidate as the specification words it: 14 for each
    earlier partnership of a team, 3 for each earlier meeting of two
    opponents, a quarter off for each game played. *)
Definition totalCost (stats : Stats) (cand : Candidate) : Q :=
  let '(a, b, c, d) := cand in
  let ia := Player.id a in let ib := Player.id b in
  let ic := Player.id c in let id := Player.id d in
  (14 * inject_Z (partnerOf stats ia ib) + 14 * inject_Z (partnerOf stats ic id)
   + 3 * inject_Z (oppOf stats ia ic + oppOf stats ia id
                   + oppOf stats ib ic + oppOf stats ib id)
   - (1 # 4) * inject_Z (gamesOf stats ia + gamesOf stats ib
                         + gamesOf stats ic + gamesOf stats id))%Q.

(** Four times the cost, an integer. *)
Definition cost4 (stats : Stats) (cand : Candidate) : Z :=
  let '(a, b, c, d) := cand in
  let ia := Player.id a in let ib := Player.id b in
  let ic := Player.id c in let id := Player.id d in
  4 * (14 * partnerOf stats ia ib + 14 * partnerOf stats ic id
       + 3 * (oppOf stats ia ic + oppOf stats ia id + oppOf stats ib ic + oppOf stats ib id))
  - (gamesOf stats ia + gamesOf stats ib + gamesOf stats ic + gamesOf stats id).

(** [c], at index [i], is the first candidate of least cost. *)
Definition firstMinimum {C} (cost : C -> Q) (cands : list C) (i : nat) (c : C) : Prop :=
  cands !! i = Some c /\
  (forall j c', cands !! j = Some c' -> (cost c <= cost c')%Q) /\
  (forall j c', (j < i)%nat -> cands !! j = Some c' -> (cost c < cost c')%Q).

(** The teams of the match are the two pairs of the candidate. *)
Definition emits (m : Match) (cand : Candidate) : Prop :=
  let '(a, b, c, d) := cand in Match.teamA m = [a; b] /\ Match.teamB m = [c; d].

(** One of the two teams of the candidate is the pair of [x] and [y]. *)
Definition repeats (x y : string) (cand : Candidate) : Prop :=
  let '(a, b, c, d) := cand in isTeam x y [a; b] \/ isTeam x y [c; d].

(** * Notions used in the proofs *)

(** ** The aggregation on a well-formed history *)

(** The effect of one match whose teams have their two slots. *)
Definition applyMatch (st : Stats) (m : Match) : Stats :=
  mkStats (fold_left bump (slotIds m) (gamesPlayed st))
          (fold_left tally (teamKeys m) (partnerCount st))
          (fold_left tally (crossKeys m) (opponentCount st)).

Definition initialGames (players : list Player) : gmap string Value :=
  fold_left (fun g p => assign g (Player.id p) (Numeric (Num 0))) players ∅.

(** The snapshot [computeStats] returns on a well-formed history. *)
Definition statsOf (players : list Player) (history : list SavedRound) : Stats :=
  fold_left applyMatch (historyMatches history) (mkStats (initialGames players) ∅ ∅).

(** The percentage [partnerCoverage] reports for [done] of [totalPairs]. *)
Definition percentOf (done totalPairs : Z) : Z :=
  Z.max 0 (Z.min 100 (mathRound
                        (toDouble (toDouble (inject_Z done / inject_Z totalPairs) * 100))%Q)).

(** ** The search, one combination at a time *)

Definition considerGroup (stats : Stats) (best : option Best.t) (g : list Player)
  : option Best.t :=
  match g with
  | [p; q; r; s] => consider stats p q r s best
  | _ => best
  end.

(** Every player of [l] has a number of games on record. *)
Definition gamesOn (stats : Stats) (l : list Player) : Prop :=
  forall p, p ∈ l -> isCount (gp stats (Player.id p)).

(** Every player of [l] has a number of games on record, and every two
    of them numbers of partnerships and meetings. *)
Definition numericOn (stats : Stats) (l : list Player) : Prop :=
  gamesOn stats l /\
  forall p q, p ∈ l -> q ∈ l ->
    isCount (partner stats (Player.id p) (Player.id q)) /\
    isCount (opp stats (Player.id p) (Player.id q)).

(** What holds of [best] once the combinations [done] have been looked
    at: it is the first candidate of least cost among their splits. *)
Definition searchInvariant (stats : Stats) (done : list (list Player))
    (best : option Best.t) : Prop :=
  match best with
  | None => done = []
  | Some b =>
    exists i x,
      firstMinimum (totalCost stats) (flat_map splitsOf done) i (candOf (Best.split b)) /\
      Best.score b = Num x /\ (x == totalCost stats (candOf (Best.split b)))%Q /\
      Best.group b ∈ done /\ candOf (Best.split b) ∈ splitsOf (Best.group b)
  end.

(** What holds of [best] whatever the scores are: it is a split of one
    of the combinations looked at. *)
Definition searchFound (done : list (list Player)) (best : option Best.t) : Prop :=
  match best with
  | None => done = []
  | Some b => Best.group b ∈ done /\ candOf (Best.split b) ∈ splitsOf (Best.group b)
  end.

(** ** Before the first round *)

(** A counter that reads zero or no number, and the score such counters
    give. *)
Definition flat (n : jsval Z) : Prop := n = Num 0 \/ n = NaN.

Definition level (q : jsval Q) : Prop :=
  q = Num (inject_Z 0 + inject_Z 0 + - (1 # 4) * inject_Z 0)%Q \/ q = NaN.

(** ** Tactics *)

(** The cases of a lookup in a list that is given element by element. *)
Ltac lookup_cases j Hj :=
  repeat (destruct j as [|j]; [injection Hj as <- | simpl in Hj]);
  [.. | discriminate Hj].

(** A property of the elements of a list holds of those of a list that
    is written out with the same elements. *)
Ltac among H :=
  let x := fresh "x" in let Hx := fresh "Hx" in
  intros x Hx; apply H; revert Hx; rewrite !elem_of_cons, !elem_of_nil; tauto.

(** Membership in a list that is written out. *)
Ltac listed := rewrite !elem_of_cons, !elem_of_nil; tauto.

#[global] Instance Player_eq_dec : EqDecision Player.
Proof. solve_decision. Defined.

Arguments totalCost : simpl never.
Arguments cost4 : simpl never.
Arguments matchScore : simpl never.
Arguments makeKey : simpl never.

(** * Sample inputs *)

(** The player whose identifier and name are the [i]-th letter. *)
Definition letter (i : nat) : Player :=
  let s := String (ascii_of_nat (97 + i)) EmptyString in Player.mk s s.

Definition named (s : string) : Player := Player.mk s s.

(** A shuffle that leaves the roster as it is. *)
Definition sameOrder (l : list Player) : list Player := l.

Definition roster4 : list Player := map letter (seq 0 4).

Definition roster8 : list Player := map letter (seq 0 8).

(** One saved round of two courts: a and b against c and d, e and f
    against g and h. *)
Definition firstRound : SavedRound :=
  SavedRound.mk "round-1" 0 2
    [Match.mk 1 [letter 0; letter 1] [letter 2; letter 3];
     Match.mk 2 [letter 4; letter 5] [letter 6; letter 7]]
    [(1, (6, 3)); (2, (4, 5))].

(** A saved round with a match that has lost its players. *)
Definition brokenRound : SavedRound :=
  SavedRound.mk "round-x" 0 1 [Match.mk 1 [] []] [].

(** A saved round in which a, b, c and d are on three courts at once,
    in each of the three possible pairings, and e, f, g and h on four. *)
Definition crowdedRound : SavedRound :=
  SavedRound.mk "round-1" 0 7
    [Match.mk 1 [letter 0; letter 1] [letter 2; letter 3];
     Match.mk 2 [letter 0; letter 2] [letter 1; letter 3];
     Match.mk 3 [letter 0; letter 3] [letter 1; letter 2];
     Match.mk 4 [letter 4; letter 5] [letter 6; letter 7];
     Match.mk 5 [letter 4; letter 5] [letter 6; letter 7];
     Match.mk 6 [letter 4; letter 5] [letter 6; letter 7];
     Match.mk 7 [letter 4; letter 5] [letter 6; letter 7]]
    [].

(** A roster with a player whose identifier is [__proto__], and a saved
    round that this player and a, b and c played. *)
Definition rosterWithProto : list Player := map named ["__proto__"; "a"; "b"; "c"].

Definition roundWithProto : SavedRound :=
  SavedRound.mk "round-1" 0 1
    [Match.mk 1 [named "__proto__"; named "a"] [named "b"; named "c"]]
    [(1, (6, 3))].

(** A roster in which the key of the first two identifiers, the empty
    one and [proto__], is the name [__proto__], and a saved round that
    the four players played. *)
Definition rosterWithProtoKey : list Player := map named [EmptyString; "proto__"; "b"; "c"].

Definition roundWithProtoKey : SavedRound :=
  SavedRound.mk "round-1" 0 1
    [Match.mk 1 [named EmptyString; named "proto__"] [named "b"; named "c"]]
    [(1, (6, 3))].

(** A roster of five with such a player in second place, and a saved
    round that a played with three people who have left since. *)
Definition rosterOfFive : list Player := map named ["a"; "__proto__"; "b"; "c"; "d"].

Definition roundOfLeavers : SavedRound :=
  SavedRound.mk "round-1" 0 1
    [Match.mk 1 [named "a"; named "x"] [named "y"; named "z"]]
    [(1, (6, 3))].

(** A roster in which two identifiers contain the separator, and a saved
    round of three courts whose third court was played by four people who
    have left the roster since. *)
Definition rosterWithSeparators : list Player :=
  map named ["a"; "b"; "c__d"; "e__f"; "g"; "h"; "i"; "j"].

Definition roundWithLeavers : SavedRound :=
  SavedRound.mk "round-1" 0 3
    [Match.mk 1 [named "a"; named "b"] [named "g"; named "h"];
     Match.mk 2 [named "i"; named "j"] [named "k"; named "l"];
     Match.mk 3 [named "a__c"; named "d"] [named "a__e"; named "f"]]
    [].

(** ** A tournament of 26 players on six courts

    Player z stays put and the other 25 sit around a table that turns by
    one seat each round; the two players at the same distance from the
    head of the table are partners.  Twelve of the thirteen pairs of a
    round fill the six courts; the pairs left over in rounds 0 to 23 are
    played in two further rounds, and the pair left over in round 24, l
    and m, never plays. *)

Definition roster26 : list Player := map letter (seq 0 26).

Definition pairAt (r i : nat) : list Player :=
  match i with
  | O => [letter 25; letter (r mod 25)]
  | _ => [letter ((r + i) mod 25); letter ((r + 25 - i) mod 25)]
  end.

Definition circleRound (r : nat) : SavedRound :=
  SavedRound.mk ("round-" +:+ Player.id (letter r)) (Z.of_nat r) 6
    (map (fun t => Match.mk (Z.of_nat (t + 1)) (pairAt r (2 * t)) (pairAt r (2 * t + 1)))
         (seq 0 6))
    [].

Definition leftoverRound (start : nat) : SavedRound :=
  SavedRound.mk ("extra-" +:+ Player.id (letter start)) (Z.of_nat (25 + start)) 6
    (map (fun t => Match.mk (Z.of_nat (t + 1)) (pairAt (4 * t + start) 12)
                            (pairAt (4 * t + start + 2) 12))
         (seq 0 6))
    [].

Definition history26 : list SavedRound :=
  map circleRound (seq 0 25) ++ [leftoverRound 0; leftoverRound 1].
(** * Further notions used in the statements *)

(** ** What the aggregation reads of a history *)

(** The identifiers of the first two players of each team. *)
Definition matchView (m : Match) : list string * list string :=
  (map Player.id (take 2 (Match.teamA m)), map Player.id (take 2 (Match.teamB m))).

Definition teamsOf (history : list SavedRound) : list (list Player) :=
  flat_map (fun m => [Match.teamA m; Match.teamB m]) (historyMatches history).

#[global] Instance isTeam_dec (x y : string) (team : list Player) : Decision (isTeam x y team).
Proof. unfold isTeam. apply _. Defined.

(** In how many teams of the history [x] and [y] were the two players. *)
Definition timesPartners (x y : string) (history : list SavedRound) : Z :=
  Z.of_nat (length (filter (isTeam x y) (teamsOf history))).

(** The four pairs of opponents of a match. *)
Definition facing (m : Match) : list (string * string) :=
  match slotIds m with
  | [a1; a2; b1; b2] => [(a1, b1); (a1, b2); (a2, b1); (a2, b2)]
  | _ => []
  end.

(** The pair is [x] and [y], in one order or the other. *)
Definition isPair (x y : string) (uv : string * string) : Prop :=
  (uv.1 = x /\ uv.2 = y) \/ (uv.1 = y /\ uv.2 = x).

#[global] Instance isPair_dec (x y : string) (uv : string * string) : Decision (isPair x y uv).
Proof. unfold isPair. apply _. Defined.

(** How many times [x] and [y] faced each other in the history. *)
Definition timesOpponents (x y : string) (history : list SavedRound) : Z :=
  Z.of_nat (length (filter (isPair x y) (flat_map facing (historyMatches history)))).

(** The keys of all pairs of two of the identifiers. *)
Fixpoint pairKeys (ids : list string) : list string :=
  match ids with
  | [] => []
  | x :: rest => map (makeKey x) rest ++ pairKeys rest
  end.

(** All pairs of two of the identifiers, each pair once. *)
Fixpoint pairsOf (ids : list string) : list (string * string) :=
  match ids with
  | [] => []
  | x :: rest => map (pair x) rest ++ pairsOf rest
  end.

#[global] Instance partnersIn_dec (x y : string) (m : Match) : Decision (partnersIn x y m).
Proof. unfold partnersIn. apply _. Defined.

(** [x] and [y] made up a team in some match of the history. *)
Definition everPartners (x y : string) (history : list SavedRound) : Prop :=
  Exists (partnersIn x y) (historyMatches history).

#[global] Instance everPartners_dec (x y : string) (history : list SavedRound) :
  Decision (everPartners x y history).
Proof. unfold everPartners. apply _. Defined.

(** The players four by four, in the order they come, on the courts
    from [court] on. *)
Fixpoint inOrder (todo : nat) (court : Z) (l : list Player) : list Match :=
  match todo, l with
  | S todo', p :: q :: r :: s :: rest =>
    Match.mk court [p; q] [r; s] :: inOrder todo' (court + 1) rest
  | _, _ => []
  end.

(** The cost of the split a match was made from. *)
Definition matchCost (stats : Stats) (m : Match) : Q :=
  match Match.teamA m, Match.teamB m with
  | [a; b], [c; d] => totalCost stats (a, b, c, d)
  | _, _ => 0%Q
  end.

(** No player of the list has played two games more than another. *)
Definition evenGames (stats : Stats) (players : list Player) : Prop :=
  forall p q, p ∈ players -> q ∈ players ->
    gamesOf stats (Player.id p) <= gamesOf stats (Player.id q) + 1.

(** ** Points *)

Definition sumZ (l : list Z) : Z := fold_right Z.add 0 l.

(** What a match that ended [a] to [b] is worth to the player [x]: the
    score of a team for each time [x] is listed in it. *)
Definition earnedIn (x : string) (a b : Z) (m : Match) : Z :=
  a * occ x (map Player.id (Match.teamA m)) + b * occ x (map Player.id (Match.teamB m)).

Definition earnedRound (x : string) (round : SavedRound) : Z :=
  sumZ (map (fun m => match resultAt (SavedRound.results round) (Match.court m) with
                      | Some (a, b) => earnedIn x a b m
                      | None => 0
                      end)
            (SavedRound.matches round)).

Definition earned (x : string) (history : list SavedRound) : Z :=
  sumZ (map (earnedRound x) history).

(** What the matches of the current round with both scores entered are
    worth to [x]. *)
Definition earnedNow (x : string) (matches : list Match) (results : gmap Z MatchResult) : Z :=
  sumZ (map (fun m => match results !! Match.court m with
                      | Some (MatchResult.mk (Some a) (Some b)) => earnedIn x a b m
                      | _ => 0
                      end)
            matches).

(** The points a saved round hands out: the score of each team once for
    each of its players. *)
Definition awarded (round : SavedRound) : Z :=
  sumZ (map (fun m => match resultAt (SavedRound.results round) (Match.court m) with
                      | Some (a, b) => a * Z.of_nat (length (Match.teamA m))
                                       + b * Z.of_nat (length (Match.teamB m))
                      | None => 0
                      end)
            (SavedRound.matches round)).

(** Everybody in a match of the history is on the roster. *)
Definition allOnRoster (players : list Player) (history : list SavedRound) : Prop :=
  forall m p, m ∈ historyMatches history -> p ∈ matchPlayers m ->
              Player.id p ∈ map Player.id players.

(** The saved round has a result for the court of the match. *)
Definition hasResult (round : SavedRound) (m : Match) : bool :=
  match resultAt (SavedRound.results round) (Match.court m) with
  | Some _ => true
  | None => false
  end.

Definition resultsComplete (history : list SavedRound) : bool :=
  forallb (fun round => forallb (hasResult round) (SavedRound.matches round)) history.

Definition pointsZ (row : Row) : Z := countOf (Row.points row).

(** The row of a player whose points are [score] of the identifier. *)
Definition rowFor (score : string -> Z) (p : Player) : Row :=
  Row.mk (Player.id p) (Player.name p) (Numeric (Num (score (Player.id p)))).

(** A comparison of names that never puts each of two names after the
    other and is transitive. *)
Definition consistent (compare : string -> string -> Z) : Prop :=
  (forall a b, 0 < compare a b -> compare b a <= 0) /\
  (forall a b c, compare a b <= 0 -> compare b c <= 0 -> compare a c <= 0).

(** [x] has more points than [y], or as many and a name that does not
    come after. *)
Definition rankedBefore (compare : string -> string -> Z) (x y : Row) : Prop :=
  pointsZ y < pointsZ x \/
  (pointsZ y = pointsZ x /\ compare (Row.name x) (Row.name y) <= 0).

(** A comparison of names by their lengths. *)
Definition byLength (a b : string) : Z :=
  Z.of_nat (String.length a) - Z.of_nat (String.length b).

(** ** States *)

(** The score of one side of a result. *)
Definition scoreOf (side : Side) (r : MatchResult) : option Z :=
  match side with SideA => MatchResult.scoreA r | SideB => MatchResult.scoreB r end.

(** A score that is not negative is entered for the side of the court. *)
Definition filled (s : App.t) (court : Z) (side : Side) : Prop :=
  exists r v, App.results s !! court = Some r /\ scoreOf side r = Some v /\ 0 <= v.

(** A text typed into the score field of a side of a court. *)
Definition Entry : Type := Z * Side * string.

Definition enter (Number : string -> Z) (s : App.t) (e : Entry) : App.t :=
  updateScore Number e.1.1 e.1.2 e.2 s.

(** ** Using the page *)

(** Typing into the forms, the effects that keep the fields of the
    set-up form in line, and the messages of the clipboard: they change
    the fields of the forms and the messages, whatever the values. *)
Definition formEdit (tournamentName : string) (setupPlayerCount : Z)
    (setupNames : list string) (setupCourts targetRounds : Z) (name error toast : string)
    (s : App.t) : App.t :=
  App.mk tournamentName (App.setupDone s) setupPlayerCount setupNames setupCourts
         targetRounds name (App.players s) (App.courts s) (App.matches s) (App.results s)
         (App.savedRounds s) (App.manualEnded s) (App.extraMode s) error toast.

(** One use of the page.  The identifiers drawn are free of underscores
    and new to the roster, as those of [crypto.randomUUID] are, and the
    random comparator leaves the roster in some order. *)
Inductive step : App.t -> App.t -> Prop :=
| step_form tournamentName setupPlayerCount setupNames setupCourts targetRounds name
            error toast s :
    step s (formEdit tournamentName setupPlayerCount setupNames setupCourts targetRounds
                     name error toast s)
| step_resetAll s : step s (resetAll s)
| step_newTournament s : step s (newTournamentFromCurrent s)
| step_start uuid s :
    (forall i, underscoreFree (uuid i) = true) ->
    (forall i j : nat, uuid i = uuid j -> i = j) ->
    step s (startTournamentFromSetup uuid s)
| step_addPlayer uuid s :
    underscoreFree uuid = true -> uuid ∉ map Player.id (App.players s) ->
    step s (addPlayer uuid s)
| step_removePlayer id s : step s (removePlayer id s)
| step_generate shuffle s s' :
    (forall l, Permutation l (shuffle l)) ->
    generateRoundFair shuffle s = Return s' -> step s s'
| step_updateScore Number court side value s :
    step s (updateScore Number court side value s)
| step_saveRound uuid now s s' : saveRound uuid now s = Return s' -> step s s'
| step_deleteLastRound s : step s (deleteLastRound s)
| step_endTournament s : step s (endTournamentNow s)
| step_resume s : step s (resumeTournament s)
| step_extraRounds s : step s (playExtraRounds s).

(** The states the page gets to from its first render, local storage
    being empty. *)
Definition reachable (s : App.t) : Prop := rtc step initialState s.

(** The matches of a round as the generator leaves them: two players
    per team, nobody twice, identifiers free of underscores, on the
    courts 1, 2, ... *)
Definition tidyMatches (ms : list Match) : Prop :=
  Forall twoPerTeam ms /\
  NoDup (flat_map slotIds ms) /\
  plainIds (flat_map slotIds ms) /\
  map Match.court ms = seqZ 1 (Z.of_nat (length ms)).

(** A saved round as [saveRound] leaves it: tidy matches, at least one,
    as many as the round says, each with a result of two scores that
    are not negative. *)
Definition tidyRound (round : SavedRound) : Prop :=
  tidyMatches (SavedRound.matches round) /\
  SavedRound.matches round <> [] /\
  SavedRound.courts round = Z.of_nat (length (SavedRound.matches round)) /\
  forall m, m ∈ SavedRound.matches round ->
    exists a b, resultAt (SavedRound.results round) (Match.court m) = Some (a, b)
                /\ 0 <= a /\ 0 <= b.

(** No score entered for the current round is negative. *)
Definition scoresNonNegative (results : gmap Z MatchResult) : Prop :=
  forall court r side v, results !! court = Some r -> scoreOf side r = Some v -> 0 <= v.

Definition tidy (s : App.t) : Prop :=
  NoDup (map Player.id (App.players s)) /\
  plainIds (map Player.id (App.players s)) /\
  tidyMatches (App.matches s) /\
  scoresNonNegative (App.results s) /\
  Forall tidyRound (App.savedRounds s).

(** The set-up form passes the checks of the start button. *)
Definition setupValid (s : App.t) : bool :=
  (2 <=? String.length (trim (App.tournamentName s)))%nat
  && forallb (fun n => negb (String.length (trim n) =? 0)%nat) (App.setupNames s)
  && (1 <=? App.setupCourts s).

(** * Further notions used in the proofs *)

(** The results a new round starts with: both scores of every court
    blank. *)
Definition blankResults (ms : list Match) : gmap Z MatchResult :=
  fold_left (fun res m => <[Match.court m := MatchResult.mk None None]> res) ms ∅.

(** What [saveRound] freezes for a match whose result is there. *)
Definition frozenOf (results : gmap Z MatchResult) (m : Match) : Z * (Z * Z) :=
  (Match.court m,
   match results !! Match.court m with
   | Some r => (numberOf (MatchResult.scoreA r), numberOf (MatchResult.scoreB r))
   | None => (0, 0)
   end).

(** Both scores of the court of the match are entered. *)
Definition scored (results : gmap Z MatchResult) (m : Match) : bool :=
  match results !! Match.court m with
  | Some r => entered (MatchResult.scoreA r) && entered (MatchResult.scoreB r)
  | None => false
  end.


(** The effect of a saved round whose matches all have a result. *)
Definition creditRound (round : SavedRound) (points : gmap string Value)
  : gmap string Value :=
  fold_left (fun points m =>
               match resultAt (SavedRound.results round) (Match.court m) with
               | Some (a, b) => creditTeams a b m points
               | None => points
               end)
            (SavedRound.matches round) points.


(** What is read of a match is a function of its view. *)
Definition viewIds (v : list string * list string) : list string := v.1 ++ v.2.

Definition viewKeys (v : list string * list string) : list string :=
  match viewIds v with
  | [a1; a2; b1; b2] => [makeKey a1 a2; makeKey b1 b2]
  | _ => []
  end.

Definition viewCrossKeys (v : list string * list string) : list string :=
  match viewIds v with
  | [a1; a2; b1; b2] => [makeKey a1 b1; makeKey a1 b2; makeKey a2 b1; makeKey a2 b2]
  | _ => []
  end.

Definition viewComplete (v : list string * list string) : bool :=
  (2 <=? length v.1)%nat && (2 <=? length v.2)%nat.

(** Sums of numbers that may be [NaN], by cases. *)
Ltac by_cases :=
  repeat match goal with
         | |- context [toNumber ?v] => generalize (toNumber v); intros [?|]
         end;
  simpl; try reflexivity; try (f_equal; lia).


(** * Further sample inputs *)

(** The round that follows [firstRound] when the shuffle leaves the
    roster as it is. *)
Definition secondRound : Generated.t :=
  match generateFairRound sameOrder roster8 2 [firstRound] with
  | Return r => r
  | Throw => Generated.mk [] []
  end.

(** Reads the fields of a state that is given by setters. *)
Ltac state_fields :=
  cbn [App.tournamentName App.setupDone App.setupPlayerCount App.setupNames
       App.setupCourts App.targetRounds App.name App.players App.courts App.matches
       App.results App.savedRounds App.manualEnded App.extraMode App.error App.toast
       setTournamentName setSetupDone setSetupPlayerCount setSetupNames setSetupCourts
       setTargetRounds setName setPlayers setCourts setMatches setResults setSavedRounds
       setManualEnded setExtraMode setError setToast formEdit].

(** The five parts of [tidy], in order. *)
Ltac tidy_split := split; [|split; [|split; [|split]]].

(** Two numbers on record are equal when the integers are. *)
Ltac num_eq := apply (f_equal Some), (f_equal Numeric), (f_equal Num); lia.

(** A tournament of eight players on two courts after its first
    round. *)
Definition afterFirstRound : App.t :=
  App.mk "Freitag" true 8 (map Player.name roster8) 2 14 EmptyString roster8 2 [] ∅
         [firstRound] false false EmptyString EmptyString.

(** Identifiers drawn one after the other: p, xp, xxp, ... *)
Fixpoint unaryId (i : nat) : string :=
  match i with
  | O => "p"
  | S i' => String "x" (unaryId i')
  end.

(** The page after the set-up form was filled in for eight players and
    two courts, the tournament started and a first round generated. *)
Definition formFilled : App.t :=
  formEdit "Freitag" 8 (map Player.name roster8) 2 0 EmptyString EmptyString EmptyString
           initialState.

Definition started : App.t := startTournamentFromSetup unaryId formFilled.

Definition playing : App.t :=
  match generateRoundFair sameOrder started with
  | Return s => s
  | Throw => started
  end.

(** A stand-in for [Number]: the length of the text. *)
Definition textLength (text : string) : Z := Z.of_nat (String.length text).

(** The page after the scores 5:2 and 3:8 were typed in and the round
    saved. *)
Definition scoredOnce : App.t :=
  updateScore textLength 2 SideB "xxxxxxxx"
    (updateScore textLength 2 SideA "xxx"
       (updateScore textLength 1 SideB "xx"
          (updateScore textLength 1 SideA "xxxxx" playing))).

Definition savedOnce : App.t :=
  match saveRound "round-A" 1 scoredOnce with
  | Return s => s
  | Throw => scoredOnce
  end.

(** * Properties *)

(** ** The pair key *)

Lemma makeKey_comm (a b : string) : makeKey a b = makeKey b a.
Proof.
  unfold makeKey, String.ltb.
  rewrite (String.compare_antisym a b).
  destruct (String.compare b a) eqn:E; simpl; try reflexivity.
  apply String.compare_eq_iff in E. now subst.
Qed.

Lemma append_sep_inj (x x' y y' : string) :
  underscoreFree x = true -> underscoreFree x' = true ->
  x +:+ "__" +:+ y = x' +:+ "__" +:+ y' -> x = x' /\ y = y'.
Proof.
  revert x'. induction x as [|c x IH]; intros [|c' x'] Hx Hx' E; simpl in *.
  - change (String "_" (String "_" y) = String "_" (String "_" y')) in E.
    split; [reflexivity | congruence].
  - change (String "_" (String "_" y) = String c' (x' +:+ "__" +:+ y')) in E.
    injection E as <- _. discriminate.
  - change (String c (x +:+ "__" +:+ y) = String "_" (String "_" y')) in E.
    injection E as -> _. discriminate.
  - change (String c (x +:+ "__" +:+ y) = String c' (x' +:+ "__" +:+ y')) in E.
    injection E as <- E.
    apply andb_prop in Hx as [_ Hx]. apply andb_prop in Hx' as [_ Hx'].
    destruct (IH x' Hx Hx' E) as [-> ->]. auto.
Qed.

(** On identifiers without the separator character the key determines
    the unordered pair. *)
Lemma makeKey_inj (a b c d : string) :
  underscoreFree a = true -> underscoreFree b = true ->
  underscoreFree c = true -> underscoreFree d = true ->
  makeKey a b = makeKey c d -> (a = c /\ b = d) \/ (a = d /\ b = c).
Proof.
  intros Ha Hb Hc Hd. unfold makeKey.
  destruct (String.ltb a b), (String.ltb c d); intros E;
    apply append_sep_inj in E; intuition.
Qed.

(** ** Keys and inherited names *)

Lemma underscores_append (s1 s2 : string) :
  underscores (s1 +:+ s2) = (underscores s1 + underscores s2)%nat.
Proof.
  induction s1 as [|c s1 IH]; [reflexivity|].
  change (String c s1 +:+ s2) with (String c (s1 +:+ s2)). simpl. rewrite IH. lia.
Qed.

Lemma underscoreFree_underscores (s : string) :
  underscoreFree s = true -> underscores s = 0%nat.
Proof.
  induction s as [|c s IH]; [reflexivity|]. simpl. intros H.
  apply andb_prop in H as [Hc Hs]. rewrite (IH Hs).
  destruct (Ascii.eqb c "_"); [discriminate Hc | reflexivity].
Qed.

(** The key of two identifiers without underscores has two of them, and
    no name of [Object.prototype] has. *)
Lemma makeKey_plain_own (x y : string) :
  underscoreFree x = true -> underscoreFree y = true -> makeKey x y ∉ prototypeNames.
Proof.
  intros Hx Hy Hin.
  assert (Hkey : underscores (makeKey x y) = 2%nat).
  { unfold makeKey. destruct (String.ltb x y);
      rewrite !underscores_append, (underscoreFree_underscores x Hx),
              (underscoreFree_underscores y Hy); reflexivity. }
  assert (Hnames : Forall (fun n => underscores n <> 2%nat) prototypeNames).
  { repeat constructor; discriminate. }
  rewrite Forall_forall in Hnames. exact (Hnames _ Hin Hkey).
Qed.

Lemma plainIds_storable (ids : list string) : plainIds ids -> storable ids.
Proof.
  unfold plainIds, storable. rewrite Forall_forall. intros H Hin.
  specialize (H _ Hin). discriminate H.
Qed.

Lemma plainIds_ownNames (ids : list string) : plainIds ids -> ownNames ids.
Proof.
  intros H. split; [now apply plainIds_storable|].
  unfold plainIds in H. rewrite Forall_forall in H.
  intros x y Hx Hy. apply makeKey_plain_own; auto.
Qed.

(** C6, as the code has it: for identifiers in which the underscore does
    not occur, the key of a pair does not depend on the order of the two
    identifiers, and the keys of [a] with two different partners differ. *)
Theorem pairKey_symmetric_and_distinct (a b c : string) :
  underscoreFree a = true -> underscoreFree b = true -> underscoreFree c = true ->
  a <> b -> b <> c ->
  makeKey a b = makeKey b a /\ makeKey a b <> makeKey a c.
Proof.
  intros Ha Hb Hc Hab Hbc. split; [apply makeKey_comm|].
  intros E. apply makeKey_inj in E; trivial.
  destruct E as [[_ E]|[_ E]]; congruence.
Qed.

Lemma pairKey_symmetric_and_distinct_witness :
  makeKey "p1" "p2" = makeKey "p2" "p1" /\ makeKey "p1" "p2" <> makeKey "p1" "p3".
Proof.
  apply (pairKey_symmetric_and_distinct "p1" "p2" "p3");
    first [reflexivity | discriminate].
Defined.

(** C6 as stated fails on identifiers that contain the separator: the
    partners ["a__"] and ["__a"] of ["__a__"] get one and the same key. *)
Lemma pairKey_collision :
  ~ (forall a b c : string, a <> b -> b <> c ->
       makeKey a b = makeKey b a /\ makeKey a b <> makeKey a c).
Proof.
  intros H.
  destruct (H "__a__" "a__" "__a") as [_ Hne]; [discriminate | discriminate |].
  apply Hne. reflexivity.
Qed.

(** ** The recommended number of rounds *)

Lemma recommend_covers (N C : Z) :
  4 <= N ->
  N * (N - 1) <= recommendRoundsPartner N C * 4 * Z.max 1 (Z.min C (N / 4)).
Proof.
  intros HN. unfold recommendRoundsPartner.
  destruct (Z.ltb_spec N 4) as [?|_]; [lia|].
  assert (Hp : 1 <= N / 4) by (apply Z.div_le_lower_bound; lia).
  destruct (Z.eqb_spec (N / 4) 0) as [?|_]; [lia|].
  set (c := Z.max 1 (Z.min C (N / 4))).
  assert (Hc : 1 <= c) by (unfold c; lia).
  set (num := N * (N - 1)).
  assert (Hnum : 0 <= num) by (unfold num; nia).
  set (q := (inject_Z num / inject_Z (4 * c))%Q).
  assert (Hq : num <= Qceiling q * (4 * c)).
  { pose proof (Qle_ceiling q) as H.
    assert (Hden : (0 < inject_Z (4 * c))%Q).
    { change 0%Q with (inject_Z 0). rewrite <- Zlt_Qlt. lia. }
    apply (Qmult_le_r _ _ _ Hden) in H.
    unfold q in H. unfold Qdiv in H.
    rewrite <- Qmult_assoc, (Qmult_comm (/ _)), Qmult_inv_r, Qmult_1_r in H
      by (intros E; rewrite E in Hden; discriminate Hden).
    rewrite <- inject_Z_mult in H. rewrite Zle_Qle. exact H. }
  nia.
Qed.

(** C4, as the code has it: with at least four players and at least one
    court requested, the recommended rounds offer no fewer player slots
    than there are pairs of players. *)
Theorem recommend_lower_bound (N C : Z) :
  4 <= N -> 1 <= C ->
  N * (N - 1) / 2 <= recommendRoundsPartner N C * 4 * Z.min C (N / 4).
Proof.
  intros HN HC. pose proof (recommend_covers N C HN) as H.
  assert (Hp : 1 <= N / 4) by (apply Z.div_le_lower_bound; lia).
  rewrite Z.max_r in H by lia.
  assert (0 <= N * (N - 1)) by nia.
  assert (N * (N - 1) / 2 <= N * (N - 1)) by (apply Z.div_le_upper_bound; lia).
  lia.
Qed.

Lemma recommend_lower_bound_witness :
  8 * (8 - 1) / 2 <= recommendRoundsPartner 8 2 * 4 * Z.min 2 (8 / 4).
Proof. apply (recommend_lower_bound 8 2); lia. Defined.

(** C4 as stated fails when no court is requested: the estimate is
    computed for one court, the product in the claim for none. *)
Lemma recommend_zero_courts :
  ~ (forall N C : Z, 4 <= N ->
       N * (N - 1) / 2 <= recommendRoundsPartner N C * 4 * Z.min C (N / 4)).
Proof.
  intros H. assert (6 <= 0) as Habs by exact (H 4 0 ltac:(lia)). lia.
Qed.

(** ** Loops *)

Lemma forOf_app {A S} (body : S -> A -> Completion S) (l1 l2 : list A) (s : S) :
  forOf body (l1 ++ l2) s = (s' ← forOf body l1 s; forOf body l2 s').
Proof.
  revert s. induction l1 as [|x l1 IH]; intros s; simpl; [reflexivity|].
  destruct (body s x) as [s'|]; simpl; [apply IH | reflexivity].
Qed.

Lemma forOf_nested {A B S} (body : S -> B -> Completion S) (g : A -> list B)
    (l : list A) (s : S) :
  forOf (fun s x => forOf body (g x) s) l s = forOf body (flat_map g l) s.
Proof.
  revert s. induction l as [|x l IH]; intros s; simpl; [reflexivity|].
  rewrite forOf_app. destruct (forOf body (g x) s); simpl; [apply IH | reflexivity].
Qed.

Lemma forOf_pure {A S} (body : S -> A -> Completion S) (f : S -> A -> S)
    (ok : A -> bool) (l : list A) (s : S) :
  (forall s x, ok x = true -> body s x = Return (f s x)) ->
  forallb ok l = true ->
  forOf body l s = Return (fold_left f l s).
Proof.
  intros Hbody. revert s. induction l as [|x l IH]; intros s Hl; simpl; [reflexivity|].
  simpl in Hl. apply andb_prop in Hl as [Hx Hl].
  rewrite (Hbody s x Hx). simpl. apply IH, Hl.
Qed.

Lemma forOf_throws {A S} (body : S -> A -> Completion S) (ok : A -> bool)
    (l : list A) (s : S) :
  (forall s x, ok x = false -> body s x = Throw) ->
  (forall s x, ok x = true -> exists s', body s x = Return s') ->
  forallb ok l = false ->
  forOf body l s = Throw.
Proof.
  intros Hbad Hgood. revert s. induction l as [|x l IH]; intros s Hl; simpl in *.
  - discriminate.
  - destruct (ok x) eqn:Hx; simpl in Hl.
    + destruct (Hgood s x Hx) as [s' ->]. simpl. apply IH, Hl.
    + now rewrite (Hbad s x Hx).
Qed.

(** ** Well-formed matches *)

Lemma wfMatch_slots (m : Match) :
  wfMatch m = true ->
  exists a1 a2 b1 b2,
    slotIds m = [a1; a2; b1; b2] /\
    idAt (Match.teamA m) 0 = Return a1 /\ idAt (Match.teamA m) 1 = Return a2 /\
    idAt (Match.teamB m) 0 = Return b1 /\ idAt (Match.teamB m) 1 = Return b2.
Proof.
  unfold wfMatch, slotIds, idAt. intros H. apply andb_prop in H as [HA HB].
  destruct (Match.teamA m) as [|x1 [|x2 tA]]; try discriminate HA.
  destruct (Match.teamB m) as [|y1 [|y2 tB]]; try discriminate HB.
  exists (Player.id x1), (Player.id x2), (Player.id y1), (Player.id y2).
  simpl. auto.
Qed.

Lemma illformed_idAt (m : Match) :
  wfMatch m = false ->
  idAt (Match.teamA m) 0 = Throw \/ idAt (Match.teamA m) 1 = Throw \/
  idAt (Match.teamB m) 0 = Throw \/ idAt (Match.teamB m) 1 = Throw.
Proof.
  unfold wfMatch, idAt. intros H.
  destruct (Match.teamA m) as [|x1 [|x2 tA]]; simpl; auto.
  destruct (Match.teamB m) as [|y1 [|y2 tB]]; simpl; auto.
  discriminate H.
Qed.

Lemma statsOfMatch_wf (st : Stats) (m : Match) :
  wfMatch m = true -> statsOfMatch st m = Return (applyMatch st m).
Proof.
  intros H. destruct (wfMatch_slots m H) as (a1 & a2 & b1 & b2 & Hs & E1 & E2 & E3 & E4).
  unfold statsOfMatch, applyMatch, teamKeys, crossKeys.
  rewrite E1, E2, E3, E4, Hs. reflexivity.
Qed.

Lemma statsOfMatch_illformed (st : Stats) (m : Match) :
  wfMatch m = false -> statsOfMatch st m = Throw.
Proof.
  intros H. unfold statsOfMatch.
  destruct (illformed_idAt m H) as [E|[E|[E|E]]];
    destruct (idAt (Match.teamA m) 0), (idAt (Match.teamA m) 1),
             (idAt (Match.teamB m) 0), (idAt (Match.teamB m) 1);
    simpl; try reflexivity; discriminate E.
Qed.

Lemma seenOfMatch_wf (seen : gset string) (m : Match) :
  wfMatch m = true -> seenOfMatch seen m = Return (list_to_set (teamKeys m) ∪ seen).
Proof.
  intros H. destruct (wfMatch_slots m H) as (a1 & a2 & b1 & b2 & Hs & E1 & E2 & E3 & E4).
  unfold seenOfMatch, teamKeys. rewrite E1, E2, E3, E4, Hs. simpl. f_equal.
  apply set_eq. intros k. rewrite !elem_of_union, elem_of_empty. tauto.
Qed.

Lemma seenOfMatch_illformed (seen : gset string) (m : Match) :
  wfMatch m = false -> seenOfMatch seen m = Throw.
Proof.
  intros H. unfold seenOfMatch.
  destruct (illformed_idAt m H) as [E|[E|[E|E]]];
    destruct (idAt (Match.teamA m) 0), (idAt (Match.teamA m) 1),
             (idAt (Match.teamB m) 0), (idAt (Match.teamB m) 1);
    simpl; try reflexivity; discriminate E.
Qed.

(** ** The counters after a well-formed history *)

Lemma computeStats_wf (players : list Player) (history : list SavedRound) :
  wfHistory history = true ->
  computeStats players history =
    Return (fold_left applyMatch (historyMatches history)
                      (mkStats (initialGames players) ∅ ∅)).
Proof.
  intros H. unfold computeStats. rewrite forOf_nested.
  apply (forOf_pure _ _ wfMatch); [|exact H].
  intros s x. apply statsOfMatch_wf.
Qed.

Lemma computeStats_illformed (players : list Player) (history : list SavedRound) :
  wfHistory history = false -> computeStats players history = Throw.
Proof.
  intros H. unfold computeStats. rewrite forOf_nested.
  apply (forOf_throws _ wfMatch); [| |exact H].
  - intros s x. apply statsOfMatch_illformed.
  - intros s x Hx. rewrite statsOfMatch_wf by exact Hx. eauto.
Qed.

Lemma applyMatch_games (ms : list Match) (st : Stats) :
  gamesPlayed (fold_left applyMatch ms st)
  = fold_left bump (flat_map slotIds ms) (gamesPlayed st).
Proof.
  revert st. induction ms as [|m ms IH]; intros st; simpl; [reflexivity|].
  rewrite IH, fold_left_app. reflexivity.
Qed.

Lemma applyMatch_partner (ms : list Match) (st : Stats) :
  partnerCount (fold_left applyMatch ms st)
  = fold_left tally (flat_map teamKeys ms) (partnerCount st).
Proof.
  revert st. induction ms as [|m ms IH]; intros st; simpl; [reflexivity|].
  rewrite IH, fold_left_app. reflexivity.
Qed.

Lemma applyMatch_opponent (ms : list Match) (st : Stats) :
  opponentCount (fold_left applyMatch ms st)
  = fold_left tally (flat_map crossKeys ms) (opponentCount st).
Proof.
  revert st. induction ms as [|m ms IH]; intros st; simpl; [reflexivity|].
  rewrite IH, fold_left_app. reflexivity.
Qed.

(** ** Counting *)

Lemma occ_nil (x : string) : occ x [] = 0.
Proof. reflexivity. Qed.

Lemma occ_cons (x y : string) (l : list string) :
  occ x (y :: l) = (if decide (y = x) then 1 else 0) + occ x l.
Proof.
  unfold occ. rewrite filter_cons. destruct (decide (y = x)); simpl length; lia.
Qed.

Lemma occ_app (x : string) (l1 l2 : list string) :
  occ x (l1 ++ l2) = occ x l1 + occ x l2.
Proof. unfold occ. rewrite filter_app, length_app. lia. Qed.

Lemma occ_nonneg (x : string) (l : list string) : 0 <= occ x l.
Proof. unfold occ. lia. Qed.

Lemma occ_zero (x : string) (l : list string) : x ∉ l -> occ x l = 0.
Proof.
  induction l as [|y l IH]; intros H; [reflexivity|].
  rewrite occ_cons. apply not_elem_of_cons in H as [Hne H].
  destruct (decide (y = x)); [congruence|]. rewrite IH by exact H. lia.
Qed.

Lemma occ_pos (x : string) (l : list string) : x ∈ l -> 1 <= occ x l.
Proof.
  induction l as [|y l IH]; intros H; [inversion H|].
  rewrite occ_cons. pose proof (occ_nonneg x l).
  destruct (decide (y = x)); [lia|].
  apply elem_of_cons in H as [H|H]; [congruence|]. specialize (IH H). lia.
Qed.

(** ** Object literals *)

Lemma proto_inherited : "__proto__" ∈ prototypeNames.
Proof. apply (bool_decide_unpack _). vm_compute. exact I. Qed.

Lemma read_own (o : gmap string Value) (k : string) (v : Value) :
  o !! k = Some v -> read o k = Some v.
Proof. unfold read. now intros ->. Qed.

Lemma read_absent (o : gmap string Value) (k : string) :
  o !! k = None -> k ∉ prototypeNames -> read o k = None.
Proof. unfold read. intros -> Hk. now rewrite decide_False. Qed.

Lemma read_inherited (o : gmap string Value) (k : string) :
  o !! k = None -> k ∈ prototypeNames -> read o k = Some (Inherited k).
Proof. unfold read. intros -> Hk. now rewrite decide_True. Qed.

Lemma assign_lookup (o : gmap string Value) (k x : string) (v : Value) :
  k <> "__proto__" ->
  assign o k v !! x = if decide (k = x) then Some v else o !! x.
Proof.
  intros Hk. unfold assign. rewrite decide_False by exact Hk.
  destruct (decide (k = x)) as [->|Hne].
  - apply lookup_insert_eq.
  - now apply lookup_insert_ne.
Qed.

Lemma assign_lookup_ne (o : gmap string Value) (k x : string) (v : Value) :
  k <> x -> assign o k v !! x = o !! x.
Proof.
  intros Hne. unfold assign. destruct (decide (k = "__proto__")); [reflexivity|].
  now apply lookup_insert_ne.
Qed.

Lemma assign_proto (o : gmap string Value) (v : Value) : assign o "__proto__" v = o.
Proof. reflexivity. Qed.

(** A value that is no number stays none when something is added. *)
Lemma plus_foreign (x y : Value) : foreign x -> foreign (plus x y).
Proof. destruct x; [intros [] | intros _; exact I | intros _; exact I]. Qed.

Lemma foreign_count (v : Value) : foreign v -> countOf v = 0.
Proof. destruct v; [intros [] | reflexivity | reflexivity]. Qed.

Lemma foreign_toNumber (v : Value) : foreign v -> toNumber v = NaN.
Proof. destruct v; [intros [] | reflexivity | reflexivity]. Qed.

(** Under [*] and [-] a sum counts as the sum of what its operands
    count as. *)
Lemma toNumber_plus (x y : Value) :
  toNumber (plus x y) = jsLift2 Z.add (toNumber x) (toNumber y).
Proof.
  destruct x as [[a|]| |], y as [[b|]| |]; reflexivity.
Qed.

Lemma ones_succ (k : Z) : 0 <= k -> ones k ++ [Digits (Num 1)] = ones (k + 1).
Proof.
  intros Hk. unfold ones. rewrite Z2Nat.inj_add by lia.
  change (Z.to_nat 1) with 1%nat. rewrite Nat.add_1_r.
  symmetry. apply replicate_S_end.
Qed.

(** ** The counters, entry by entry *)

Lemma tally_lookup_ne (m : gmap string Value) (k x : string) :
  k <> x -> tally m k !! x = m !! x.
Proof. intros Hne. unfold tally. now apply assign_lookup_ne. Qed.

Lemma tally_read_ne (m : gmap string Value) (k x : string) :
  k <> x -> read (tally m k) x = read m x.
Proof. intros Hne. unfold read. now rewrite tally_lookup_ne. Qed.

(** What [m[x] ?? 0] reads after the increments for [ks], under a name
    that is not inherited. *)
Lemma tally_fold_lookup (ks : list string) (m : gmap string Value) (x : string) (n : Z) :
  x ∉ prototypeNames ->
  nullish (read m x) 0 = Numeric (Num n) ->
  nullish (read (fold_left tally ks m) x) 0 = Numeric (Num (n + occ x ks)).
Proof.
  intros Hx. revert m n. induction ks as [|k ks IH]; intros m n Hm; simpl.
  - rewrite occ_nil, Hm. do 2 f_equal. lia.
  - rewrite occ_cons. destruct (decide (k = x)) as [->|Hne].
    + rewrite (IH _ (n + 1)); [do 2 f_equal; lia|].
      unfold tally. rewrite Hm. simpl plus.
      assert (Hp : x <> "__proto__").
      { intros ->. apply Hx, proto_inherited. }
      erewrite read_own; [reflexivity|].
      rewrite assign_lookup by exact Hp. now rewrite decide_True.
    + rewrite (IH _ n); [do 2 f_equal; lia|].
      now rewrite tally_read_ne.
Qed.

(** Under an inherited name it reads no number. *)
Lemma tally_fold_foreign (ks : list string) (m : gmap string Value) (x : string) :
  x ∈ prototypeNames ->
  (forall v, m !! x = Some v -> foreign v) ->
  foreign (nullish (read (fold_left tally ks m) x) 0).
Proof.
  intros Hx. revert m. induction ks as [|k ks IH]; intros m Hm; simpl.
  - unfold read. destruct (m !! x) as [v|] eqn:E; simpl; [now apply Hm|].
    now rewrite decide_True.
  - apply IH. intros v. destruct (decide (k = x)) as [->|Hne].
    + unfold tally, assign. destruct (decide (x = "__proto__")); [apply Hm|].
      rewrite lookup_insert_eq. intros [= <-]. apply plus_foreign.
      unfold read. destruct (m !! x) as [w|] eqn:E; simpl; [now apply Hm|].
      now rewrite decide_True.
    + rewrite tally_lookup_ne by exact Hne. apply Hm.
Qed.

Lemma bump_lookup_ne (g : gmap string Value) (k x : string) :
  k <> x -> bump g k !! x = g !! x.
Proof. intros Hne. unfold bump. now apply assign_lookup_ne. Qed.

Lemma bump_lookup_eq (g : gmap string Value) (x : string) :
  x <> "__proto__" ->
  bump g x !! x = Some match read g x with
                       | Some v => plus v (Numeric (Num 1))
                       | None => Numeric NaN
                       end.
Proof.
  intros Hx. unfold bump. rewrite assign_lookup by exact Hx. now rewrite decide_True.
Qed.

(** Nothing is ever stored under [__proto__]. *)
Lemma bump_fold_proto (ids : list string) (g : gmap string Value) :
  fold_left bump ids g !! "__proto__" = g !! "__proto__".
Proof.
  revert g. induction ids as [|k ids IH]; intros g; simpl; [reflexivity|].
  rewrite IH. unfold bump, assign.
  destruct (decide (k = "__proto__")) as [|Hne]; [reflexivity|].
  now apply lookup_insert_ne.
Qed.

(** What [gamesPlayed] holds under [x] after the increments for [ids]:
    a counter counts on, *)
Lemma bump_fold_count (ids : list string) (g : gmap string Value) (x : string) (n : Z) :
  x <> "__proto__" ->
  g !! x = Some (Numeric (Num n)) ->
  fold_left bump ids g !! x = Some (Numeric (Num (n + occ x ids))).
Proof.
  intros Hx. revert g n. induction ids as [|k ids IH]; intros g n Hg; simpl.
  - rewrite occ_nil, Hg. do 3 f_equal. lia.
  - rewrite occ_cons. destruct (decide (k = x)) as [->|Hne].
    + rewrite (IH _ (n + 1)); [do 3 f_equal; lia|].
      rewrite bump_lookup_eq by exact Hx. now rewrite (read_own _ _ _ Hg).
    + rewrite (IH _ n); [do 3 f_equal; lia|].
      now rewrite bump_lookup_ne.
Qed.

(** [NaN] stays, *)
Lemma bump_fold_nan (ids : list string) (g : gmap string Value) (x : string) :
  x <> "__proto__" ->
  g !! x = Some (Numeric NaN) ->
  fold_left bump ids g !! x = Some (Numeric NaN).
Proof.
  intros Hx. revert g. induction ids as [|k ids IH]; intros g Hg; simpl; [exact Hg|].
  apply IH. destruct (decide (k = x)) as [->|Hne].
  - rewrite bump_lookup_eq by exact Hx. now rewrite (read_own _ _ _ Hg).
  - now rewrite bump_lookup_ne.
Qed.

(** a string gets a one appended each time, *)
Lemma bump_fold_text (ids : list string) (g : gmap string Value) (x : string) (k : Z) :
  x <> "__proto__" -> 0 <= k ->
  g !! x = Some (Text [] x (ones k)) ->
  fold_left bump ids g !! x = Some (Text [] x (ones (k + occ x ids))).
Proof.
  intros Hx. revert g k. induction ids as [|i ids IH]; intros g k Hk Hg; simpl.
  - rewrite occ_nil, Hg. do 3 f_equal; lia.
  - rewrite occ_cons. destruct (decide (i = x)) as [->|Hne].
    + rewrite (IH _ (k + 1)); [do 3 f_equal; lia | lia |].
      rewrite bump_lookup_eq by exact Hx. rewrite (read_own _ _ _ Hg).
      simpl plus. now rewrite ones_succ.
    + rewrite (IH _ k); [do 3 f_equal; lia | lia |].
      now rewrite bump_lookup_ne.
Qed.

(** and a name that is not there yet starts as [NaN], or as the text of
    the member of [Object.prototype] it names followed by a one. *)
Lemma bump_fold_absent (ids : list string) (g : gmap string Value) (x : string) :
  x <> "__proto__" ->
  g !! x = None ->
  fold_left bump ids g !! x
  = if decide (x ∈ ids)
    then Some (if decide (x ∈ prototypeNames) then Text [] x (ones (occ x ids))
               else Numeric NaN)
    else None.
Proof.
  intros Hx. revert g. induction ids as [|i ids IH]; intros g Hg; simpl.
  - destruct (decide (x ∈ [])) as [H|_]; [inversion H | exact Hg].
  - destruct (decide (i = x)) as [->|Hne].
    + rewrite decide_True by left.
      destruct (decide (x ∈ prototypeNames)) as [Hin|Hout].
      * rewrite (bump_fold_text ids _ x 1); trivial; [|lia|].
        { rewrite occ_cons, decide_True by reflexivity. reflexivity. }
        rewrite bump_lookup_eq by exact Hx.
        now rewrite (read_inherited _ _ Hg Hin).
      * apply bump_fold_nan; [exact Hx|].
        rewrite bump_lookup_eq by exact Hx.
        now rewrite (read_absent _ _ Hg Hout).
    + rewrite IH by now rewrite bump_lookup_ne.
      rewrite occ_cons, (decide_False (P := i = x)) by exact Hne.
      destruct (decide (x ∈ ids)) as [Hin|Hn], (decide (x ∈ i :: ids)) as [Hin'|Hn'];
        try reflexivity.
      * exfalso. apply Hn'. now right.
      * exfalso. apply elem_of_cons in Hin' as [?|?]; [congruence | contradiction].
Qed.

Lemma initialGames_fold (players : list Player) (g : gmap string Value) (x : string) :
  fold_left (fun g p => assign g (Player.id p) (Numeric (Num 0))) players g !! x
  = if decide (x ∈ map Player.id players /\ x <> "__proto__")
    then Some (Numeric (Num 0)) else g !! x.
Proof.
  revert g. induction players as [|p players IH]; intros g.
  - cbn [fold_left map].
    destruct (decide (x ∈ [] /\ x <> "__proto__")) as [[H _]|_]; [inversion H | reflexivity].
  - cbn [fold_left map]. rewrite IH.
    destruct (decide (x ∈ map Player.id players /\ x <> "__proto__")) as [[Hin Hp]|Hn].
    + rewrite decide_True; [reflexivity|]. split; [now right | exact Hp].
    + destruct (decide (Player.id p = x)) as [E|Hne].
      * destruct (decide (x = "__proto__")) as [Hp|Hp].
        -- rewrite decide_False by tauto. unfold assign.
           rewrite decide_True by congruence. reflexivity.
        -- rewrite decide_True by (split; [rewrite <- E; left | exact Hp]).
           rewrite assign_lookup by congruence. now rewrite decide_True.
      * rewrite assign_lookup_ne by exact Hne.
        rewrite decide_False; [reflexivity|].
        intros [Hin Hp]. apply elem_of_cons in Hin as [?|?]; [congruence | tauto].
Qed.

Lemma initialGames_lookup (players : list Player) (x : string) :
  initialGames players !! x
  = if decide (x ∈ map Player.id players /\ x <> "__proto__")
    then Some (Numeric (Num 0)) else None.
Proof. unfold initialGames. rewrite initialGames_fold, lookup_empty. reflexivity. Qed.

(** The games on record after a well-formed history: for a storable
    identifier of the roster the number of times it occurs in the
    history, *)
Lemma gamesPlayed_lookup (players : list Player) (history : list SavedRound) (x : string) :
  x ∈ map Player.id players -> x <> "__proto__" ->
  gamesPlayed (statsOf players history) !! x
  = Some (Numeric (Num (occ x (historyIds history)))).
Proof.
  intros Hx Hp. unfold statsOf. rewrite applyMatch_games. simpl gamesPlayed.
  rewrite (bump_fold_count _ _ x 0); [reflexivity | exact Hp |].
  rewrite initialGames_lookup. now rewrite decide_True.
Qed.

(** and for another identifier what the increments of an absent entry
    leave. *)
Lemma gamesPlayed_lookup_orphan (players : list Player) (history : list SavedRound)
    (x : string) :
  x ∉ map Player.id players -> x <> "__proto__" ->
  gamesPlayed (statsOf players history) !! x
  = if decide (x ∈ historyIds history)
    then Some (if decide (x ∈ prototypeNames)
               then Text [] x (ones (occ x (historyIds history)))
               else Numeric NaN)
    else None.
Proof.
  intros Hx Hp. unfold statsOf. rewrite applyMatch_games. simpl gamesPlayed.
  apply bump_fold_absent; [exact Hp|].
  rewrite initialGames_lookup. rewrite decide_False; [reflexivity | tauto].
Qed.

Lemma gamesPlayed_lookup_proto (players : list Player) (history : list SavedRound) :
  gamesPlayed (statsOf players history) !! "__proto__" = None.
Proof.
  unfold statsOf. rewrite applyMatch_games. simpl gamesPlayed.
  rewrite bump_fold_proto, initialGames_lookup. rewrite decide_False; [reflexivity | tauto].
Qed.

(** The partnerships and the meetings on record: under a key that is not
    inherited the number of times the key occurs in the history, and no
    number under one that is. *)
Lemma partner_statsOf (players : list Player) (history : list SavedRound) (x y : string) :
  makeKey x y ∉ prototypeNames ->
  partner (statsOf players history) x y
  = Numeric (Num (occ (makeKey x y) (flat_map teamKeys (historyMatches history)))).
Proof.
  intros Hk. unfold partner, statsOf. rewrite applyMatch_partner. simpl partnerCount.
  rewrite (tally_fold_lookup _ _ _ 0); [reflexivity | exact Hk |].
  now rewrite read_absent.
Qed.

Lemma opp_statsOf (players : list Player) (history : list SavedRound) (x y : string) :
  makeKey x y ∉ prototypeNames ->
  opp (statsOf players history) x y
  = Numeric (Num (occ (makeKey x y) (flat_map crossKeys (historyMatches history)))).
Proof.
  intros Hk. unfold opp, statsOf. rewrite applyMatch_opponent. simpl opponentCount.
  rewrite (tally_fold_lookup _ _ _ 0); [reflexivity | exact Hk |].
  now rewrite read_absent.
Qed.

Lemma partnerOf_statsOf (players : list Player) (history : list SavedRound) (x y : string) :
  partnerOf (statsOf players history) x y
  = if decide (makeKey x y ∈ prototypeNames) then 0
    else occ (makeKey x y) (flat_map teamKeys (historyMatches history)).
Proof.
  unfold partnerOf. destruct (decide (makeKey x y ∈ prototypeNames)) as [Hk|Hk].
  - apply foreign_count. unfold partner, statsOf. rewrite applyMatch_partner.
    apply tally_fold_foreign; [exact Hk|]. simpl. intros v. now rewrite lookup_empty.
  - now rewrite partner_statsOf.
Qed.

Lemma oppOf_statsOf (players : list Player) (history : list SavedRound) (x y : string) :
  oppOf (statsOf players history) x y
  = if decide (makeKey x y ∈ prototypeNames) then 0
    else occ (makeKey x y) (flat_map crossKeys (historyMatches history)).
Proof.
  unfold oppOf. destruct (decide (makeKey x y ∈ prototypeNames)) as [Hk|Hk].
  - apply foreign_count. unfold opp, statsOf. rewrite applyMatch_opponent.
    apply tally_fold_foreign; [exact Hk|]. simpl. intros v. now rewrite lookup_empty.
  - now rewrite opp_statsOf.
Qed.

(** ** Games played *)

Lemma historyMatches_withoutOrphanRows (players : list Player) (history : list SavedRound) :
  historyMatches (withoutOrphanRows players history)
  = filter (fun m => Exists (fun x => x ∈ map Player.id players) (slotIds m))
           (historyMatches history).
Proof.
  unfold historyMatches, withoutOrphanRows.
  induction history as [|r history IH]; simpl; [reflexivity|].
  rewrite IH, filter_app. reflexivity.
Qed.

Lemma forallb_filter {A} (ok : A -> bool) (P : A -> Prop) `{forall x, Decision (P x)}
    (l : list A) :
  forallb ok l = true -> forallb ok (filter P l) = true.
Proof.
  induction l as [|x l IH]; simpl; [reflexivity|].
  intros Hl. apply andb_prop in Hl as [Hx Hl]. rewrite filter_cons.
  destruct (decide (P x)); simpl; [rewrite Hx|]; auto.
Qed.

Lemma occ_without_orphans (players : list Player) (ms : list Match) (x : string) :
  x ∈ map Player.id players ->
  occ x (flat_map slotIds
           (filter (fun m => Exists (fun x => x ∈ map Player.id players) (slotIds m)) ms))
  = occ x (flat_map slotIds ms).
Proof.
  intros Hx. induction ms as [|m ms IH]; simpl; [reflexivity|].
  rewrite filter_cons.
  destruct (decide (Exists (fun x => x ∈ map Player.id players) (slotIds m))) as [|Hn];
    simpl; rewrite !occ_app, IH; [reflexivity|].
  rewrite (occ_zero x (slotIds m)); [reflexivity|].
  intros Hin. apply Hn. apply Exists_exists. eauto.
Qed.

Lemma computeStats_returns (players : list Player) (history : list SavedRound)
    (st : Stats) :
  computeStats players history = Return st ->
  wfHistory history = true /\ st = statsOf players history.
Proof.
  intros E. destruct (wfHistory history) eqn:Hwf.
  - rewrite computeStats_wf in E by exact Hwf. injection E as <-. auto.
  - rewrite computeStats_illformed in E by exact Hwf. discriminate E.
Qed.

(** C9, as the code has it: the counters are returned as soon as every
    team of the history has its two players, and whenever they are
    returned, the games-played map holds for every roster identifier
    other than [__proto__] the number of times it occurs in the history.
    An identifier that occurs in the history but not on the roster gets
    an entry too: [NaN], or, when it names a member of
    [Object.prototype], the text of that member followed by a one for
    each occurrence.  Nothing is ever stored under [__proto__], and an
    identifier that occurs nowhere has no entry.  The entries of the
    roster are the same when the matches without any roster player are
    left out of the history. *)
Theorem gamesPlayed_entries (players : list Player) (history : list SavedRound) :
  (wfHistory history = true -> exists st, computeStats players history = Return st) /\
  forall st, computeStats players history = Return st ->
    (forall x, x ∈ map Player.id players -> x <> "__proto__" ->
       gamesPlayed st !! x = Some (Numeric (Num (occ x (historyIds history))))) /\
    (forall x, x ∉ map Player.id players -> x ∈ historyIds history ->
       x ∉ prototypeNames ->
       gamesPlayed st !! x = Some (Numeric NaN)) /\
    (forall x, x ∉ map Player.id players -> x ∈ historyIds history ->
       x ∈ prototypeNames -> x <> "__proto__" ->
       gamesPlayed st !! x = Some (Text [] x (ones (occ x (historyIds history))))) /\
    gamesPlayed st !! "__proto__" = None /\
    (forall x, x ∉ map Player.id players -> x ∉ historyIds history ->
       gamesPlayed st !! x = None) /\
    (exists st',
       computeStats players (withoutOrphanRows players history) = Return st' /\
       forall x, x ∈ map Player.id players ->
         gamesPlayed st' !! x = gamesPlayed st !! x).
Proof.
  split.
  { intros Hwf. eexists. apply computeStats_wf, Hwf. }
  intros st Hst. apply computeStats_returns in Hst as [Hwf ->].
  assert (Hnp : forall x, x ∉ prototypeNames -> x <> "__proto__").
  { intros x Hx ->. apply Hx, proto_inherited. }
  split; [|split; [|split; [|split; [|split]]]].
  - intros x Hx Hp. now apply gamesPlayed_lookup.
  - intros x Hx Hin Hout. rewrite gamesPlayed_lookup_orphan by auto.
    rewrite decide_True by exact Hin. now rewrite decide_False.
  - intros x Hx Hin Hproto Hp. rewrite gamesPlayed_lookup_orphan by auto.
    rewrite decide_True by exact Hin. now rewrite decide_True.
  - apply gamesPlayed_lookup_proto.
  - intros x Hx Hin. destruct (decide (x = "__proto__")) as [->|Hp].
    + apply gamesPlayed_lookup_proto.
    + rewrite gamesPlayed_lookup_orphan by auto. now rewrite decide_False.
  - eexists. split.
    + apply computeStats_wf. unfold wfHistory.
      rewrite historyMatches_withoutOrphanRows. apply forallb_filter, Hwf.
    + intros x Hx. fold (statsOf players (withoutOrphanRows players history)).
      destruct (decide (x = "__proto__")) as [->|Hp].
      * now rewrite !gamesPlayed_lookup_proto.
      * rewrite !gamesPlayed_lookup by assumption.
        unfold historyIds. rewrite historyMatches_withoutOrphanRows.
        now rewrite occ_without_orphans.
Qed.

(** C9 as stated fails: a player of the history who is not on the roster
    does get an entry in the games-played map. *)
Lemma gamesPlayed_orphan_entry :
  ~ (forall players history st,
       computeStats players history = Return st ->
       forall x, is_Some (gamesPlayed st !! x) -> x ∈ map Player.id players).
Proof.
  intros H.
  pose (players := [Player.mk "p1" "Ann"; Player.mk "p2" "Bob"]).
  pose (history :=
    [SavedRound.mk "r1" 0 1
       [Match.mk 1 [Player.mk "p1" "Ann"; Player.mk "p2" "Bob"]
                   [Player.mk "p3" "Cy"; Player.mk "p4" "Di"]] []]).
  assert (Hst := computeStats_wf players history eq_refl).
  specialize (H players history _ Hst "p3").
  assert (Hnot : "p3" ∉ map Player.id players).
  { simpl. intros Hin. apply elem_of_cons in Hin as [E|Hin]; [discriminate E|].
    apply elem_of_cons in Hin as [E|Hin]; [discriminate E | inversion Hin]. }
  apply Hnot, H. fold (statsOf players history).
  rewrite gamesPlayed_lookup_orphan; [|exact Hnot | discriminate].
  rewrite decide_True; [eauto|].
  simpl. do 2 right. left.
Qed.

(** ** Partner coverage *)

Lemma seen_fold (ms : list Match) (seen : gset string) :
  fold_left (fun s m => list_to_set (teamKeys m) ∪ s) ms seen
  = list_to_set (flat_map teamKeys ms) ∪ seen.
Proof.
  revert seen. induction ms as [|m ms IH]; intros seen; simpl.
  - now rewrite (left_id_L ∅ (∪)).
  - rewrite IH, list_to_set_app_L.
    apply set_eq. intros k. rewrite !elem_of_union. tauto.
Qed.

Lemma partnerCoverage_wf (players : list Player) (history : list SavedRound) :
  wfHistory history = true ->
  partnerCoverage players history =
    let n := Z.of_nat (length players) in
    let total := n * (n - 1) / 2 in
    let done := Z.of_nat (size (seenKeys history)) in
    Return (if n <=? 1 then mkCoverage true 100 0 0
            else mkCoverage (total <=? done) (percentOf done total)
                            (Z.max 0 (total - done)) total).
Proof.
  intros Hwf. unfold partnerCoverage. simpl.
  destruct (Z.of_nat (length players) <=? 1); [reflexivity|].
  rewrite forOf_nested.
  rewrite (forOf_pure _ (fun s m => list_to_set (teamKeys m) ∪ s) wfMatch);
    [|intros s x; apply seenOfMatch_wf | exact Hwf].
  simpl. rewrite seen_fold, (right_id_L ∅ (∪)). reflexivity.
Qed.

Lemma partnerCoverage_illformed (players : list Player) (history : list SavedRound) :
  wfHistory history = false -> (2 <= length players)%nat ->
  partnerCoverage players history = Throw.
Proof.
  intros Hwf Hn. unfold partnerCoverage.
  destruct (Z.leb_spec (Z.of_nat (length players)) 1) as [?|_]; [lia|].
  rewrite forOf_nested, (forOf_throws _ wfMatch); [reflexivity | | |exact Hwf].
  - intros s x. apply seenOfMatch_illformed.
  - intros s x Hx. rewrite seenOfMatch_wf by exact Hx. eauto.
Qed.

(** ** Rounding to the nearest double *)

Lemma nearestEven_bounds (x : Q) : Qfloor x <= nearestEven x <= Qfloor x + 1.
Proof.
  unfold nearestEven. destruct (x - inject_Z (Qfloor x) ?= 1 # 2)%Q; [|lia|lia].
  destruct (Z.even (Qfloor x)); lia.
Qed.

Lemma nearestEven_monotone (x y : Q) : (x <= y)%Q -> nearestEven x <= nearestEven y.
Proof.
  intros Hxy. pose proof (Qfloor_resp_le x y Hxy) as Hf.
  pose proof (nearestEven_bounds x) as Hx. pose proof (nearestEven_bounds y) as Hy.
  destruct (Z.eq_dec (Qfloor x) (Qfloor y)) as [E|Hne]; [|lia].
  unfold nearestEven. rewrite <- E.
  destruct (x - inject_Z (Qfloor x) ?= 1 # 2)%Q eqn:Cx;
    destruct (y - inject_Z (Qfloor x) ?= 1 # 2)%Q eqn:Cy;
    try (destruct (Z.even (Qfloor x)); lia); try lia; exfalso.
  - apply Qeq_alt in Cx. rewrite <- Qlt_alt in Cy. lra.
  - rewrite <- Qgt_alt in Cx. apply Qeq_alt in Cy. lra.
  - rewrite <- Qgt_alt in Cx. rewrite <- Qlt_alt in Cy. lra.
Qed.

Lemma nearestEven_integer (n : Z) : nearestEven (inject_Z n) = n.
Proof.
  unfold nearestEven. rewrite Qfloor_Z.
  replace (inject_Z n - inject_Z n ?= 1 # 2)%Q with Lt; [reflexivity|].
  symmetry. rewrite <- Qlt_alt. lra.
Qed.

Lemma Q_as_quotient (q : Q) : (q == inject_Z (Qnum q) / inject_Z (Z.pos (Qden q)))%Q.
Proof. destruct q as [a b]. simpl. apply Qmake_Qdiv. Qed.

Lemma two_power (n : Z) : 0 <= n -> (inject_Z (2 ^ n) == 2 ^ n)%Q.
Proof. intros Hn. now rewrite Zpower_Qpower. Qed.

Lemma two_not_zero : ~ (2 == 0)%Q.
Proof. discriminate. Qed.

Lemma quotient_positive (A B : Q) : (0 < A -> 0 < B -> 0 < A / B)%Q.
Proof. intros HA HB. apply Qlt_shift_div_l; [exact HB | lra]. Qed.

Lemma quotient_below (A B P R : Q) :
  (0 < A -> A < P -> 0 < R -> R <= B -> A / B < P / R)%Q.
Proof.
  intros HA HAP HR HRB.
  assert (HB : (0 < B)%Q) by lra.
  apply Qlt_shift_div_l; [exact HR|].
  apply Qle_lt_trans with A; [|exact HAP].
  assert (E : (A == A / B * B)%Q) by (field; lra).
  rewrite E at 2. apply Qmult_le_l; [now apply quotient_positive | exact HRB].
Qed.

Lemma quotient_above (A B P R : Q) :
  (0 < P -> P <= A -> 0 < B -> B < R -> P / R < A / B)%Q.
Proof.
  intros HP HPA HB HBR.
  assert (HR : (0 < R)%Q) by lra.
  apply Qlt_shift_div_r; [exact HR|].
  apply Qle_lt_trans with A; [exact HPA|].
  assert (E : (A == A / B * B)%Q) by (field; lra).
  rewrite E at 1. apply Qmult_lt_l; [apply quotient_positive; lra | exact HBR].
Qed.

(** The exponent brackets the number. *)
Lemma exponentOf_spec (q : Q) :
  (0 < q)%Q ->
  (2 ^ (exponentOf q + 52) <= q)%Q /\ (q < 2 ^ (exponentOf q + 53))%Q.
Proof.
  intros Hq.
  assert (Ha : 0 < Qnum q) by (destruct q as [a b]; unfold Qlt in Hq; simpl in *; lia).
  pose proof (Z.log2_spec (Qnum q) Ha) as [La Ua].
  pose proof (Z.log2_spec (Z.pos (Qden q)) ltac:(lia)) as [Lb Ub].
  pose proof (Z.log2_nonneg (Qnum q)) as Na.
  pose proof (Z.log2_nonneg (Z.pos (Qden q))) as Nb.
  set (la := Z.log2 (Qnum q)) in *. set (lb := Z.log2 (Z.pos (Qden q))) in *.
  assert (Hpos : forall n, (0 < 2 ^ n)%Q) by (intros n; now apply Qpower_0_lt).
  assert (Hup : (q < 2 ^ (la - lb + 1))%Q).
  { rewrite (Q_as_quotient q) at 1.
    replace (la - lb + 1) with (Z.succ la - lb) by lia.
    rewrite Qpower_minus by exact two_not_zero.
    apply quotient_below.
    - rewrite <- (Zlt_Qlt 0). exact Ha.
    - rewrite <- two_power by lia. now rewrite <- Zlt_Qlt.
    - apply Hpos.
    - rewrite <- two_power by lia. now rewrite <- Zle_Qle. }
  assert (Hlow : (2 ^ (la - lb - 1) < q)%Q).
  { rewrite (Q_as_quotient q).
    replace (la - lb - 1) with (la - Z.succ lb) by lia.
    rewrite Qpower_minus by exact two_not_zero.
    apply quotient_above.
    - apply Hpos.
    - rewrite <- two_power by lia. now rewrite <- Zle_Qle.
    - rewrite <- (Zlt_Qlt 0). lia.
    - rewrite <- two_power by lia. now rewrite <- Zlt_Qlt. }
  unfold exponentOf. fold la lb.
  destruct (Qle_bool (2 ^ (la - lb - 52 + 52)) q) eqn:C.
  - apply Qle_bool_iff in C. split; [exact C|].
    now replace (la - lb - 52 + 53) with (la - lb + 1) by lia.
  - split.
    + replace (la - lb - 52 - 1 + 52) with (la - lb - 1) by lia. now apply Qlt_le_weak.
    + replace (la - lb - 52 - 1 + 53) with (la - lb - 52 + 52) by lia.
      apply Qnot_le_lt. intros H. apply Qle_bool_iff in H. congruence.
Qed.

Lemma exponentOf_monotone (x y : Q) :
  (0 < x)%Q -> (x <= y)%Q -> exponentOf x <= exponentOf y.
Proof.
  intros Hx Hxy.
  destruct (exponentOf_spec x Hx) as [Lx _].
  destruct (exponentOf_spec y ltac:(lra)) as [_ Uy].
  assert (H : (2 ^ (exponentOf x + 52) < 2 ^ (exponentOf y + 53))%Q) by lra.
  apply Qpower_lt_compat_l_inv in H; [lia | reflexivity].
Qed.

(** The significand has 53 binary digits. *)
Lemma significand_bounds (q : Q) :
  (0 < q)%Q ->
  2 ^ 52 <= nearestEven (q / 2 ^ exponentOf q) <= 2 ^ 53.
Proof.
  intros Hq. destruct (exponentOf_spec q Hq) as [L U].
  set (e := exponentOf q) in *.
  assert (Hp : (0 < 2 ^ e)%Q) by now apply Qpower_0_lt.
  rewrite Qpower_plus in L, U by exact two_not_zero.
  assert (L' : (inject_Z (2 ^ 52) <= q / 2 ^ e)%Q).
  { apply Qle_shift_div_l; [exact Hp|]. rewrite two_power by lia.
    now rewrite Qmult_comm. }
  assert (U' : (q / 2 ^ e <= inject_Z (2 ^ 53))%Q).
  { apply Qle_shift_div_r; [exact Hp|]. rewrite two_power by lia.
    rewrite Qmult_comm. now apply Qlt_le_weak. }
  apply nearestEven_monotone in L', U'. rewrite nearestEven_integer in L', U'. lia.
Qed.

Lemma toDoublePositive_positive (q : Q) : (0 < q)%Q -> (0 < toDoublePositive q)%Q.
Proof.
  intros Hq. unfold toDoublePositive. cbv zeta.
  pose proof (significand_bounds q Hq) as [L _].
  apply Qmult_lt_0_compat; [|now apply Qpower_0_lt].
  rewrite <- (Zlt_Qlt 0). lia.
Qed.

Lemma toDoublePositive_monotone (x y : Q) :
  (0 < x)%Q -> (x <= y)%Q -> (toDoublePositive x <= toDoublePositive y)%Q.
Proof.
  intros Hx Hxy. assert (Hy : (0 < y)%Q) by lra.
  pose proof (exponentOf_monotone x y Hx Hxy) as He.
  pose proof (significand_bounds x Hx) as [_ Ux].
  pose proof (significand_bounds y Hy) as [Ly _].
  unfold toDoublePositive. cbv zeta.
  set (ex := exponentOf x) in *. set (ey := exponentOf y) in *.
  assert (Hpx : (0 < 2 ^ ex)%Q) by now apply Qpower_0_lt.
  assert (Hpy : (0 < 2 ^ ey)%Q) by now apply Qpower_0_lt.
  destruct (Z.eq_dec ex ey) as [E|Hne].
  - rewrite <- E. apply Qmult_le_compat_r; [|now apply Qlt_le_weak].
    rewrite <- Zle_Qle. apply nearestEven_monotone.
    apply Qmult_le_compat_r; [exact Hxy|].
    apply Qlt_le_weak, Qinv_lt_0_compat, Hpx.
  - apply Qle_trans with (inject_Z (2 ^ 53) * 2 ^ ex)%Q.
    { apply Qmult_le_compat_r; [|now apply Qlt_le_weak]. now rewrite <- Zle_Qle. }
    apply Qle_trans with (inject_Z (2 ^ 52) * 2 ^ ey)%Q.
    2:{ apply Qmult_le_compat_r; [|now apply Qlt_le_weak]. now rewrite <- Zle_Qle. }
    rewrite !two_power by lia. rewrite <- !Qpower_plus by exact two_not_zero.
    apply Qpower_le_compat_l; [lia | discriminate].
Qed.

Lemma toDouble_zero (q : Q) : (q == 0)%Q -> toDouble q = 0%Q.
Proof. intros H. unfold toDouble. apply Qeq_alt in H. now rewrite H. Qed.

Lemma toDouble_positive (q : Q) : (0 < q)%Q -> toDouble q = toDoublePositive q.
Proof. intros H. unfold toDouble. apply Qgt_alt in H. now rewrite H. Qed.

(** Rounding to the nearest double keeps the order. *)
Lemma toDouble_monotone (x y : Q) :
  (0 <= x)%Q -> (x <= y)%Q -> (0 <= toDouble x <= toDouble y)%Q.
Proof.
  intros Hx Hxy.
  destruct (Qlt_le_dec 0 x) as [Px|Zx].
  - rewrite (toDouble_positive x Px), (toDouble_positive y) by lra. split.
    + apply Qlt_le_weak. now apply toDoublePositive_positive.
    + now apply toDoublePositive_monotone.
  - rewrite (toDouble_zero x) by lra. split; [lra|].
    destruct (Qlt_le_dec 0 y) as [Py|Zy].
    + rewrite (toDouble_positive y Py). apply Qlt_le_weak.
      now apply toDoublePositive_positive.
    + rewrite (toDouble_zero y) by lra. lra.
Qed.

Lemma toDouble_one : (toDouble 1 == 1)%Q.
Proof. vm_compute. reflexivity. Qed.

Lemma toDouble_hundred : (toDouble 100 == 100)%Q.
Proof. vm_compute. reflexivity. Qed.

Lemma mathRound_monotone (x y : Q) : (x <= y)%Q -> mathRound x <= mathRound y.
Proof. intros H. unfold mathRound. apply Qfloor_resp_le. lra. Qed.

(** The percentage grows with the quotient it is made from. *)
Lemma scaled_monotone (x y : Q) :
  (0 <= x)%Q -> (x <= y)%Q ->
  mathRound (toDouble (toDouble x * 100)) <= mathRound (toDouble (toDouble y * 100)).
Proof.
  intros Hx Hxy. apply mathRound_monotone.
  destruct (toDouble_monotone x y Hx Hxy) as [H0 H1].
  apply toDouble_monotone; lra.
Qed.

(** The double matters: 69 pairs of 120 are 57.5 percent exactly, which
    [Math.round] would take to 58, while the double of 69/120 times 100
    lies just below 57.5 and is rounded to 57. *)
Lemma percentOf_rounds_the_double :
  percentOf 69 120 = 57 /\ mathRound (inject_Z 69 / inject_Z 120 * 100) = 58.
Proof. split; vm_compute; reflexivity. Qed.

Lemma quotient_nonneg (d total : Z) : 0 <= d -> 0 < total -> (0 <= inject_Z d / inject_Z total)%Q.
Proof.
  intros Hd Ht. apply Qle_shift_div_l.
  - rewrite <- (Zlt_Qlt 0). exact Ht.
  - rewrite Qmult_0_l. rewrite <- (Zle_Qle 0). exact Hd.
Qed.

Lemma percentOf_monotone (d1 d2 total : Z) :
  0 < total -> 0 <= d1 <= d2 -> percentOf d1 total <= percentOf d2 total.
Proof.
  intros Ht Hd. unfold percentOf.
  assert (mathRound (toDouble (toDouble (inject_Z d1 / inject_Z total) * 100))
          <= mathRound (toDouble (toDouble (inject_Z d2 / inject_Z total) * 100))); [|lia].
  apply scaled_monotone; [apply quotient_nonneg; lia|].
  assert (Hpos : (0 < inject_Z total)%Q).
  { change 0%Q with (inject_Z 0). now rewrite <- Zlt_Qlt. }
  assert (Hle : (inject_Z d1 <= inject_Z d2)%Q) by (rewrite <- Zle_Qle; lia).
  unfold Qdiv. apply Qmult_le_compat_r; [exact Hle|].
  apply Qlt_le_weak, Qinv_lt_0_compat, Hpos.
Qed.

Lemma wfHistory_app (h1 h2 : list SavedRound) :
  wfHistory (h1 ++ h2) = wfHistory h1 && wfHistory h2.
Proof. unfold wfHistory, historyMatches. now rewrite flat_map_app, forallb_app. Qed.

Lemma seenKeys_app (h1 h2 : list SavedRound) :
  seenKeys (h1 ++ h2) = seenKeys h1 ∪ seenKeys h2.
Proof.
  unfold seenKeys, historyMatches. now rewrite !flat_map_app, list_to_set_app_L.
Qed.

Lemma partnerCoverage_returns (players : list Player) (history : list SavedRound)
    (c : Coverage) :
  partnerCoverage players history = Return c ->
  (2 <= length players)%nat -> wfHistory history = true.
Proof.
  intros E Hn. destruct (wfHistory history) eqn:Hwf; [reflexivity|].
  rewrite partnerCoverage_illformed in E by assumption. discriminate E.
Qed.

Lemma partnerCoverage_small (players : list Player) (history : list SavedRound) :
  (length players <= 1)%nat ->
  partnerCoverage players history = Return (mkCoverage true 100 0 0).
Proof.
  intros Hn. unfold partnerCoverage.
  destruct (Z.leb_spec (Z.of_nat (length players)) 1) as [_|]; [reflexivity | lia].
Qed.

(** C5: for every roster and every history H2 with a prefix H1, both
    coverages are returned as soon as every team of H2 has its two
    players, and whenever both are returned, the percentage for H1 is at
    most the percentage for H2. *)
Theorem coverage_percent_monotone (players : list Player) (H1 H2 : list SavedRound) :
  H1 `prefix_of` H2 ->
  (wfHistory H2 = true ->
   exists c1 c2,
     partnerCoverage players H1 = Return c1 /\ partnerCoverage players H2 = Return c2) /\
  forall c1 c2,
    partnerCoverage players H1 = Return c1 ->
    partnerCoverage players H2 = Return c2 ->
    percent c1 <= percent c2.
Proof.
  intros [T ->].
  assert (Hwf1 : wfHistory (H1 ++ T) = true -> wfHistory H1 = true).
  { rewrite wfHistory_app. intros H. now apply andb_prop in H as [H _]. }
  split.
  { intros Hwf. do 2 eexists.
    split; apply partnerCoverage_wf; [apply Hwf1|]; exact Hwf. }
  intros c1 c2 E1 E2.
  destruct (Nat.le_gt_cases (length players) 1) as [Hsmall|Hn].
  { rewrite partnerCoverage_small in E1, E2 by exact Hsmall.
    injection E1 as <-. injection E2 as <-. reflexivity. }
  pose proof (partnerCoverage_returns _ _ _ E2 Hn) as Hwf.
  rewrite partnerCoverage_wf in E1 by (apply Hwf1, Hwf).
  rewrite partnerCoverage_wf in E2 by exact Hwf.
  cbn zeta in E1, E2. injection E1 as <-. injection E2 as <-.
  destruct (Z.leb_spec (Z.of_nat (length players)) 1) as [|_]; [lia|]. simpl.
  apply percentOf_monotone.
  - apply Z.div_str_pos. nia.
  - split; [lia|].
    apply inj_le, subseteq_size. rewrite seenKeys_app. apply union_subseteq_l.
Qed.

Lemma coverage_percent_monotone_witness :
  (wfHistory history26 = true ->
   exists c1 c2,
     partnerCoverage roster26 (take 3 history26) = Return c1 /\
     partnerCoverage roster26 history26 = Return c2) /\
  forall c1 c2,
    partnerCoverage roster26 (take 3 history26) = Return c1 ->
    partnerCoverage roster26 history26 = Return c2 ->
    percent c1 <= percent c2.
Proof.
  apply (coverage_percent_monotone roster26 (take 3 history26) history26).
  apply prefix_take.
Defined.

(** C10: there are a roster and a history, the 26 players and the 27
    rounds of [history26], in which nobody is on two courts of a round
    and 324 of the 325 partnerships have been played, for which the
    coverage reports 100 percent and is not complete. *)
Theorem full_percent_not_complete :
  exists players history c,
    NoDup (map Player.id players) /\
    Forall (fun r => NoDup (flat_map slotIds (SavedRound.matches r))) history /\
    partnerCoverage players history = Return c /\
    percent c = 100 /\ complete c = false.
Proof.
  exists roster26, history26, (mkCoverage false 100 1 325).
  split; [apply (bool_decide_unpack _); vm_compute; exact I|].
  split; [apply (bool_decide_unpack _); vm_compute; exact I|].
  split; [vm_compute; reflexivity | split; reflexivity].
Qed.

(** ** Combinations *)

Lemma choose_length {A} (k : nat) (l g : list A) : g ∈ choose k l -> length g = k.
Proof.
  revert k g. induction l as [|x l IH]; intros [|k] g H; simpl in H.
  - apply list_elem_of_singleton in H. now subst.
  - inversion H.
  - apply list_elem_of_singleton in H. now subst.
  - apply elem_of_app in H as [H|H].
    + apply list_elem_of_fmap in H as (g' & -> & H). simpl. f_equal. eauto.
    + eauto.
Qed.

Lemma choose_sublist {A} (k : nat) (l g : list A) : g ∈ choose k l -> g `sublist_of` l.
Proof.
  revert k g. induction l as [|x l IH]; intros [|k] g H; simpl in H.
  - apply list_elem_of_singleton in H. subst. constructor.
  - inversion H.
  - apply list_elem_of_singleton in H. subst. apply sublist_nil_l.
  - apply elem_of_app in H as [H|H].
    + apply list_elem_of_fmap in H as (g' & -> & H). apply sublist_skip. eauto.
    + apply sublist_cons. eauto.
Qed.

Lemma sublist_choose {A} (l g : list A) : g `sublist_of` l -> g ∈ choose (length g) l.
Proof.
  induction 1 as [|x g l _ IH|x g l _ IH]; simpl.
  - left.
  - apply elem_of_app. left. apply list_elem_of_fmap. eauto.
  - destruct g as [|y g]; simpl in *.
    + destruct l; left.
    + apply elem_of_app. now right.
Qed.

Lemma choose_count {A} (k : nat) (l : list A) :
  length (choose k l) = binomial (length l) k.
Proof.
  revert k. induction l as [|x l IH]; intros [|k]; simpl; try reflexivity.
  rewrite length_app, length_map, !IH. reflexivity.
Qed.

(** The search space of a pool of [n] players: three splits for each of
    the [binomial n 4] combinations, and every split of every four
    players of the pool, taken in pool order, is in it. *)
Lemma candidates_count (pool : list Player) :
  length (candidates pool) = (3 * binomial (length pool) 4)%nat.
Proof.
  unfold candidates. rewrite <- choose_count.
  assert (H : forall g, g ∈ choose 4 pool -> length g = 4%nat)
    by (intros g; apply choose_length).
  induction (choose 4 pool) as [|g gs IH]; [reflexivity|].
  simpl. rewrite length_app, IH by (intros g' Hg'; apply H; now right).
  assert (Hg : length g = 4%nat) by (apply H; left).
  destruct g as [|p [|q [|r [|s [|]]]]]; try discriminate Hg. simpl. lia.
Qed.

Lemma candidates_complete (pool g : list Player) (c : Candidate) :
  g `sublist_of` pool -> length g = 4%nat -> c ∈ splitsOf g -> c ∈ candidates pool.
Proof.
  intros Hsub Hlen Hc. unfold candidates.
  apply list_elem_of_In, in_flat_map. exists g.
  split; apply list_elem_of_In; [|exact Hc].
  rewrite <- Hlen. now apply sublist_choose.
Qed.

(** ** The nested loops enumerate the combinations *)

Lemma fold_left_fmap {A B S} (f : S -> B -> S) (h : A -> B) (l : list A) (s : S) :
  fold_left f (map h l) s = fold_left (fun s x => f s (h x)) l s.
Proof. revert s. induction l as [|x l IH]; intros s; simpl; [reflexivity | apply IH]. Qed.

(** A loop whose body, at [x], does the work of the [k]-combinations of
    the elements after [x], does the work of the [k+1]-combinations. *)
Lemma forTails_choose {A St} (k : nat) (inner : A -> list A -> St -> St)
    (step : St -> list A -> St) :
  (forall x t b, inner x t b = fold_left step (map (cons x) (choose k t)) b) ->
  forall l b, forTails inner l b = fold_left step (choose (S k) l) b.
Proof.
  intros Hinner. induction l as [|x l IH]; intros b; simpl; [reflexivity|].
  now rewrite IH, Hinner, fold_left_app.
Qed.

Lemma searchBest_fold (stats : Stats) (remaining : list Player) :
  searchBest stats remaining = fold_left (considerGroup stats) (choose 4 remaining) None.
Proof.
  unfold searchBest.
  apply (forTails_choose 3 _ (considerGroup stats)). intros p after_i b.
  rewrite fold_left_fmap.
  apply (forTails_choose 2 _ (fun b g => considerGroup stats b (p :: g))).
  intros q after_j b'. rewrite fold_left_fmap.
  apply (forTails_choose 1 _ (fun b g => considerGroup stats b (p :: q :: g))).
  intros r after_k b''. rewrite fold_left_fmap.
  apply (forTails_choose 0 _ (fun b g => considerGroup stats b (p :: q :: r :: g))).
  intros s t b'''. destruct t; reflexivity.
Qed.

(** ** Scores *)

Lemma isCount_countOf (v : Value) : isCount v -> v = Numeric (Num (countOf v)).
Proof. intros [n ->]. reflexivity. Qed.

Lemma gamesOn_gamesOf (stats : Stats) (l : list Player) (p : Player) :
  gamesOn stats l -> p ∈ l ->
  gp stats (Player.id p) = Numeric (Num (gamesOf stats (Player.id p))).
Proof. intros H Hp. apply isCount_countOf, H, Hp. Qed.

Lemma numericOn_gamesOf (stats : Stats) (l : list Player) (p : Player) :
  numericOn stats l -> p ∈ l ->
  gp stats (Player.id p) = Numeric (Num (gamesOf stats (Player.id p))).
Proof. intros [H _]. now apply gamesOn_gamesOf. Qed.

Lemma numericOn_partnerOf (stats : Stats) (l : list Player) (p q : Player) :
  numericOn stats l -> p ∈ l -> q ∈ l ->
  partner stats (Player.id p) (Player.id q)
  = Numeric (Num (partnerOf stats (Player.id p) (Player.id q))).
Proof. intros [_ H] Hp Hq. apply isCount_countOf, (H p q Hp Hq). Qed.

Lemma numericOn_oppOf (stats : Stats) (l : list Player) (p q : Player) :
  numericOn stats l -> p ∈ l -> q ∈ l ->
  opp stats (Player.id p) (Player.id q)
  = Numeric (Num (oppOf stats (Player.id p) (Player.id q))).
Proof. intros [_ H] Hp Hq. apply isCount_countOf, (H p q Hp Hq). Qed.

Lemma numericOn_subseteq (stats : Stats) (l g : list Player) :
  numericOn stats l -> (forall x, x ∈ g -> x ∈ l) -> numericOn stats g.
Proof.
  intros [Hg Hp] Hsub. split.
  - intros p Hin. apply Hg, Hsub, Hin.
  - intros p q Hp' Hq'. apply Hp; now apply Hsub.
Qed.

Lemma matchScore_numeric (stats : Stats) (a b c d : Player) :
  numericOn stats [a; b; c; d] ->
  exists q, matchScore stats a b c d = Num q /\ (q == totalCost stats (a, b, c, d))%Q.
Proof.
  intros H. unfold matchScore, times.
  rewrite (numericOn_gamesOf stats _ a H), (numericOn_gamesOf stats _ b H),
          (numericOn_gamesOf stats _ c H), (numericOn_gamesOf stats _ d H),
          (numericOn_partnerOf stats _ a b H), (numericOn_partnerOf stats _ c d H),
          (numericOn_oppOf stats _ a c H), (numericOn_oppOf stats _ a d H),
          (numericOn_oppOf stats _ b c H), (numericOn_oppOf stats _ b d H)
    by listed.
  simpl. eexists. split; [reflexivity|].
  unfold totalCost. repeat (rewrite inject_Z_plus || rewrite inject_Z_mult).
  change (inject_Z 14) with 14%Q. change (inject_Z 3) with 3%Q. ring.
Qed.

Lemma totalCost_cost4 (stats : Stats) (cand : Candidate) :
  (totalCost stats cand == inject_Z (cost4 stats cand) / 4)%Q.
Proof.
  destruct cand as [[[a b] c] d]. unfold totalCost, cost4.
  unfold Z.sub.
  repeat (rewrite inject_Z_plus || rewrite inject_Z_mult || rewrite inject_Z_opp).
  change (inject_Z 14) with 14%Q. change (inject_Z 3) with 3%Q.
  change (inject_Z 4) with 4%Q. field.
Qed.

Lemma totalCost_le (stats : Stats) (c1 c2 : Candidate) :
  (totalCost stats c1 <= totalCost stats c2)%Q <-> cost4 stats c1 <= cost4 stats c2.
Proof.
  rewrite !totalCost_cost4, Zle_Qle.
  split; intros H; [|apply Qmult_le_compat_r; [exact H | discriminate]].
  apply (Qmult_le_r _ _ (/ 4)); [reflexivity | exact H].
Qed.

Lemma Qle_bool_false (x y : Q) : Qle_bool x y = false -> (y < x)%Q.
Proof.
  intros H. apply Qnot_le_lt. intros Hle. apply Qle_bool_iff in Hle. congruence.
Qed.

(** The head of the three sorted options is the first of least cost. *)
Lemma bestSplitForFour_first_min (stats : Stats) (p q r s : Player) :
  numericOn stats [p; q; r; s] ->
  exists k x,
    firstMinimum (totalCost stats) (splitsOf [p; q; r; s]) k
                 (candOf (bestSplitForFour stats p q r s)) /\
    Split.score (bestSplitForFour stats p q r s) = Num x /\
    (x == totalCost stats (candOf (bestSplitForFour stats p q r s)))%Q.
Proof.
  intros H.
  destruct (matchScore_numeric stats p q r s) as (x1 & E1 & Q1);
    [apply (numericOn_subseteq stats _ _ H); intros x; listed|].
  destruct (matchScore_numeric stats p r q s) as (x2 & E2 & Q2);
    [apply (numericOn_subseteq stats _ _ H); intros x; listed|].
  destruct (matchScore_numeric stats p s q r) as (x3 & E3 & Q3);
    [apply (numericOn_subseteq stats _ _ H); intros x; listed|].
  unfold bestSplitForFour. rewrite E1, E2, E3. simpl.
  destruct (Qle_bool (x2 - x3) 0) eqn:C23; simpl.
  - apply Qle_bool_iff in C23.
    destruct (Qle_bool (x1 - x2) 0) eqn:C12; simpl.
    + apply Qle_bool_iff in C12. exists 0%nat, x1. repeat split; trivial.
      * intros j c' Hj. lookup_cases j Hj; unfold candOf; simpl; lra.
      * intros j c' Hlt. lia.
    + apply Qle_bool_false in C12. exists 1%nat, x2. repeat split; trivial.
      * intros j c' Hj. lookup_cases j Hj; unfold candOf; simpl; lra.
      * intros j c' Hlt Hj. lookup_cases j Hj; try lia; unfold candOf; simpl; lra.
  - apply Qle_bool_false in C23.
    destruct (Qle_bool (x1 - x3) 0) eqn:C13; simpl.
    + apply Qle_bool_iff in C13. exists 0%nat, x1. repeat split; trivial.
      * intros j c' Hj. lookup_cases j Hj; unfold candOf; simpl; lra.
      * intros j c' Hlt. lia.
    + apply Qle_bool_false in C13. exists 2%nat, x3. repeat split; trivial.
      * intros j c' Hj. lookup_cases j Hj; unfold candOf; simpl; lra.
      * intros j c' Hlt Hj. lookup_cases j Hj; try lia; unfold candOf; simpl; lra.
Qed.

(** ** The first minimum over blocks of candidates *)

Lemma firstMinimum_app_new {C} (cost : C -> Q) (L B : list C) (i k : nat) (cb cm : C) :
  firstMinimum cost L i cb -> firstMinimum cost B k cm ->
  (cost cm < cost cb)%Q ->
  firstMinimum cost (L ++ B) (length L + k) cm.
Proof.
  intros (Hi & Hall & Hbefore) (Hk & HallB & HbeforeB) Hlt. repeat split.
  - rewrite lookup_app_r by lia. now replace (length L + k - length L)%nat with k by lia.
  - intros j c' Hj. apply lookup_app_Some in Hj as [Hj|[_ Hj]].
    + specialize (Hall j c' Hj). lra.
    + eauto.
  - intros j c' Hjk Hj. apply lookup_app_Some in Hj as [Hj|[Hge Hj]].
    + specialize (Hall j c' Hj). lra.
    + apply (HbeforeB (j - length L)%nat); [lia | exact Hj].
Qed.

Lemma firstMinimum_app_keep {C} (cost : C -> Q) (L B : list C) (i k : nat) (cb cm : C) :
  firstMinimum cost L i cb -> firstMinimum cost B k cm ->
  (cost cb <= cost cm)%Q ->
  firstMinimum cost (L ++ B) i cb.
Proof.
  intros (Hi & Hall & Hbefore) (Hk & HallB & HbeforeB) Hle. repeat split.
  - apply lookup_app_Some. now left.
  - intros j c' Hj. apply lookup_app_Some in Hj as [Hj|[_ Hj]].
    + eauto.
    + specialize (HallB _ c' Hj). lra.
  - intros j c' Hji Hj. apply lookup_app_Some in Hj as [Hj|[Hge Hj]].
    + eauto.
    + apply lookup_lt_Some in Hi. lia.
Qed.

Lemma searchInvariant_step (stats : Stats) (done : list (list Player))
    (best : option Best.t) (g : list Player) :
  searchInvariant stats done best -> length g = 4%nat -> numericOn stats g ->
  searchInvariant stats (done ++ [g]) (considerGroup stats best g).
Proof.
  intros Hinv Hlen Hnum.
  destruct g as [|p [|q [|r [|s [|]]]]]; try discriminate Hlen. clear Hlen.
  destruct (bestSplitForFour_first_min stats p q r s Hnum) as (k & xm & Hblock & Em & Qm).
  assert (Hcand : candOf (bestSplitForFour stats p q r s) ∈ splitsOf [p; q; r; s]).
  { destruct Hblock as (Hk & _). eapply list_elem_of_lookup_2, Hk. }
  assert (Hflat : flat_map splitsOf (done ++ [[p; q; r; s]])
                  = flat_map splitsOf done ++ splitsOf [p; q; r; s]).
  { rewrite flat_map_app. reflexivity. }
  unfold considerGroup, consider.
  destruct best as [b|]; simpl in Hinv.
  - destruct Hinv as (i & xb & Hb & Eb & Qb & Hgroup & Hsplit).
    rewrite Em, Eb. simpl jsLtQ. destruct (Qle_bool xb xm) eqn:Cmp; simpl negb; cbv iota.
    + apply Qle_bool_iff in Cmp. unfold searchInvariant. rewrite Hflat.
      exists i, xb.
      split; [eapply firstMinimum_app_keep; [exact Hb | exact Hblock | lra]|].
      split; [exact Eb|]. split; [exact Qb|].
      split; [apply elem_of_app; now left | exact Hsplit].
    + apply Qle_bool_false in Cmp. unfold searchInvariant. rewrite Hflat.
      simpl Best.split. simpl Best.score. simpl Best.group.
      exists (length (flat_map splitsOf done) + k)%nat, xm.
      split; [eapply firstMinimum_app_new; [exact Hb | exact Hblock | lra]|].
      split; [reflexivity|]. split; [exact Qm|].
      split; [apply elem_of_app; right; left | exact Hcand].
  - subst done. unfold searchInvariant. rewrite Hflat.
    simpl Best.split. simpl Best.score. simpl Best.group.
    exists k, xm. split; [exact Hblock|].
    split; [exact Em|]. split; [exact Qm|]. split; [left | exact Hcand].
Qed.

Lemma searchInvariant_fold (stats : Stats) (gs done : list (list Player))
    (best : option Best.t) :
  (forall g, g ∈ gs -> length g = 4%nat /\ numericOn stats g) ->
  searchInvariant stats done best ->
  searchInvariant stats (done ++ gs) (fold_left (considerGroup stats) gs best).
Proof.
  revert done best. induction gs as [|g gs IH]; intros done best Hgs Hinv; simpl.
  - now rewrite app_nil_r.
  - replace (done ++ g :: gs) with ((done ++ [g]) ++ gs) by now rewrite <- app_assoc.
    apply IH.
    + intros g' Hg'. apply Hgs. now right.
    + destruct (Hgs g) as [Hlen Hnum]; [left|]. now apply searchInvariant_step.
Qed.

Lemma numericOn_sublist (stats : Stats) (l g : list Player) :
  numericOn stats l -> g `sublist_of` l -> numericOn stats g.
Proof.
  intros H Hsub. apply (numericOn_subseteq stats l g H).
  intros x Hx. eapply sublist_subseteq; eauto.
Qed.

(** What the four nested loops leave in [best]. *)
Lemma searchBest_invariant (stats : Stats) (pool : list Player) :
  numericOn stats pool ->
  searchInvariant stats (choose 4 pool) (searchBest stats pool).
Proof.
  intros Hnum. rewrite searchBest_fold.
  apply (searchInvariant_fold stats (choose 4 pool) [] None); [|reflexivity].
  intros g Hg. split; [eapply choose_length, Hg|].
  eapply numericOn_sublist; [exact Hnum | eapply choose_sublist, Hg].
Qed.

(** ** Sorting *)

Lemma jsInsert_perm {A} (after : A -> A -> bool) (x : A) (l : list A) :
  Permutation (jsInsert after x l) (x :: l).
Proof.
  induction l as [|y l IH]; simpl; [reflexivity|].
  destruct (after x y); [|reflexivity].
  rewrite IH. apply perm_swap.
Qed.

Lemma jsSort_perm {A} (after : A -> A -> bool) (l : list A) :
  Permutation (jsSort after l) l.
Proof.
  induction l as [|x l IH]; simpl; [reflexivity|].
  rewrite jsInsert_perm. now apply perm_skip.
Qed.

(** On players with a number of games on record the comparator of the
    ranking says who has played more, and the ranking is in ascending
    order of games played. *)
Lemma afterByGames_numeric (stats : Stats) (l : list Player) (x y : Player) :
  gamesOn stats l -> x ∈ l -> y ∈ l ->
  afterByGames stats x y
  = (gamesOf stats (Player.id y) <? gamesOf stats (Player.id x)).
Proof.
  intros H Hx Hy. unfold afterByGames.
  rewrite (gamesOn_gamesOf stats l x H Hx), (gamesOn_gamesOf stats l y H Hy).
  simpl. destruct (Z.ltb_spec 0 (gamesOf stats (Player.id x) - gamesOf stats (Player.id y)));
    destruct (Z.ltb_spec (gamesOf stats (Player.id y)) (gamesOf stats (Player.id x)));
    try reflexivity; lia.
Qed.

Lemma jsInsert_ranked (stats : Stats) (x : Player) (l : list Player) :
  gamesOn stats (x :: l) ->
  StronglySorted (fewerGames stats) l ->
  StronglySorted (fewerGames stats) (jsInsert (afterByGames stats) x l).
Proof.
  intros Hnum. induction l as [|y l IH]; intros Hsorted; simpl.
  - repeat constructor.
  - rewrite (afterByGames_numeric stats _ x y Hnum) by (rewrite !elem_of_cons; tauto).
    apply StronglySorted_inv in Hsorted as [Hl Hy].
    destruct (Z.ltb_spec (gamesOf stats (Player.id y)) (gamesOf stats (Player.id x))).
    + constructor.
      * apply IH; [|exact Hl]. intros p Hp. apply Hnum.
        apply elem_of_cons in Hp as [->|Hp]; [left | do 2 right; exact Hp].
      * rewrite jsInsert_perm. constructor; [unfold fewerGames; lia | exact Hy].
    + constructor; [constructor; assumption|].
      constructor; [exact H|].
      eapply Forall_impl; [exact Hy|]. unfold fewerGames. intros z Hz. lia.
Qed.

Lemma jsSort_ranked (stats : Stats) (l : list Player) :
  gamesOn stats l ->
  StronglySorted (fewerGames stats) (jsSort (afterByGames stats) l).
Proof.
  induction l as [|x l IH]; intros Hnum; simpl; [constructor|].
  apply jsInsert_ranked.
  - intros p Hp. apply Hnum. rewrite jsSort_perm in Hp. exact Hp.
  - apply IH. intros p Hp. apply Hnum. now right.
Qed.

(** ** The pool *)

Lemma filter_ext_in {A} (P Q : A -> Prop) `{!forall x, Decision (P x)}
    `{!forall x, Decision (Q x)} (l : list A) :
  (forall x, x ∈ l -> P x <-> Q x) -> filter P l = filter Q l.
Proof.
  induction l as [|x l IH]; intros HPQ; [reflexivity|].
  rewrite !filter_cons, IH by (intros y Hy; apply HPQ; now right).
  assert (Hx : P x <-> Q x) by (apply HPQ; left).
  destruct (decide (P x)) as [HP|HP], (decide (Q x)) as [HQ|HQ]; try reflexivity;
    tauto.
Qed.

Lemma filter_all {A} (P : A -> Prop) `{!forall x, Decision (P x)} (l : list A) :
  (forall x, x ∈ l -> P x) -> filter P l = l.
Proof.
  induction l as [|x l IH]; intros HP; [reflexivity|].
  rewrite filter_cons_True by (apply HP; left).
  f_equal. apply IH. intros y Hy. apply HP. now right.
Qed.

Lemma NoDup_ids_inj (l : list Player) (x y : Player) :
  NoDup (map Player.id l) -> x ∈ l -> y ∈ l -> Player.id x = Player.id y -> x = y.
Proof.
  induction l as [|z l IH]; intros Hnd Hx Hy E; [inversion Hx|].
  simpl in Hnd. apply NoDup_cons in Hnd as [Hz Hnd].
  apply elem_of_cons in Hx as [->|Hx]; apply elem_of_cons in Hy as [->|Hy];
    try reflexivity; try (now apply IH).
  - exfalso. apply Hz. rewrite E. apply list_elem_of_fmap. eauto.
  - exfalso. apply Hz. rewrite <- E. apply list_elem_of_fmap. eauto.
Qed.

Lemma NoDup_ids_sublist (l g : list Player) :
  NoDup (map Player.id l) -> g `sublist_of` l -> NoDup (map Player.id g).
Proof.
  intros Hnd Hsub. apply (fmap_sublist Player.id) in Hsub.
  eapply sublist_NoDup; eauto.
Qed.

(** In a pool of distinct identifiers the chosen identifiers single out
    the chosen players. *)
Lemma chosen_in_pool (pool g : list Player) (x : Player) :
  NoDup (map Player.id pool) -> g ⊆ pool -> x ∈ pool ->
  Player.id x ∈ (list_to_set (map Player.id g) : gset string) <-> x ∈ g.
Proof.
  intros Hnd Hsub Hx. rewrite elem_of_list_to_set, list_elem_of_fmap. split.
  - intros (y & E & Hy). now rewrite (NoDup_ids_inj pool x y Hnd Hx (Hsub y Hy) E).
  - intros Hg. eauto.
Qed.

Lemma removeChosen_spec (pool g : list Player) :
  NoDup (map Player.id pool) -> g ⊆ pool ->
  removeChosen (list_to_set (map Player.id g)) pool = filter (fun x => x ∉ g) pool.
Proof.
  intros Hnd Hsub. unfold removeChosen. apply filter_ext_in.
  intros x Hx. now rewrite (chosen_in_pool pool g x Hnd Hsub Hx).
Qed.

Lemma filter_sublist_keep (pool g : list Player) :
  NoDup pool -> g `sublist_of` pool -> filter (fun x => x ∈ g) pool = g.
Proof.
  intros Hnd Hsub. induction Hsub as [|x g l Hsub IH|x g l Hsub IH].
  - reflexivity.
  - apply NoDup_cons in Hnd as [Hx Hnd].
    rewrite filter_cons_True by left. f_equal.
    transitivity (filter (fun y => y ∈ g) l); [|now apply IH].
    apply filter_ext_in. intros y Hy.
    rewrite elem_of_cons. split; [intros [->|?]; [contradiction | assumption] | auto].
  - apply NoDup_cons in Hnd as [Hx Hnd].
    rewrite filter_cons_False; [now apply IH|].
    intros Hg. apply Hx. eapply sublist_subseteq; eauto.
Qed.

Lemma NoDup_ids_NoDup (l : list Player) : NoDup (map Player.id l) -> NoDup l.
Proof. apply NoDup_fmap_1. Qed.

Lemma pool_split (pool g : list Player) :
  NoDup (map Player.id pool) -> g `sublist_of` pool ->
  Permutation (g ++ removeChosen (list_to_set (map Player.id g)) pool) pool.
Proof.
  intros Hnd Hsub.
  rewrite removeChosen_spec by (trivial; now apply sublist_subseteq).
  rewrite <- (filter_sublist_keep pool g) at 1 by (trivial; now apply NoDup_ids_NoDup).
  apply filter_app_complement.
Qed.

Lemma removeChosen_sublist (chosen : gset string) (pool : list Player) :
  removeChosen chosen pool `sublist_of` pool.
Proof. apply sublist_filter. Qed.

(** ** One court *)

Lemma choose_nonempty {A} (l : list A) : (4 <= length l)%nat -> choose 4 l <> [].
Proof.
  intros Hlen Hnil.
  assert (Hin : take 4 l ∈ choose 4 l).
  { replace 4%nat with (length (take 4 l)) at 2 by (rewrite length_take; lia).
    apply sublist_choose, sublist_take. }
  rewrite Hnil in Hin. inversion Hin.
Qed.

Lemma splitsOf_perm (g : list Player) (a b c d : Player) :
  (a, b, c, d) ∈ splitsOf g -> Permutation [a; b; c; d] g.
Proof.
  destruct g as [|p [|q [|r [|s [|]]]]]; simpl; try (intros H; now inversion H).
  rewrite !elem_of_cons, elem_of_nil.
  intros [E|[E|[E|[]]]]; injection E as -> -> -> ->.
  - reflexivity.
  - apply perm_skip, perm_swap.
  - apply perm_skip. apply (Permutation_cons_append [q; r] s).
Qed.

(** Whatever the scores are, the head of the three sorted options is
    one of the three splits, *)
Lemma bestSplitForFour_split (stats : Stats) (p q r s : Player) :
  candOf (bestSplitForFour stats p q r s) ∈ splitsOf [p; q; r; s].
Proof.
  unfold bestSplitForFour.
  set (o1 := Split.mk p q r s _). set (o2 := Split.mk p r q s _).
  set (o3 := Split.mk p s q r _). set (after := fun x y => _).
  pose proof (jsSort_perm after [o1; o2; o3]) as Hperm.
  destruct (jsSort after [o1; o2; o3]) as [|o rest].
  - simpl. left.
  - assert (Hin : o ∈ [o1; o2; o3]) by (rewrite <- Hperm; left).
    revert Hin. rewrite !elem_of_cons, elem_of_nil.
    intros [->|[->|[->|[]]]]; simpl; listed.
Qed.

(** and the search keeps a split of one of the combinations it has
    looked at. *)
Lemma searchFound_step (stats : Stats) (done : list (list Player))
    (best : option Best.t) (g : list Player) :
  searchFound done best -> length g = 4%nat ->
  searchFound (done ++ [g]) (considerGroup stats best g).
Proof.
  intros Hinv Hlen.
  destruct g as [|p [|q [|r [|s [|]]]]]; try discriminate Hlen. clear Hlen.
  pose proof (bestSplitForFour_split stats p q r s) as Hcand.
  unfold considerGroup, consider.
  destruct best as [b|]; simpl in Hinv.
  - destruct Hinv as [Hgroup Hsplit].
    destruct (jsLtQ _ _); simpl.
    + split; [apply elem_of_app; right; left | exact Hcand].
    + split; [apply elem_of_app; now left | exact Hsplit].
  - simpl. split; [apply elem_of_app; right; left | exact Hcand].
Qed.

Lemma searchFound_fold (stats : Stats) (gs done : list (list Player))
    (best : option Best.t) :
  (forall g, g ∈ gs -> length g = 4%nat) ->
  searchFound done best ->
  searchFound (done ++ gs) (fold_left (considerGroup stats) gs best).
Proof.
  revert done best. induction gs as [|g gs IH]; intros done best Hgs Hinv; simpl.
  - now rewrite app_nil_r.
  - replace (done ++ g :: gs) with ((done ++ [g]) ++ gs) by now rewrite <- app_assoc.
    apply IH.
    + intros g' Hg'. apply Hgs. now right.
    + apply searchFound_step; [exact Hinv | apply Hgs; left].
Qed.

(** A pool of four players or more always yields a match. *)
Lemma searchBest_found (stats : Stats) (pool : list Player) :
  (4 <= length pool)%nat ->
  exists best,
    searchBest stats pool = Some best /\
    Best.group best `sublist_of` pool /\ length (Best.group best) = 4%nat /\
    Permutation [Split.a (Best.split best); Split.b (Best.split best);
                 Split.c (Best.split best); Split.d (Best.split best)]
                (Best.group best).
Proof.
  intros Hlen.
  assert (Hinv : searchFound (choose 4 pool) (searchBest stats pool)).
  { rewrite searchBest_fold.
    apply (searchFound_fold stats (choose 4 pool) [] None); [|reflexivity].
    intros g Hg. eapply choose_length, Hg. }
  destruct (searchBest stats pool) as [best|]; simpl in Hinv.
  - destruct Hinv as [Hgroup Hsplit]. exists best. split; [reflexivity|].
    split; [eapply choose_sublist, Hgroup|]. split; [eapply choose_length, Hgroup|].
    apply splitsOf_perm, Hsplit.
  - exfalso. now apply (choose_nonempty pool Hlen).
Qed.

(** What a court gets when the pool has four players or more. *)
Lemma searchBest_some (stats : Stats) (pool : list Player) :
  numericOn stats pool -> (4 <= length pool)%nat ->
  exists best i,
    searchBest stats pool = Some best /\
    firstMinimum (totalCost stats) (candidates pool) i (candOf (Best.split best)) /\
    Best.group best `sublist_of` pool /\ length (Best.group best) = 4%nat /\
    Permutation [Split.a (Best.split best); Split.b (Best.split best);
                 Split.c (Best.split best); Split.d (Best.split best)]
                (Best.group best).
Proof.
  intros Hnum Hlen. pose proof (searchBest_invariant stats pool Hnum) as Hinv.
  destruct (searchBest stats pool) as [best|]; simpl in Hinv.
  - destruct Hinv as (i & x & Hmin & _ & _ & Hgroup & Hsplit).
    exists best, i. split; [reflexivity|]. split; [exact Hmin|].
    split; [eapply choose_sublist, Hgroup|]. split; [eapply choose_length, Hgroup|].
    apply splitsOf_perm, Hsplit.
  - exfalso. now apply (choose_nonempty pool Hlen).
Qed.

(** ** The loop over the courts *)

Lemma courtLoop_step (stats : Stats) (todo : nat) (court : Z) (pool : list Player) :
  numericOn stats pool -> (4 <= length pool)%nat ->
  exists best i,
    firstMinimum (totalCost stats) (candidates pool) i (candOf (Best.split best)) /\
    Best.group best `sublist_of` pool /\ length (Best.group best) = 4%nat /\
    Permutation (matchPlayers (matchOfSplit court (Best.split best))) (Best.group best) /\
    courtLoop stats (S todo) court pool
    = (pool, matchOfSplit court (Best.split best))
        :: courtLoop stats todo (court + 1)
             (removeChosen (list_to_set (map Player.id (Best.group best))) pool).
Proof.
  intros Hnum Hlen.
  destruct (searchBest_some stats pool Hnum Hlen) as (best & i & E & Hmin & Hsub & Hg & Hperm).
  exists best, i. repeat (split; [assumption|]). simpl.
  destruct (Nat.ltb_spec (length pool) 4) as [|_]; [lia|]. now rewrite E.
Qed.

Lemma courtLoop_short (stats : Stats) (todo : nat) (court : Z) (pool : list Player) :
  (length pool < 4)%nat -> courtLoop stats todo court pool = [].
Proof.
  intros Hlen. destruct todo; simpl; [reflexivity|].
  destruct (Nat.ltb_spec (length pool) 4) as [_|]; [reflexivity | lia].
Qed.

Lemma numericOn_removeChosen (stats : Stats) (chosen : gset string) (pool : list Player) :
  numericOn stats pool -> numericOn stats (removeChosen chosen pool).
Proof. intros H. eapply numericOn_sublist; [exact H | apply removeChosen_sublist]. Qed.

Lemma NoDup_ids_removeChosen (chosen : gset string) (pool : list Player) :
  NoDup (map Player.id pool) -> NoDup (map Player.id (removeChosen chosen pool)).
Proof. intros H. eapply NoDup_ids_sublist; [exact H | apply removeChosen_sublist]. Qed.

Lemma courtLoop_step_any (stats : Stats) (todo : nat) (court : Z) (pool : list Player) :
  (4 <= length pool)%nat ->
  exists best,
    Best.group best `sublist_of` pool /\ length (Best.group best) = 4%nat /\
    Permutation (matchPlayers (matchOfSplit court (Best.split best))) (Best.group best) /\
    courtLoop stats (S todo) court pool
    = (pool, matchOfSplit court (Best.split best))
        :: courtLoop stats todo (court + 1)
             (removeChosen (list_to_set (map Player.id (Best.group best))) pool).
Proof.
  intros Hlen.
  destruct (searchBest_found stats pool Hlen) as (best & E & Hsub & Hg & Hperm).
  exists best. repeat (split; [assumption|]). simpl.
  destruct (Nat.ltb_spec (length pool) 4) as [|_]; [lia|]. now rewrite E.
Qed.

(** With four players per court to go the loop fills every court, and
    the players of its matches are those of the pool, whatever the
    scores are. *)
Lemma courtLoop_partition (stats : Stats) (todo : nat) (court : Z) (pool : list Player) :
  NoDup (map Player.id pool) ->
  length pool = (4 * todo)%nat ->
  let ms := map snd (courtLoop stats todo court pool) in
  length ms = todo /\
  map Match.court ms = seqZ court (Z.of_nat todo) /\
  Forall twoPerTeam ms /\
  Permutation (flat_map matchPlayers ms) pool.
Proof.
  revert court pool. induction todo as [|todo IH]; intros court pool Hnd Hlen.
  - destruct pool; [|discriminate Hlen]. simpl. repeat split; constructor.
  - destruct (courtLoop_step_any stats todo court pool) as
      (best & Hsub & Hg & Hperm & ->); [lia|].
    set (pool' := removeChosen _ pool).
    pose proof (pool_split pool (Best.group best) Hnd Hsub) as Hsplit. fold pool' in Hsplit.
    assert (Hlen' : length pool' = (4 * todo)%nat).
    { apply Permutation_length in Hsplit. rewrite length_app in Hsplit. lia. }
    destruct (IH (court + 1) pool') as (IH1 & IH2 & IH3 & IH4); trivial.
    { now apply NoDup_ids_removeChosen. }
    cbn zeta in *. cbn [map snd flat_map length]. repeat split.
    + now rewrite IH1.
    + rewrite IH2, (seqZ_cons court) by lia. simpl Match.court.
      do 2 f_equal; lia.
    + constructor; [split; reflexivity | exact IH3].
    + rewrite IH4, Hperm. exact Hsplit.
Qed.

(** Each court is searched on the players of the pool that are in none
    of the matches pushed before, and gets the first candidate of least
    cost. *)
Lemma courtLoop_trace (stats : Stats) (todo : nat) (court : Z) (pool : list Player)
    (k : nat) (pool_k : list Player) (m : Match) :
  NoDup (map Player.id pool) -> numericOn stats pool ->
  courtLoop stats todo court pool !! k = Some (pool_k, m) ->
  pool_k = filter (fun x => x ∉ flat_map matchPlayers
                                  (take k (map snd (courtLoop stats todo court pool))))
                  pool /\
  exists i cand,
    firstMinimum (totalCost stats) (candidates pool_k) i cand /\ emits m cand.
Proof.
  revert court pool k. induction todo as [|todo IH]; intros court pool k Hnd Hnum Hk.
  - discriminate Hk.
  - destruct (Nat.lt_ge_cases (length pool) 4) as [Hshort|Hlen].
    { rewrite courtLoop_short in Hk by exact Hshort. discriminate Hk. }
    destruct (courtLoop_step stats todo court pool Hnum Hlen) as
      (best & i & Hmin & Hsub & Hg & Hperm & E).
    rewrite E in Hk |- *. clear E. destruct k as [|k].
    + injection Hk as <- <-. split.
      * symmetry. apply filter_all. intros x _ Hx. inversion Hx.
      * exists i, (candOf (Best.split best)). split; [exact Hmin|].
        split; reflexivity.
    + cbn [lookup list_lookup] in Hk. 
      set (pool' := removeChosen _ pool) in *.
      destruct (IH (court + 1) pool' k) as (Hpool & Hfirst); trivial.
      { now apply NoDup_ids_removeChosen. }
      { now apply numericOn_removeChosen. }
      split; [|exact Hfirst].
      rewrite Hpool. unfold pool'.
      rewrite removeChosen_spec by (trivial; now apply sublist_subseteq).
      rewrite list_filter_filter. apply filter_ext_in. intros x Hx.
      cbn [map snd take flat_map]. rewrite elem_of_app.
      assert (Hin : x ∈ matchPlayers (matchOfSplit court (Best.split best))
                    <-> x ∈ Best.group best) by now rewrite Hperm.
      tauto.
Qed.

(** ** The round *)

Lemma computeStats_statsOf (players : list Player) (history : list SavedRound) :
  wfHistory history = true -> computeStats players history = Return (statsOf players history).
Proof. apply computeStats_wf. Qed.

Lemma gp_roster (players : list Player) (history : list SavedRound) (x : string) :
  x ∈ map Player.id players -> x <> "__proto__" ->
  gp (statsOf players history) x = Numeric (Num (occ x (historyIds history))).
Proof.
  intros Hx Hp. unfold gp.
  now rewrite (read_own _ _ _ (gamesPlayed_lookup players history x Hx Hp)).
Qed.

Lemma storable_elem (ids : list string) (x : string) :
  storable ids -> x ∈ ids -> x <> "__proto__".
Proof. unfold storable. intros H Hx ->. contradiction. Qed.

Lemma roster_games (players : list Player) (history : list SavedRound) :
  storable (map Player.id players) -> gamesOn (statsOf players history) players.
Proof.
  intros Hst p Hp. eexists. apply gp_roster.
  - apply list_elem_of_fmap. eauto.
  - eapply storable_elem; [exact Hst|]. apply list_elem_of_fmap. eauto.
Qed.

Lemma roster_numeric (players : list Player) (history : list SavedRound) :
  ownNames (map Player.id players) -> numericOn (statsOf players history) players.
Proof.
  intros [Hst Hkeys]. split; [now apply roster_games|].
  intros p q Hp Hq.
  assert (Hk : makeKey (Player.id p) (Player.id q) ∉ prototypeNames).
  { apply Hkeys; apply list_elem_of_fmap; eauto. }
  split; eexists; [now apply partner_statsOf | now apply opp_statsOf].
Qed.

Lemma gamesOn_perm (stats : Stats) (l l' : list Player) :
  gamesOn stats l -> Permutation l' l -> gamesOn stats l'.
Proof. intros H Hperm p Hp. apply H. now rewrite <- Hperm. Qed.

Lemma numericOn_perm (stats : Stats) (l l' : list Player) :
  numericOn stats l -> Permutation l' l -> numericOn stats l'.
Proof.
  intros H Hperm. apply (numericOn_subseteq stats l l' H).
  intros x Hx. now rewrite <- Hperm.
Qed.

Lemma usedCourts_bounds (players : list Player) (courtsWanted : Z) :
  0 <= usedCourts players courtsWanted /\
  usedCourts players courtsWanted * 4 <= Z.of_nat (length players).
Proof.
  unfold usedCourts.
  pose proof (Z.mul_div_le (Z.of_nat (length players)) 4 ltac:(lia)).
  assert (0 <= Z.of_nat (length players) / 4) by (apply Z.div_pos; lia).
  lia.
Qed.

Lemma generateFairRound_wf (shuffle : list Player -> list Player)
    (players : list Player) (courtsWanted : Z) (history : list SavedRound) :
  wfHistory history = true ->
  generateFairRound shuffle players courtsWanted history =
    let stats := statsOf players history in
    let courts := usedCourts players courtsWanted in
    Return (Generated.mk
              (map snd (courtLoop stats (Z.to_nat courts) 1
                                  (activeOf stats (shuffle players) (courts * 4))))
              (benchOf stats (shuffle players) (courts * 4))).
Proof.
  intros Hwf. unfold generateFairRound. now rewrite computeStats_statsOf.
Qed.

Lemma generateFairRound_illformed (shuffle : list Player -> list Player)
    (players : list Player) (courtsWanted : Z) (history : list SavedRound) :
  wfHistory history = false ->
  generateFairRound shuffle players courtsWanted history = Throw.
Proof.
  intros Hwf. unfold generateFairRound. now rewrite computeStats_illformed.
Qed.

Section Ranked.
Variable shuffle : list Player -> list Player.
Hypothesis shuffle_perm : forall l, Permutation l (shuffle l).
Variables (players : list Player) (courtsWanted : Z) (history : list SavedRound).

Lemma byGames_perm :
  Permutation (byGames (statsOf players history) (shuffle players)) players.
Proof. unfold byGames. now rewrite jsSort_perm, <- shuffle_perm. Qed.

Lemma active_bench_perm (slots : Z) :
  Permutation (activeOf (statsOf players history) (shuffle players) slots
               ++ benchOf (statsOf players history) (shuffle players) slots)
              players.
Proof. unfold activeOf, benchOf. rewrite take_drop. apply byGames_perm. Qed.

Lemma active_sublist (slots : Z) :
  activeOf (statsOf players history) (shuffle players) slots
  `sublist_of` byGames (statsOf players history) (shuffle players).
Proof. apply sublist_take. Qed.

Lemma active_numeric (slots : Z) :
  ownNames (map Player.id players) ->
  numericOn (statsOf players history)
            (activeOf (statsOf players history) (shuffle players) slots).
Proof.
  intros Hown. eapply numericOn_sublist; [|apply active_sublist].
  eapply numericOn_perm; [now apply roster_numeric | apply byGames_perm].
Qed.

Lemma active_NoDup (slots : Z) :
  NoDup (map Player.id players) ->
  NoDup (map Player.id (activeOf (statsOf players history) (shuffle players) slots)).
Proof.
  intros Hnd. eapply NoDup_ids_sublist; [|apply active_sublist].
  now rewrite byGames_perm.
Qed.

Lemma active_length :
  length (activeOf (statsOf players history) (shuffle players)
                   (usedCourts players courtsWanted * 4))
  = (4 * Z.to_nat (usedCourts players courtsWanted))%nat.
Proof.
  unfold activeOf.
  destruct (usedCourts_bounds players courtsWanted) as [H0 H4].
  rewrite length_take_le; [lia|].
  rewrite (Permutation_length byGames_perm). lia.
Qed.

End Ranked.

Lemma generateFairRound_returns (shuffle : list Player -> list Player)
    (players : list Player) (courtsWanted : Z) (history : list SavedRound)
    (r : Generated.t) :
  generateFairRound shuffle players courtsWanted history = Return r ->
  wfHistory history = true.
Proof.
  intros E. destruct (wfHistory history) eqn:Hwf; [reflexivity|].
  rewrite generateFairRound_illformed in E by exact Hwf. discriminate E.
Qed.

(** C1, as the code has it: for a roster of distinct identifiers, none
    of them [__proto__] and no two of them with a key that names a
    member of [Object.prototype], and any history, a round is returned
    as soon as every team of the history has its two players, and in
    every round that is returned, each of the usable courts gets a
    match, and every court is searched on the active players that are in
    none of the matches of the courts before it and gets the candidate
    that is first, in the order combinations then splits, among those of
    least total cost. *)
Theorem fair_round_minimises_cost (shuffle : list Player -> list Player)
    (players : list Player) (courtsWanted : Z) (history : list SavedRound) :
  (forall l, Permutation l (shuffle l)) ->
  NoDup (map Player.id players) ->
  ownNames (map Player.id players) ->
  (wfHistory history = true ->
   exists r, generateFairRound shuffle players courtsWanted history = Return r) /\
  forall r, generateFairRound shuffle players courtsWanted history = Return r ->
    exists stats,
      computeStats players history = Return stats /\
      let courts := usedCourts players courtsWanted in
      let active := activeOf stats (shuffle players) (courts * 4) in
      let trace := courtLoop stats (Z.to_nat courts) 1 active in
      Generated.matches r = map snd trace /\
      Z.of_nat (length trace) = courts /\
      forall k pool m, trace !! k = Some (pool, m) ->
        pool = filter (fun x => x ∉ flat_map matchPlayers (take k (Generated.matches r)))
                      active /\
        exists i cand,
          firstMinimum (totalCost stats) (candidates pool) i cand /\ emits m cand.
Proof.
  intros Hshuffle Hnd Hown. split.
  { intros Hwf. eexists. now apply generateFairRound_wf. }
  intros r Hr. pose proof (generateFairRound_returns _ _ _ _ _ Hr) as Hwf.
  rewrite generateFairRound_wf in Hr by exact Hwf. injection Hr as <-.
  exists (statsOf players history).
  split; [now apply computeStats_statsOf|].
  cbn zeta. split; [reflexivity|]. cbn [Generated.matches].
  pose proof (active_NoDup shuffle Hshuffle players history
                (usedCourts players courtsWanted * 4) Hnd) as Hnda.
  split.
  { destruct (courtLoop_partition (statsOf players history)
                (Z.to_nat (usedCourts players courtsWanted)) 1 _ Hnda)
      as (Hlen & _); [now apply active_length|].
    cbn zeta in Hlen. rewrite length_map in Hlen. rewrite Hlen.
    destruct (usedCourts_bounds players courtsWanted) as [H0 _]. lia. }
  intros k pool m Hk. eapply courtLoop_trace; [| |exact Hk].
  - exact Hnda.
  - now apply active_numeric.
Qed.

(** C2, as the code has it: for a roster of distinct identifiers, none
    of them [__proto__], and any history, a round is returned as soon as
    every team of the history has its two players, and in every round
    that is returned the matches carry the court numbers 1, 2, ... in
    order, there is one per usable court, each has two players per team,
    no identifier occurs twice among the players of the matches, and
    these players are the active players, the first usedCourts * 4 of
    the ranking; the others are the bench, and the ranking, active
    players then bench, is a permutation of the roster in ascending
    order of games played. *)
Theorem fair_round_partitions_active (shuffle : list Player -> list Player)
    (players : list Player) (courtsWanted : Z) (history : list SavedRound) :
  (forall l, Permutation l (shuffle l)) ->
  NoDup (map Player.id players) ->
  storable (map Player.id players) ->
  (wfHistory history = true ->
   exists r, generateFairRound shuffle players courtsWanted history = Return r) /\
  forall r, generateFairRound shuffle players courtsWanted history = Return r ->
    exists stats,
      computeStats players history = Return stats /\
      let courts := usedCourts players courtsWanted in
      let active := activeOf stats (shuffle players) (courts * 4) in
      let ms := Generated.matches r in
      map Match.court ms = seqZ 1 (Z.of_nat (length ms)) /\
      Z.of_nat (length ms) = courts /\
      Forall twoPerTeam ms /\
      NoDup (map Player.id (flat_map matchPlayers ms)) /\
      Permutation (flat_map matchPlayers ms) active /\
      Permutation (active ++ Generated.bench r) players /\
      StronglySorted (fewerGames stats) (active ++ Generated.bench r).
Proof.
  intros Hshuffle Hnd Hst. split.
  { intros Hwf. eexists. now apply generateFairRound_wf. }
  intros r Hr. pose proof (generateFairRound_returns _ _ _ _ _ Hr) as Hwf.
  rewrite generateFairRound_wf in Hr by exact Hwf. injection Hr as <-.
  exists (statsOf players history).
  split; [now apply computeStats_statsOf|].
  cbn zeta. cbn [Generated.matches Generated.bench].
  pose proof (active_NoDup shuffle Hshuffle players history
                (usedCourts players courtsWanted * 4) Hnd) as Hnda.
  destruct (courtLoop_partition (statsOf players history)
              (Z.to_nat (usedCourts players courtsWanted)) 1 _ Hnda)
    as (Hlen & Hcourts & Hteams & Hperm).
  { now apply active_length. }
  cbn zeta in *.
  destruct (usedCourts_bounds players courtsWanted) as [H0 _].
  rewrite Hlen.
  split; [exact Hcourts|]. split; [lia|]. split; [exact Hteams|].
  split; [now rewrite Hperm|]. split; [exact Hperm|].
  split; [now apply active_bench_perm|].
  unfold activeOf, benchOf. rewrite take_drop. unfold byGames.
  apply jsSort_ranked. eapply gamesOn_perm; [now apply roster_games|].
  symmetry. apply Hshuffle.
Qed.

Lemma sameOrder_perm (l : list Player) : Permutation l (sameOrder l).
Proof. reflexivity. Qed.

Lemma roster8_plain : plainIds (map Player.id roster8).
Proof. repeat constructor. Qed.

Lemma fair_round_minimises_cost_witness :
  (wfHistory [firstRound] = true ->
   exists r, generateFairRound sameOrder roster8 2 [firstRound] = Return r) /\
  forall r, generateFairRound sameOrder roster8 2 [firstRound] = Return r ->
    exists stats,
      computeStats roster8 [firstRound] = Return stats /\
      let courts := usedCourts roster8 2 in
      let active := activeOf stats (sameOrder roster8) (courts * 4) in
      let trace := courtLoop stats (Z.to_nat courts) 1 active in
      Generated.matches r = map snd trace /\
      Z.of_nat (length trace) = courts /\
      forall k pool m, trace !! k = Some (pool, m) ->
        pool = filter (fun x => x ∉ flat_map matchPlayers (take k (Generated.matches r)))
                      active /\
        exists i cand,
          firstMinimum (totalCost stats) (candidates pool) i cand /\ emits m cand.
Proof.
  apply (fair_round_minimises_cost sameOrder roster8 2 [firstRound] sameOrder_perm).
  - apply (bool_decide_unpack _). vm_compute. exact I.
  - apply plainIds_ownNames, roster8_plain.
Defined.

Lemma fair_round_partitions_active_witness :
  (wfHistory [firstRound] = true ->
   exists r, generateFairRound sameOrder roster8 2 [firstRound] = Return r) /\
  forall r, generateFairRound sameOrder roster8 2 [firstRound] = Return r ->
    exists stats,
      computeStats roster8 [firstRound] = Return stats /\
      let courts := usedCourts roster8 2 in
      let active := activeOf stats (sameOrder roster8) (courts * 4) in
      let ms := Generated.matches r in
      map Match.court ms = seqZ 1 (Z.of_nat (length ms)) /\
      Z.of_nat (length ms) = courts /\
      Forall twoPerTeam ms /\
      NoDup (map Player.id (flat_map matchPlayers ms)) /\
      Permutation (flat_map matchPlayers ms) active /\
      Permutation (active ++ Generated.bench r) roster8 /\
      StronglySorted (fewerGames stats) (active ++ Generated.bench r).
Proof.
  apply (fair_round_partitions_active sameOrder roster8 2 [firstRound] sameOrder_perm).
  - apply (bool_decide_unpack _). vm_compute. exact I.
  - apply plainIds_storable, roster8_plain.
Defined.

(** C1 as stated fails on a roster with the identifier [__proto__]:
    nothing is stored for it in the games-played map, what is read there
    is no number, every score is [NaN], and the court gets the first
    split of the first combination, here the one that repeats both
    partnerships of the saved round, at a cost of 39.25 where the split
    after it costs 5.25. *)
Lemma fair_round_misses_minimum :
  ~ (forall (shuffle : list Player -> list Player) players courtsWanted history r,
       (forall l, Permutation l (shuffle l)) ->
       NoDup (map Player.id players) ->
       generateFairRound shuffle players courtsWanted history = Return r ->
       exists stats,
         computeStats players history = Return stats /\
         let courts := usedCourts players courtsWanted in
         let active := activeOf stats (shuffle players) (courts * 4) in
         let trace := courtLoop stats (Z.to_nat courts) 1 active in
         forall k pool m, trace !! k = Some (pool, m) ->
           exists i cand,
             firstMinimum (totalCost stats) (candidates pool) i cand /\ emits m cand).
Proof.
  intros H.
  pose (m1 := Match.mk 1 [named "__proto__"; named "a"] [named "b"; named "c"]).
  destruct (H sameOrder rosterWithProto 1 [roundWithProto]
              (Generated.mk [m1] []) sameOrder_perm) as (stats & Hstats & Htrace).
  { apply (bool_decide_unpack _). vm_compute. exact I. }
  { vm_compute. reflexivity. }
  rewrite (computeStats_statsOf rosterWithProto [roundWithProto] eq_refl) in Hstats.
  injection Hstats as <-. cbn zeta in Htrace.
  destruct (Htrace 0%nat rosterWithProto m1) as (i & cand & (_ & Hall & _) & Hemit).
  { vm_compute. reflexivity. }
  destruct cand as [[[a b] c] d]. destruct Hemit as [HA HB].
  injection HA as <- <-. injection HB as <- <-.
  specialize (Hall 1%nat (named "__proto__", named "b", named "a", named "c") eq_refl).
  apply totalCost_le in Hall. vm_compute in Hall. now apply Hall.
Qed.

(** Nor is it enough to keep [__proto__] off the roster: the key of the
    empty identifier and [proto__] is that name, nothing is stored for
    the pair in the partner and opponent counts, what is read for it is
    no number, every split of four players with these two has the score
    [NaN], and the court gets the first split, which repeats both
    partnerships of the saved round. *)
Lemma fair_round_misses_minimum_by_key :
  NoDup (map Player.id rosterWithProtoKey) /\
  storable (map Player.id rosterWithProtoKey) /\
  exists m cand',
    generateFairRound sameOrder rosterWithProtoKey 1 [roundWithProtoKey]
    = Return (Generated.mk [m] []) /\
    emits m (named EmptyString, named "proto__", named "b", named "c") /\
    cand' ∈ candidates rosterWithProtoKey /\
    (totalCost (statsOf rosterWithProtoKey [roundWithProtoKey]) cand'
     < totalCost (statsOf rosterWithProtoKey [roundWithProtoKey])
                 (named EmptyString, named "proto__", named "b", named "c"))%Q.
Proof.
  split; [apply (bool_decide_unpack _); vm_compute; exact I|].
  split; [apply (bool_decide_unpack _); vm_compute; exact I|].
  exists (Match.mk 1 [named EmptyString; named "proto__"] [named "b"; named "c"]),
         (named EmptyString, named "b", named "proto__", named "c").
  split; [vm_compute; reflexivity|]. split; [split; reflexivity|].
  split; [apply (bool_decide_unpack _); vm_compute; exact I|].
  apply Qnot_le_lt. intros Hle. apply totalCost_le in Hle. vm_compute in Hle.
  now apply Hle.
Qed.

(** C2 as stated fails on such a roster as well: the comparisons of the
    sort by games that involve the player [__proto__] are [NaN], so with
    this player in second place the first player stays first although
    he has played a game and the others none, and he is in the match
    while d, who has played less, is on the bench. *)
Lemma active_not_by_games :
  ~ (forall (shuffle : list Player -> list Player) players courtsWanted history r,
       (forall l, Permutation l (shuffle l)) ->
       NoDup (map Player.id players) ->
       generateFairRound shuffle players courtsWanted history = Return r ->
       exists stats,
         computeStats players history = Return stats /\
         forall p q, p ∈ flat_map matchPlayers (Generated.matches r) ->
                     q ∈ Generated.bench r -> fewerGames stats p q).
Proof.
  intros H.
  pose (m1 := Match.mk 1 [named "a"; named "__proto__"] [named "b"; named "c"]).
  destruct (H sameOrder rosterOfFive 1 [roundOfLeavers]
              (Generated.mk [m1] [named "d"]) sameOrder_perm) as (stats & Hstats & Hrank).
  { apply (bool_decide_unpack _). vm_compute. exact I. }
  { vm_compute. reflexivity. }
  rewrite (computeStats_statsOf rosterOfFive [roundOfLeavers] eq_refl) in Hstats.
  injection Hstats as <-.
  specialize (Hrank (named "a") (named "d")).
  unfold fewerGames in Hrank. vm_compute in Hrank.
  apply Hrank; [left | left | reflexivity].
Qed.

(** ** Too few players *)

Lemma usedCourts_small (players : list Player) (courtsWanted : Z) :
  (length players < 4)%nat -> usedCourts players courtsWanted = 0.
Proof.
  intros Hlen. unfold usedCourts.
  rewrite (Z.div_small (Z.of_nat (length players)) 4) by lia. lia.
Qed.

(** C7, as the code has it: with fewer than four players and any court
    count, the round is returned exactly when every team of the history
    has its two players, it then has no match and the whole roster, in
    some order, on the bench, and otherwise the call raises; the
    recommended number of rounds is zero for every court count. *)
Theorem small_roster_yields_no_round (shuffle : list Player -> list Player)
    (players : list Player) (courtsWanted : Z) (history : list SavedRound) :
  (forall l, Permutation l (shuffle l)) ->
  (length players < 4)%nat ->
  (if wfHistory history
   then exists bench,
          generateFairRound shuffle players courtsWanted history
          = Return (Generated.mk [] bench) /\
          Permutation bench players
   else generateFairRound shuffle players courtsWanted history = Throw) /\
  (forall c, recommendRoundsPartner (Z.of_nat (length players)) c = 0).
Proof.
  intros Hshuffle Hlen. split.
  - destruct (wfHistory history) eqn:Hwf; [|now apply generateFairRound_illformed].
    eexists. split.
    + rewrite generateFairRound_wf by exact Hwf. cbn zeta.
      rewrite (usedCourts_small players courtsWanted Hlen). reflexivity.
    + unfold benchOf. simpl. rewrite drop_0. now apply byGames_perm.
  - intros c. unfold recommendRoundsPartner.
    destruct (Z.ltb_spec (Z.of_nat (length players)) 4); [reflexivity | lia].
Qed.

Lemma small_roster_yields_no_round_witness :
  (if wfHistory [firstRound]
   then exists bench,
          generateFairRound sameOrder (take 3 roster8) 2 [firstRound]
          = Return (Generated.mk [] bench) /\
          Permutation bench (take 3 roster8)
   else generateFairRound sameOrder (take 3 roster8) 2 [firstRound] = Throw) /\
  (forall c, recommendRoundsPartner (Z.of_nat (length (take 3 roster8))) c = 0).
Proof.
  apply (small_roster_yields_no_round sameOrder (take 3 roster8) 2 [firstRound]
           sameOrder_perm).
  simpl. lia.
Defined.

(** C7 as stated fails on a history with a match that has no players:
    reading the identifier of its first player raises the TypeError,
    whatever the roster. *)
Lemma small_roster_broken_history :
  ~ (forall (shuffle : list Player -> list Player) players courtsWanted history,
       (forall l, Permutation l (shuffle l)) ->
       (length players < 4)%nat ->
       exists bench,
         generateFairRound shuffle players courtsWanted history
         = Return (Generated.mk [] bench)).
Proof.
  intros H.
  destruct (H sameOrder [] 1 [brokenRound] sameOrder_perm ltac:(simpl; lia)) as [bench E].
  discriminate E.
Qed.

(** ** Four players, one court *)

Lemma two_distinct_keys (x1 x2 y1 y2 : string) :
  NoDup [x1; x2; y1; y2] ->
  plainIds [x1; x2; y1; y2] ->
  makeKey x1 x2 <> makeKey y1 y2.
Proof.
  intros Hnd Huf E.
  apply Forall_cons in Huf as [U1 Huf]. apply Forall_cons in Huf as [U2 Huf].
  apply Forall_cons in Huf as [U3 Huf]. apply Forall_cons in Huf as [U4 _].
  apply NoDup_cons in Hnd as [Hx1 _].
  apply makeKey_inj in E; trivial.
  apply Hx1. destruct E as [[-> _]|[-> _]].
  - right. left.
  - do 2 right. left.
Qed.

(** C8, as the code has it: four players of distinct identifiers, no
    history, one court: the round is one match on court 1 with the four
    players, two per team, and an empty bench.  When the identifiers
    contain no underscore, the coverage of a history that consists of
    this round is 2 of 6 partnerships: 33 percent, 4 missing, not
    complete. *)
Theorem four_players_one_court (shuffle : list Player -> list Player) (a b c d : Player) :
  (forall l, Permutation l (shuffle l)) ->
  NoDup (map Player.id [a; b; c; d]) ->
  exists m,
    generateFairRound shuffle [a; b; c; d] 1 [] = Return (Generated.mk [m] []) /\
    Match.court m = 1 /\ twoPerTeam m /\
    Permutation (matchPlayers m) [a; b; c; d] /\
    (plainIds (map Player.id [a; b; c; d]) ->
     forall rid created cs res,
       partnerCoverage [a; b; c; d] [SavedRound.mk rid created cs [m] res]
       = Return (mkCoverage false 33 4 6)).
Proof.
  intros Hshuffle Hnd.
  set (players := [a; b; c; d]) in *.
  set (stats := statsOf players []).
  pose proof (byGames_perm shuffle Hshuffle players []) as Hby. fold stats in Hby.
  assert (Hlen : length (byGames stats (shuffle players)) = 4%nat)
    by now rewrite (Permutation_length Hby).
  assert (Hactive : activeOf stats (shuffle players) (1 * 4) = byGames stats (shuffle players)).
  { unfold activeOf. apply take_ge. rewrite Hlen. simpl. lia. }
  assert (Hbench : benchOf stats (shuffle players) (1 * 4) = []).
  { unfold benchOf. apply drop_ge. rewrite Hlen. simpl. lia. }
  destruct (courtLoop_partition stats 1 1 (byGames stats (shuffle players)))
    as (Hcount & Hcourts & Hteams & Hperm).
  { now rewrite Hby. }
  { exact Hlen. }
  cbn zeta in *.
  destruct (map snd (courtLoop stats 1 1 (byGames stats (shuffle players))))
    as [|m [|]] eqn:Ems; try discriminate Hcount.
  exists m. split.
  { rewrite generateFairRound_wf by reflexivity. cbn zeta.
    change (usedCourts players 1) with 1. fold stats.
    rewrite Hactive, Hbench. change (Z.to_nat 1) with 1%nat. now rewrite Ems. }
  injection Hcourts as Hcourt. apply Forall_cons in Hteams as [Hteam _].
  simpl in Hperm. rewrite app_nil_r in Hperm. rewrite Hby in Hperm.
  repeat (split; [assumption|]).
  intros Huf rid created cs res.
  destruct Hteam as [HA HB]. unfold matchPlayers in Hperm.
  destruct m as [ct [|x1 [|x2 [|]]] [|y1 [|y2 [|]]]]; try discriminate HA; try discriminate HB.
  simpl in Hperm.
  assert (Hkeys : makeKey (Player.id x1) (Player.id x2)
                  <> makeKey (Player.id y1) (Player.id y2)).
  { apply two_distinct_keys.
    - change (NoDup (map Player.id [x1; x2; y1; y2])). now rewrite Hperm.
    - unfold plainIds in *.
      change (Forall (fun x => underscoreFree x = true) (map Player.id [x1; x2; y1; y2])).
      now rewrite Hperm. }
  rewrite partnerCoverage_wf by reflexivity. cbn zeta.
  replace (size (seenKeys [SavedRound.mk rid created cs
                             [Match.mk ct [x1; x2] [y1; y2]] res])) with 2%nat;
    [reflexivity|].
  unfold seenKeys. rewrite size_list_to_set; [reflexivity|].
  simpl. apply NoDup_cons. split; [|apply NoDup_singleton].
  intros Hin. apply list_elem_of_singleton in Hin. contradiction.
Qed.

Lemma four_players_one_court_witness :
  exists m,
    generateFairRound sameOrder roster4 1 [] = Return (Generated.mk [m] []) /\
    Match.court m = 1 /\ twoPerTeam m /\
    Permutation (matchPlayers m) roster4 /\
    (plainIds (map Player.id roster4) ->
     forall rid created cs res,
       partnerCoverage roster4 [SavedRound.mk rid created cs [m] res]
       = Return (mkCoverage false 33 4 6)).
Proof.
  apply (four_players_one_court sameOrder (letter 0) (letter 1) (letter 2) (letter 3)
           sameOrder_perm).
  apply (bool_decide_unpack _). vm_compute. exact I.
Defined.

(** C8 as stated fails in its second half: the saved round has two
    teams, so two partnerships have been played, and the coverage is 33
    percent with 4 pairs missing, not 17 percent with 5. *)
Lemma four_players_coverage_is_33 :
  ~ (forall (shuffle : list Player -> list Player) (a b c d : Player),
       (forall l, Permutation l (shuffle l)) ->
       NoDup (map Player.id [a; b; c; d]) ->
       exists m,
         generateFairRound shuffle [a; b; c; d] 1 [] = Return (Generated.mk [m] []) /\
         forall rid created cs res,
           partnerCoverage [a; b; c; d] [SavedRound.mk rid created cs [m] res]
           = Return (mkCoverage false 17 5 6)).
Proof.
  intros H.
  destruct (H sameOrder (letter 0) (letter 1) (letter 2) (letter 3) sameOrder_perm)
    as (m & Hgen & Hcov).
  { apply (bool_decide_unpack _). vm_compute. exact I. }
  vm_compute in Hgen. injection Hgen as <-.
  specialize (Hcov "round-1" 0 1 []). vm_compute in Hcov. discriminate Hcov.
Qed.

(** ** A round in which nobody plays twice *)

Lemma NoDup4 {A} (x1 x2 x3 x4 : A) :
  NoDup [x1; x2; x3; x4] ->
  x1 <> x2 /\ x1 <> x3 /\ x1 <> x4 /\ x2 <> x3 /\ x2 <> x4 /\ x3 <> x4.
Proof.
  intros H. apply NoDup_cons in H as [H1 H]. apply NoDup_cons in H as [H2 H].
  apply NoDup_cons in H as [H3 _].
  repeat match goal with
         | H : _ ∉ _ :: _ |- _ => apply not_elem_of_cons in H as [? ?]
         end.
  intuition.
Qed.

Lemma plainIds4 (x1 x2 x3 x4 : string) :
  plainIds [x1; x2; x3; x4] ->
  underscoreFree x1 = true /\ underscoreFree x2 = true /\
  underscoreFree x3 = true /\ underscoreFree x4 = true.
Proof.
  intros H. apply Forall_cons in H as [H1 H]. apply Forall_cons in H as [H2 H].
  apply Forall_cons in H as [H3 H]. apply Forall_cons in H as [H4 _]. auto.
Qed.

Lemma occ_NoDup (x : string) (l : list string) : NoDup l -> occ x l <= 1.
Proof.
  induction l as [|y l IH]; intros H.
  - rewrite occ_nil. lia.
  - apply NoDup_cons in H as [Hy H]. rewrite occ_cons.
    destruct (decide (y = x)) as [->|]; [|specialize (IH H); lia].
    rewrite (occ_zero x l Hy). lia.
Qed.

Lemma elem_of_flat_map {A B} (f : A -> list B) (l : list A) (y : B) :
  y ∈ flat_map f l <-> exists x, x ∈ l /\ y ∈ f x.
Proof.
  rewrite list_elem_of_In, in_flat_map. split; intros (x & Hx & Hy); exists x;
    split; now apply list_elem_of_In.
Qed.

(** In a list of disjoint blocks an element lies in one block only. *)
Lemma NoDup_flat_map_unique {A} (f : A -> list string) (l : list A) (m m' : A) (z : string) :
  NoDup (flat_map f l) -> m ∈ l -> m' ∈ l -> z ∈ f m -> z ∈ f m' -> m = m'.
Proof.
  induction l as [|a l IH]; intros Hnd Hm Hm' Hz Hz'; [inversion Hm|].
  simpl in Hnd. apply NoDup_app in Hnd as (_ & Hdisj & Hnd).
  assert (Hrest : forall n, n ∈ l -> z ∈ f n -> z ∈ flat_map f l).
  { intros n Hn Hzn. apply elem_of_flat_map. eauto. }
  apply elem_of_cons in Hm as [->|Hm]; apply elem_of_cons in Hm' as [->|Hm'].
  - reflexivity.
  - exfalso. apply (Hdisj z Hz). eauto.
  - exfalso. apply (Hdisj z Hz'). eauto.
  - now apply IH.
Qed.

Section OneValidMatch.
Variable m : Match.
Variables a1 a2 b1 b2 : string.
Hypothesis slots : slotIds m = [a1; a2; b1; b2].
Hypothesis distinct : NoDup [a1; a2; b1; b2].
Hypothesis plain : plainIds [a1; a2; b1; b2].

Lemma teamKeys_slots : teamKeys m = [makeKey a1 a2; makeKey b1 b2].
Proof. unfold teamKeys. now rewrite slots. Qed.

Lemma crossKeys_slots :
  crossKeys m = [makeKey a1 b1; makeKey a1 b2; makeKey a2 b1; makeKey a2 b2].
Proof. unfold crossKeys. now rewrite slots. Qed.

(** A team key of the match is the key of one of its two teams only. *)
Lemma teamKey_inv (x y : string) :
  underscoreFree x = true -> underscoreFree y = true ->
  makeKey x y ∈ teamKeys m ->
  (x = a1 /\ y = a2) \/ (x = a2 /\ y = a1) \/ (x = b1 /\ y = b2) \/ (x = b2 /\ y = b1).
Proof.
  intros Ux Uy. rewrite teamKeys_slots, !elem_of_cons, elem_of_nil.
  destruct (plainIds4 _ _ _ _ plain) as (U1 & U2 & U3 & U4).
  intros [E|[E|[]]]; apply makeKey_inj in E; trivial; tauto.
Qed.

Lemma crossKey_inv (x y : string) :
  underscoreFree x = true -> underscoreFree y = true ->
  makeKey x y ∈ crossKeys m -> x ∈ slotIds m.
Proof.
  intros Ux Uy. rewrite crossKeys_slots, slots, !elem_of_cons, !elem_of_nil.
  destruct (plainIds4 _ _ _ _ plain) as (U1 & U2 & U3 & U4).
  intros [E|[E|[E|[E|[]]]]]; apply makeKey_inj in E; trivial; tauto.
Qed.

Lemma crossKeys_NoDup : NoDup (crossKeys m).
Proof.
  rewrite crossKeys_slots.
  destruct (plainIds4 _ _ _ _ plain) as (U1 & U2 & U3 & U4).
  destruct (NoDup4 _ _ _ _ distinct) as (N12 & N13 & N14 & N23 & N24 & N34).
  repeat (apply NoDup_cons; split); try apply NoDup_nil_2;
    rewrite ?elem_of_cons, ?elem_of_nil;
    intros E; repeat (destruct E as [E|E]); try contradiction;
    apply makeKey_inj in E; trivial; intuition congruence.
Qed.

End OneValidMatch.

Lemma NoDup_flat_map_block {A} (f : A -> list string) (l : list A) (m : A) :
  NoDup (flat_map f l) -> m ∈ l -> NoDup (f m).
Proof.
  induction l as [|a l IH]; intros Hnd Hm; [inversion Hm|].
  simpl in Hnd. apply NoDup_app in Hnd as (Ha & _ & Hnd).
  apply elem_of_cons in Hm as [->|Hm]; auto.
Qed.

Lemma forallb_elem {A} (ok : A -> bool) (l : list A) (x : A) :
  forallb ok l = true -> x ∈ l -> ok x = true.
Proof.
  intros H Hx. rewrite forallb_forall in H. apply H. now apply list_elem_of_In.
Qed.

Lemma partnersIn_slots (m : Match) (a1 a2 b1 b2 x y : string) :
  wfMatch m = true -> slotIds m = [a1; a2; b1; b2] -> partnersIn x y m ->
  (x = a1 /\ y = a2) \/ (x = a2 /\ y = a1) \/ (x = b1 /\ y = b2) \/ (x = b2 /\ y = b1).
Proof.
  unfold wfMatch, slotIds, partnersIn, isTeam. intros Hwf Hs H.
  apply andb_prop in Hwf as [HA HB].
  destruct (Match.teamA m) as [|u1 [|u2 tA]]; try discriminate HA.
  destruct (Match.teamB m) as [|v1 [|v2 tB]]; try discriminate HB.
  simpl in *. injection Hs as <- <- <- <-.
  destruct H as [[E|E]|[E|E]]; injection E as <- <-; tauto.
Qed.

Section ValidRound.
Variable ms : list Match.
Hypothesis wellFormed : forallb wfMatch ms = true.
Hypothesis distinct : NoDup (flat_map slotIds ms).
Hypothesis plain : plainIds (flat_map slotIds ms).

Lemma round_match (m : Match) :
  m ∈ ms ->
  exists a1 a2 b1 b2,
    slotIds m = [a1; a2; b1; b2] /\ NoDup [a1; a2; b1; b2] /\ plainIds [a1; a2; b1; b2].
Proof.
  intros Hm.
  destruct (wfMatch_slots m (forallb_elem _ _ _ wellFormed Hm))
    as (a1 & a2 & b1 & b2 & Hs & _).
  exists a1, a2, b1, b2. split; [exact Hs|]. rewrite <- Hs. split.
  - eapply NoDup_flat_map_block; eauto.
  - apply Forall_forall. intros z Hz.
    unfold plainIds in plain. rewrite Forall_forall in plain.
    apply plain, elem_of_flat_map. eauto.
Qed.

(** Someone whose partner in the round was [P2] was the partner of
    nobody else. *)
Lemma sole_partner (m0 : Match) (P1 P2 x : string) :
  m0 ∈ ms -> partnersIn P1 P2 m0 -> underscoreFree x = true -> x <> P2 ->
  occ (makeKey P1 x) (flat_map teamKeys ms) = 0.
Proof.
  intros Hm0 Hteam Ux Hx. apply occ_zero. intros Hin.
  apply elem_of_flat_map in Hin as (m' & Hm' & Hkey).
  destruct (round_match m' Hm') as (a1 & a2 & b1 & b2 & Hs & Hnd & Hpl).
  destruct (round_match m0 Hm0) as (c1 & c2 & d1 & d2 & Hs0 & Hnd0 & Hpl0).
  pose proof (partnersIn_slots m0 _ _ _ _ P1 P2
                (forallb_elem _ _ _ wellFormed Hm0) Hs0 Hteam) as Hcase0.
  assert (U1 : underscoreFree P1 = true).
  { destruct (plainIds4 _ _ _ _ Hpl0) as (? & ? & ? & ?).
    destruct Hcase0 as [[-> _]|[[-> _]|[[-> _]|[-> _]]]]; assumption. }
  pose proof (teamKey_inv m' _ _ _ _ Hs Hpl P1 x U1 Ux Hkey) as Hcase.
  assert (Hsame : m' = m0).
  { apply (NoDup_flat_map_unique slotIds ms m' m0 P1 distinct Hm' Hm0).
    - rewrite Hs, !elem_of_cons. tauto.
    - rewrite Hs0, !elem_of_cons. tauto. }
  subst m'. rewrite Hs0 in Hs. injection Hs as <- <- <- <-.
  destruct (NoDup4 _ _ _ _ Hnd) as (N12 & N13 & N14 & N23 & N24 & N34).
  intuition congruence.
Qed.

Lemma partner_at_least_once (m0 : Match) (P1 P2 : string) :
  m0 ∈ ms -> partnersIn P1 P2 m0 ->
  1 <= occ (makeKey P1 P2) (flat_map teamKeys ms).
Proof.
  intros Hm0 Hteam. apply occ_pos, elem_of_flat_map. exists m0. split; [exact Hm0|].
  destruct (round_match m0 Hm0) as (c1 & c2 & d1 & d2 & Hs0 & _ & _).
  rewrite (teamKeys_slots m0 _ _ _ _ Hs0), !elem_of_cons.
  destruct (partnersIn_slots m0 _ _ _ _ P1 P2
              (forallb_elem _ _ _ wellFormed Hm0) Hs0 Hteam)
    as [[-> ->]|[[-> ->]|[[-> ->]|[-> ->]]]];
    rewrite ?(makeKey_comm c2 c1), ?(makeKey_comm d2 d1); tauto.
Qed.

End ValidRound.

(** Two players were opponents at most once in the round. *)
Lemma opponents_at_most_once (ms : list Match) (x y : string) :
  forallb wfMatch ms = true -> NoDup (flat_map slotIds ms) ->
  plainIds (flat_map slotIds ms) ->
  underscoreFree x = true -> underscoreFree y = true ->
  occ (makeKey x y) (flat_map crossKeys ms) <= 1.
Proof.
  intros Hwf Hnd Hpl Ux Uy. induction ms as [|m ms IH].
  - simpl. rewrite occ_nil. lia.
  - destruct (round_match (m :: ms) Hwf Hnd Hpl m) as (a1 & a2 & b1 & b2 & Hs & Hnd4 & Hpl4);
      [left|].
    simpl in Hwf, Hnd, Hpl. apply andb_prop in Hwf as [_ Hwf].
    apply NoDup_app in Hnd as (_ & Hdisj & Hnd).
    apply Forall_app in Hpl as [_ Hpl].
    simpl. rewrite occ_app.
    pose proof (occ_NoDup (makeKey x y) _ (crossKeys_NoDup m _ _ _ _ Hs Hnd4 Hpl4)).
    destruct (decide (makeKey x y ∈ crossKeys m)) as [Hin|Hout].
    + rewrite (occ_zero _ (flat_map crossKeys ms)); [lia|].
      intros Hrest. apply elem_of_flat_map in Hrest as (m' & Hm' & Hkey).
      destruct (round_match ms Hwf Hnd Hpl m' Hm') as (c1 & c2 & d1 & d2 & Hs' & _ & Hpl').
      apply (Hdisj x).
      * eapply crossKey_inv; eauto.
      * apply elem_of_flat_map. exists m'. split; [exact Hm'|].
        eapply crossKey_inv; eauto.
    + rewrite (occ_zero _ (crossKeys m) Hout). specialize (IH Hwf Hnd Hpl). lia.
Qed.

(** ** Repeating a partnership is never the cheapest split *)

Lemma partner_comm (stats : Stats) (x y : string) : partnerOf stats x y = partnerOf stats y x.
Proof. unfold partnerOf, partner. now rewrite makeKey_comm. Qed.

(** Among the splits of four players of distinct identifiers, the one
    that pairs [P1] with [P2] again costs more than another one: the
    repeat adds 14, and the at most four repeated oppositions of the
    other split add 3 each. *)
Lemma repeat_not_minimal (stats : Stats) (P1 P2 : string) (g : list Player)
    (cand : Candidate) :
  1 <= partnerOf stats P1 P2 ->
  (forall x y, 0 <= partnerOf stats x y) ->
  (forall x, underscoreFree x = true -> x <> P2 -> partnerOf stats P1 x = 0) ->
  (forall x, underscoreFree x = true -> x <> P1 -> partnerOf stats P2 x = 0) ->
  (forall x y, underscoreFree x = true -> underscoreFree y = true ->
               0 <= oppOf stats x y <= 1) ->
  NoDup (map Player.id g) -> plainIds (map Player.id g) ->
  cand ∈ splitsOf g -> repeats P1 P2 cand ->
  exists cand', cand' ∈ splitsOf g /\ cost4 stats cand' < cost4 stats cand.
Proof.
  intros Hrep Hnn Hf1 Hf2 Hopp Hnd Hpl Hcand Hteam.
  destruct g as [|p [|q [|r [|s [|]]]]]; try (now inversion Hcand).
  simpl in Hnd, Hpl, Hcand.
  destruct (NoDup4 _ _ _ _ Hnd) as (N12 & N13 & N14 & N23 & N24 & N34).
  destruct (plainIds4 _ _ _ _ Hpl) as (Up & Uq & Ur & Us).
  assert (Hrep' : 1 <= partnerOf stats P2 P1) by now rewrite partner_comm.
  assert (Hf1' : forall x, underscoreFree x = true -> x <> P2 -> partnerOf stats x P1 = 0)
    by (intros x Ux Hx; rewrite partner_comm; auto).
  assert (Hf2' : forall x, underscoreFree x = true -> x <> P1 -> partnerOf stats x P2 = 0)
    by (intros x Ux Hx; rewrite partner_comm; auto).
  rewrite !elem_of_cons, elem_of_nil in Hcand.
  destruct Hcand as [->|[->|[->|[]]]]; unfold repeats, isTeam in Hteam; simpl in Hteam;
    destruct Hteam as [[E|E]|[E|E]]; injection E as <- <-;
    [ exists (p, r, q, s) | exists (p, r, q, s) | exists (p, r, q, s) | exists (p, r, q, s)
    | exists (p, q, r, s) | exists (p, q, r, s) | exists (p, q, r, s) | exists (p, q, r, s)
    | exists (p, q, r, s) | exists (p, q, r, s) | exists (p, q, r, s) | exists (p, q, r, s) ];
    (split; [simpl; rewrite !elem_of_cons; tauto|]);
    unfold cost4;
    try pose proof (Hf1 _ Up ltac:(congruence)); try pose proof (Hf1 _ Uq ltac:(congruence));
    try pose proof (Hf1 _ Ur ltac:(congruence)); try pose proof (Hf1 _ Us ltac:(congruence));
    try pose proof (Hf2 _ Up ltac:(congruence)); try pose proof (Hf2 _ Uq ltac:(congruence));
    try pose proof (Hf2 _ Ur ltac:(congruence)); try pose proof (Hf2 _ Us ltac:(congruence));
    try pose proof (Hf1' _ Up ltac:(congruence)); try pose proof (Hf1' _ Uq ltac:(congruence));
    try pose proof (Hf1' _ Ur ltac:(congruence)); try pose proof (Hf1' _ Us ltac:(congruence));
    try pose proof (Hf2' _ Up ltac:(congruence)); try pose proof (Hf2' _ Uq ltac:(congruence));
    try pose proof (Hf2' _ Ur ltac:(congruence)); try pose proof (Hf2' _ Us ltac:(congruence));
    pose proof (Hnn (Player.id p) (Player.id q)); pose proof (Hnn (Player.id r) (Player.id s));
    pose proof (Hnn (Player.id p) (Player.id r)); pose proof (Hnn (Player.id q) (Player.id s));
    pose proof (Hnn (Player.id p) (Player.id s)); pose proof (Hnn (Player.id q) (Player.id r));
    pose proof (Hopp _ _ Up Uq); pose proof (Hopp _ _ Up Ur); pose proof (Hopp _ _ Up Us);
    pose proof (Hopp _ _ Uq Ur); pose proof (Hopp _ _ Uq Us); pose proof (Hopp _ _ Ur Us);
    pose proof (Hopp _ _ Ur Uq); pose proof (Hopp _ _ Us Uq); pose proof (Hopp _ _ Us Ur);
    lia.
Qed.

(** ** The round after one saved round *)

Lemma partner_single_round (players : list Player) (round : SavedRound) (x y : string) :
  underscoreFree x = true -> underscoreFree y = true ->
  partnerOf (statsOf players [round]) x y
  = occ (makeKey x y) (flat_map teamKeys (SavedRound.matches round)).
Proof.
  intros Ux Uy. rewrite partnerOf_statsOf.
  rewrite decide_False by now apply makeKey_plain_own.
  unfold historyMatches. simpl. now rewrite app_nil_r.
Qed.

Lemma opp_single_round (players : list Player) (round : SavedRound) (x y : string) :
  underscoreFree x = true -> underscoreFree y = true ->
  oppOf (statsOf players [round]) x y
  = occ (makeKey x y) (flat_map crossKeys (SavedRound.matches round)).
Proof.
  intros Ux Uy. rewrite oppOf_statsOf.
  rewrite decide_False by now apply makeKey_plain_own.
  unfold historyMatches. simpl. now rewrite app_nil_r.
Qed.

Lemma partnerOf_nonneg (players : list Player) (history : list SavedRound) (x y : string) :
  0 <= partnerOf (statsOf players history) x y.
Proof.
  rewrite partnerOf_statsOf. destruct (decide _); [lia | apply occ_nonneg].
Qed.

(** The two players of a team of a round of plain identifiers have plain
    identifiers. *)
Lemma partners_plain (ms : list Match) (m0 : Match) (P1 P2 : string) :
  forallb wfMatch ms = true -> plainIds (flat_map slotIds ms) ->
  m0 ∈ ms -> partnersIn P1 P2 m0 ->
  underscoreFree P1 = true /\ underscoreFree P2 = true.
Proof.
  intros Hwf Hpl Hm0 Hteam.
  destruct (wfMatch_slots m0 (forallb_elem _ _ _ Hwf Hm0)) as (c1 & c2 & d1 & d2 & Hs & _).
  assert (Hpl4 : plainIds [c1; c2; d1; d2]).
  { rewrite <- Hs. apply Forall_forall. intros z Hz.
    unfold plainIds in Hpl. rewrite Forall_forall in Hpl.
    apply Hpl, elem_of_flat_map. eauto. }
  destruct (plainIds4 _ _ _ _ Hpl4) as (? & ? & ? & ?).
  destruct (partnersIn_slots m0 _ _ _ _ P1 P2 (forallb_elem _ _ _ Hwf Hm0) Hs Hteam)
    as [[-> ->]|[[-> ->]|[[-> ->]|[-> ->]]]]; auto.
Qed.

Lemma partnersIn_sym (x y : string) (m : Match) : partnersIn x y m -> partnersIn y x m.
Proof. unfold partnersIn, isTeam. tauto. Qed.

Lemma emits_repeats (m : Match) (cand : Candidate) (x y : string) :
  emits m cand -> partnersIn x y m -> repeats x y cand.
Proof.
  destruct cand as [[[a b] c] d]. unfold emits, partnersIn, repeats.
  now intros [-> ->].
Qed.

(** C3, as the code has it: eight players of distinct identifiers, all
    identifiers free of underscores, and a history of one saved round in
    which nobody plays twice and P1 and P2 were partners: whatever the
    shuffle and the court count, the round is returned and none of its
    matches has P1 and P2 as a team. *)
Theorem saved_pairing_not_repeated (shuffle : list Player -> list Player)
    (players : list Player) (courtsWanted : Z) (round : SavedRound) (P1 P2 : string) :
  (forall l, Permutation l (shuffle l)) ->
  length players = 8%nat ->
  NoDup (map Player.id players) ->
  plainIds (map Player.id players) ->
  validRound round ->
  plainIds (flat_map slotIds (SavedRound.matches round)) ->
  (exists m0, m0 ∈ SavedRound.matches round /\ partnersIn P1 P2 m0) ->
  exists r,
    generateFairRound shuffle players courtsWanted [round] = Return r /\
    forall m, m ∈ Generated.matches r -> ~ partnersIn P1 P2 m.
Proof.
  intros Hshuffle _ Hnd Hplain [Hwf Hvalid] Hplain' (m0 & Hm0 & Hteam0).
  assert (Hwf' : wfHistory [round] = true).
  { unfold wfHistory, historyMatches. simpl. now rewrite app_nil_r. }
  eexists. split; [now apply generateFairRound_wf|].
  cbn zeta. cbn [Generated.matches].
  set (stats := statsOf players [round]).
  set (active := activeOf stats (shuffle players) (usedCourts players courtsWanted * 4)).
  intros m Hm Hrepeat.
  apply list_elem_of_fmap in Hm as ([pool m'] & -> & Hm). simpl in Hrepeat.
  apply list_elem_of_lookup in Hm as [k Hk].
  pose proof (active_NoDup shuffle Hshuffle players [round]
                (usedCourts players courtsWanted * 4) Hnd) as Hnda.
  destruct (courtLoop_trace stats (Z.to_nat (usedCourts players courtsWanted)) 1 active
              k pool m' Hnda) as (Hpool & i & cand & Hmin & Hemit);
    [now apply active_numeric, plainIds_ownNames | exact Hk |].
  destruct Hmin as (Hi & Hall & _).
  apply list_elem_of_lookup_2 in Hi. unfold candidates in Hi.
  apply elem_of_flat_map in Hi as (g & Hg & Hcand).
  assert (Hsub : g `sublist_of` active).
  { transitivity pool; [eapply choose_sublist, Hg|]. rewrite Hpool. apply sublist_filter. }
  assert (Hin : forall p, p ∈ g -> p ∈ players).
  { intros p Hp. rewrite <- (byGames_perm shuffle Hshuffle players [round]).
    eapply sublist_subseteq; [apply active_sublist|].
    eapply sublist_subseteq; [exact Hsub | exact Hp]. }
  destruct (partners_plain _ m0 P1 P2 Hwf Hplain' Hm0 Hteam0) as [U1 U2].
  destruct (repeat_not_minimal stats P1 P2 g cand) as (cand' & Hcand' & Hlt).
  - unfold stats. rewrite partner_single_round by assumption.
    now apply (partner_at_least_once _ Hwf Hvalid Hplain' m0).
  - intros x y. apply partnerOf_nonneg.
  - intros x Ux Hx. unfold stats. rewrite partner_single_round by assumption.
    now apply (sole_partner _ Hwf Hvalid Hplain' m0 P1 P2).
  - intros x Ux Hx. unfold stats. rewrite partner_single_round by assumption.
    apply (sole_partner _ Hwf Hvalid Hplain' m0 P2 P1); trivial.
    now apply partnersIn_sym.
  - intros x y Ux Uy. unfold stats. rewrite opp_single_round by assumption.
    split; [apply occ_nonneg|].
    now apply opponents_at_most_once.
  - eapply NoDup_ids_sublist; eauto.
  - apply Forall_forall. intros z Hz. apply list_elem_of_fmap in Hz as (p & -> & Hp).
    unfold plainIds in Hplain. rewrite Forall_forall in Hplain.
    apply Hplain, list_elem_of_fmap. eauto.
  - exact Hcand.
  - eapply emits_repeats; eauto.
  - assert (Hc : cand' ∈ candidates pool).
    { unfold candidates. apply elem_of_flat_map. eauto. }
    apply list_elem_of_lookup in Hc as [j Hj].
    specialize (Hall j cand' Hj). apply totalCost_le in Hall. lia.
Qed.

Lemma saved_pairing_not_repeated_witness :
  exists r,
    generateFairRound sameOrder roster8 2 [firstRound] = Return r /\
    forall m, m ∈ Generated.matches r -> ~ partnersIn "a" "b" m.
Proof.
  apply (saved_pairing_not_repeated sameOrder roster8 2 firstRound "a" "b" sameOrder_perm).
  - reflexivity.
  - apply (bool_decide_unpack _). vm_compute. exact I.
  - repeat constructor.
  - split; [reflexivity|]. apply (bool_decide_unpack _). vm_compute. exact I.
  - repeat constructor.
  - eexists. split; [left|]. left. left. reflexivity.
Defined.

(** C3 as stated fails on a saved round in which the same players are on
    several courts: after [crowdedRound] every split of a, b, c and d
    repeats two partnerships at the same cost, the first split wins, and
    it pairs a with b although the split of a with c against b with d
    would not. *)
Lemma saved_pairing_repeated :
  ~ (forall (shuffle : list Player -> list Player) players courtsWanted round P1 P2 r,
       (forall l, Permutation l (shuffle l)) ->
       length players = 8%nat ->
       NoDup (map Player.id players) ->
       (exists m0, m0 ∈ SavedRound.matches round /\ partnersIn P1 P2 m0) ->
       generateFairRound shuffle players courtsWanted [round] = Return r ->
       (exists ms,
          Permutation (flat_map matchPlayers ms) (flat_map matchPlayers (Generated.matches r)) /\
          Forall twoPerTeam ms /\ forall m, m ∈ ms -> ~ partnersIn P1 P2 m) ->
       forall m, m ∈ Generated.matches r -> ~ partnersIn P1 P2 m).
Proof.
  intros H.
  pose (m1 := Match.mk 1 [letter 0; letter 1] [letter 2; letter 3]).
  pose (alt := Match.mk 1 [letter 0; letter 2] [letter 1; letter 3]).
  apply (H sameOrder roster8 1 crowdedRound "a" "b"
           (Generated.mk [m1] (map letter (seq 4 4))) sameOrder_perm) with (m := m1).
  - reflexivity.
  - apply (bool_decide_unpack _). vm_compute. exact I.
  - exists m1. split; [left|]. left. left. reflexivity.
  - vm_compute. reflexivity.
  - exists [alt]. split; [|split].
    + simpl. apply perm_skip, perm_swap.
    + repeat constructor.
    + intros m Hm. apply list_elem_of_singleton in Hm as ->.
      intros [[E|E]|[E|E]]; discriminate E.
  - left.
  - left. left. reflexivity.
Qed.

(** Nor can the underscores be allowed back in: in [roundWithLeavers]
    nobody plays twice, but the keys of the two teams of its third court
    are those of a with c__d and of a with e__f, so that every split of
    the four active players looks like a repeat and the first one, which
    pairs a with b again, wins. *)
Lemma saved_pairing_repeated_by_key_collision :
  validRound roundWithLeavers /\
  NoDup (map Player.id rosterWithSeparators) /\
  generateFairRound sameOrder rosterWithSeparators 1 [roundWithLeavers]
  = Return (Generated.mk [Match.mk 1 [named "c__d"; named "e__f"] [named "a"; named "b"]]
                         (map named ["g"; "h"; "i"; "j"])).
Proof.
  split; [split; [reflexivity|]|split].
  - apply (bool_decide_unpack _). vm_compute. exact I.
  - apply (bool_decide_unpack _). vm_compute. exact I.
  - vm_compute. reflexivity.
Qed.

(** * Further properties of the scheduling core *)

(** ** Keys and pairs *)

(** X1: On identifiers in which the underscore does not occur, two pairs
    have the same key exactly when they are the same two identifiers, in
    one order or the other. *)
Theorem pair_key_determines_pair (a b c d : string) :
  underscoreFree a = true -> underscoreFree b = true ->
  underscoreFree c = true -> underscoreFree d = true ->
  makeKey a b = makeKey c d <-> (a = c /\ b = d) \/ (a = d /\ b = c).
Proof.
  intros Ha Hb Hc Hd. split.
  - now apply makeKey_inj.
  - intros [[-> ->]|[-> ->]]; [reflexivity | apply makeKey_comm].
Qed.

Lemma pair_key_determines_pair_witness :
  makeKey "p1" "p2" = makeKey "p2" "p1"
  <-> ("p1" = "p2" /\ "p2" = "p1") \/ ("p1" = "p1" /\ "p2" = "p2").
Proof. apply (pair_key_determines_pair "p1" "p2" "p2" "p1"); reflexivity. Defined.

(** ** What the counters count *)

Lemma wfMatch_teams (m : Match) (a1 a2 b1 b2 : string) :
  wfMatch m = true -> slotIds m = [a1; a2; b1; b2] ->
  map Player.id (take 2 (Match.teamA m)) = [a1; a2] /\
  map Player.id (take 2 (Match.teamB m)) = [b1; b2].
Proof.
  unfold wfMatch, slotIds. intros H Hs. apply andb_prop in H as [HA HB].
  destruct (Match.teamA m) as [|x1 [|x2 tA]]; try discriminate HA.
  destruct (Match.teamB m) as [|y1 [|y2 tB]]; try discriminate HB.
  simpl in *. injection Hs as <- <- <- <-. auto.
Qed.

Lemma wfMatch_keys (m : Match) (a1 a2 b1 b2 : string) :
  slotIds m = [a1; a2; b1; b2] ->
  teamKeys m = [makeKey a1 a2; makeKey b1 b2] /\
  crossKeys m = [makeKey a1 b1; makeKey a1 b2; makeKey a2 b1; makeKey a2 b2] /\
  facing m = [(a1, b1); (a1, b2); (a2, b1); (a2, b2)].
Proof. intros Hs. unfold teamKeys, crossKeys, facing. now rewrite Hs. Qed.

Lemma isTeam_key (x y a1 a2 : string) (team : list Player) :
  underscoreFree x = true -> underscoreFree y = true ->
  underscoreFree a1 = true -> underscoreFree a2 = true ->
  map Player.id (take 2 team) = [a1; a2] ->
  isTeam x y team <-> makeKey a1 a2 = makeKey x y.
Proof.
  intros Ux Uy U1 U2 E. unfold isTeam. rewrite E.
  split.
  - intros [H|H]; injection H as -> ->; [reflexivity | apply makeKey_comm].
  - intros H. apply makeKey_inj in H; trivial.
    destruct H as [[-> ->]|[-> ->]]; auto.
Qed.

Lemma isPair_key (x y u v : string) :
  underscoreFree x = true -> underscoreFree y = true ->
  underscoreFree u = true -> underscoreFree v = true ->
  isPair x y (u, v) <-> makeKey u v = makeKey x y.
Proof.
  intros Ux Uy Uu Uv. unfold isPair. simpl. split.
  - intros [[-> ->]|[-> ->]]; [reflexivity | apply makeKey_comm].
  - intros H. apply makeKey_inj in H; trivial.
Qed.

Lemma length_filter_cons {A} (P : A -> Prop) `{!forall x, Decision (P x)} (x : A) (l : list A) :
  Z.of_nat (length (filter P (x :: l)))
  = (if decide (P x) then 1 else 0) + Z.of_nat (length (filter P l)).
Proof. rewrite filter_cons. destruct (decide (P x)); simpl length; lia. Qed.

Lemma decide_iff_Z (P Q : Prop) `{!Decision P} `{!Decision Q} :
  (P <-> Q) -> (if decide P then 1 else 0) = (if decide Q then 1 else 0) :> Z.
Proof. intros H. destruct (decide P), (decide Q); tauto || reflexivity. Qed.

(** The occurrences of the key of [x] and [y] among the team keys are
    the teams made of [x] and [y]; among the keys of the opponents, the
    pairs of opponents [x] and [y]. *)
Lemma keys_count_pairs (ms : list Match) (x y : string) :
  forallb wfMatch ms = true -> plainIds (flat_map slotIds ms) ->
  underscoreFree x = true -> underscoreFree y = true ->
  occ (makeKey x y) (flat_map teamKeys ms)
  = Z.of_nat (length (filter (isTeam x y)
                             (flat_map (fun m => [Match.teamA m; Match.teamB m]) ms))) /\
  occ (makeKey x y) (flat_map crossKeys ms)
  = Z.of_nat (length (filter (isPair x y) (flat_map facing ms))).
Proof.
  intros Hwf Hpl Ux Uy. induction ms as [|m ms IH]; [split; reflexivity|].
  simpl in Hwf, Hpl. apply andb_prop in Hwf as [Hm Hwf].
  apply Forall_app in Hpl as [Hplm Hpl].
  destruct (IH Hwf Hpl) as [IH1 IH2]. clear IH.
  destruct (wfMatch_slots m Hm) as (a1 & a2 & b1 & b2 & Hs & _).
  destruct (wfMatch_teams m _ _ _ _ Hm Hs) as [EA EB].
  destruct (wfMatch_keys m _ _ _ _ Hs) as (Ek & Ec & Ef).
  rewrite Hs in Hplm. destruct (plainIds4 _ _ _ _ Hplm) as (U1 & U2 & U3 & U4).
  cbn [flat_map]. rewrite Ek, Ec, Ef. split.
  - cbn [app]. rewrite !occ_cons, IH1, !length_filter_cons.
    rewrite (decide_iff_Z (isTeam x y (Match.teamA m)) (makeKey a1 a2 = makeKey x y))
      by now apply isTeam_key.
    rewrite (decide_iff_Z (isTeam x y (Match.teamB m)) (makeKey b1 b2 = makeKey x y))
      by now apply isTeam_key.
    lia.
  - cbn [app]. rewrite !occ_cons, IH2, !length_filter_cons.
    rewrite (decide_iff_Z (isPair x y (a1, b1)) (makeKey a1 b1 = makeKey x y))
      by now apply isPair_key.
    rewrite (decide_iff_Z (isPair x y (a1, b2)) (makeKey a1 b2 = makeKey x y))
      by now apply isPair_key.
    rewrite (decide_iff_Z (isPair x y (a2, b1)) (makeKey a2 b1 = makeKey x y))
      by now apply isPair_key.
    rewrite (decide_iff_Z (isPair x y (a2, b2)) (makeKey a2 b2 = makeKey x y))
      by now apply isPair_key.
    lia.
Qed.

(** X2: Whenever the counters are returned for a history whose identifiers
    are free of underscores, what [partner] reads for two such
    identifiers is the number of teams of the history that the two made
    up, whether or not they are on the roster. *)
Theorem partner_counter_counts_teams (players : list Player) (history : list SavedRound)
    (st : Stats) (x y : string) :
  computeStats players history = Return st ->
  plainIds (historyIds history) ->
  underscoreFree x = true -> underscoreFree y = true ->
  partner st x y = Numeric (Num (timesPartners x y history)).
Proof.
  intros E Hpl Ux Uy. apply computeStats_returns in E as [Hwf ->].
  rewrite partner_statsOf by now apply makeKey_plain_own.
  do 2 f_equal. now apply keys_count_pairs.
Qed.

Lemma partner_counter_counts_teams_witness :
  partner (statsOf roster8 [firstRound]) "a" "b"
  = Numeric (Num (timesPartners "a" "b" [firstRound])).
Proof.
  apply (partner_counter_counts_teams roster8 [firstRound]); try reflexivity.
  unfold plainIds. apply Forall_forall. intros x Hx.
  apply (bool_decide_unpack _).
  revert x Hx. apply Forall_forall. vm_compute. repeat constructor.
Defined.

(** X3: Whenever the counters are returned for a history whose identifiers
    are free of underscores, what [opp] reads for two such identifiers
    is the number of times the two faced each other, one in each team
    of a match. *)
Theorem opponent_counter_counts_meetings (players : list Player) (history : list SavedRound)
    (st : Stats) (x y : string) :
  computeStats players history = Return st ->
  plainIds (historyIds history) ->
  underscoreFree x = true -> underscoreFree y = true ->
  opp st x y = Numeric (Num (timesOpponents x y history)).
Proof.
  intros E Hpl Ux Uy. apply computeStats_returns in E as [Hwf ->].
  rewrite opp_statsOf by now apply makeKey_plain_own.
  do 2 f_equal. now apply keys_count_pairs.
Qed.

Lemma opponent_counter_counts_meetings_witness :
  opp (statsOf roster8 [firstRound]) "a" "c"
  = Numeric (Num (timesOpponents "a" "c" [firstRound])).
Proof.
  apply (opponent_counter_counts_meetings roster8 [firstRound]); try reflexivity.
  unfold plainIds. vm_compute. repeat constructor.
Defined.

(** ** The history as the scheduler sees it *)

Lemma fold_left_perm {A S} (f : S -> A -> S) (l l' : list A) :
  (forall s a b, f (f s a) b = f (f s b) a) ->
  Permutation l l' -> forall s, fold_left f l s = fold_left f l' s.
Proof.
  intros Hcomm. induction 1 as [|x l l' _ IH|x y l|l1 l2 l3 _ IH1 _ IH2]; intros s; simpl.
  - reflexivity.
  - apply IH.
  - now rewrite Hcomm.
  - now rewrite IH1.
Qed.

Lemma assign_comm (o : gmap string Value) (a b : string) (va vb : Value) :
  a <> b -> assign (assign o a va) b vb = assign (assign o b vb) a va.
Proof.
  intros Hne. unfold assign.
  destruct (decide (a = "__proto__")), (decide (b = "__proto__")); try reflexivity.
  now apply insert_insert_ne.
Qed.

Lemma read_assign_ne (o : gmap string Value) (k x : string) (v : Value) :
  k <> x -> read (assign o k v) x = read o x.
Proof. intros Hne. unfold read. now rewrite assign_lookup_ne. Qed.

(** The increments of two entries can be made in either order. *)
Lemma bump_comm (g : gmap string Value) (a b : string) :
  bump (bump g a) b = bump (bump g b) a.
Proof.
  destruct (decide (a = b)) as [->|Hne]; [reflexivity|].
  unfold bump. rewrite !read_assign_ne by congruence. now apply assign_comm.
Qed.

Lemma tally_comm (m : gmap string Value) (a b : string) :
  tally (tally m a) b = tally (tally m b) a.
Proof.
  destruct (decide (a = b)) as [->|Hne]; [reflexivity|].
  unfold tally. rewrite !read_assign_ne by congruence. now apply assign_comm.
Qed.

Lemma bump_fold_perm (l l' : list string) (g : gmap string Value) :
  Permutation l l' -> fold_left bump l g = fold_left bump l' g.
Proof. intros Hperm. now apply fold_left_perm; [apply bump_comm|]. Qed.

Lemma tally_fold_perm (l l' : list string) (m : gmap string Value) :
  Permutation l l' -> fold_left tally l m = fold_left tally l' m.
Proof. intros Hperm. now apply fold_left_perm; [apply tally_comm|]. Qed.

Lemma flat_map_perm {A B} (f : A -> list B) (l l' : list A) :
  Permutation l l' -> Permutation (flat_map f l) (flat_map f l').
Proof.
  induction 1 as [|x l l' _ IH|x y l|l1 l2 l3 _ IH1 _ IH2]; simpl.
  - reflexivity.
  - now rewrite IH.
  - rewrite !app_assoc. apply Permutation_app_tail, Permutation_app_comm.
  - now rewrite IH1.
Qed.

Lemma forallb_perm {A} (ok : A -> bool) (l l' : list A) :
  Permutation l l' -> forallb ok l = forallb ok l'.
Proof.
  induction 1 as [|x l l' _ IH|x y l|l1 l2 l3 _ IH1 _ IH2]; simpl.
  - reflexivity.
  - now rewrite IH.
  - destruct (ok x), (ok y); reflexivity.
  - now rewrite IH1.
Qed.

Lemma slotIds_view (m : Match) : slotIds m = viewIds (matchView m).
Proof. unfold slotIds, viewIds, matchView. simpl. now rewrite map_app. Qed.

Lemma wfMatch_view (m : Match) : wfMatch m = viewComplete (matchView m).
Proof.
  unfold wfMatch, viewComplete, matchView.
  destruct (Match.teamA m) as [|x1 [|x2 tA]], (Match.teamB m) as [|y1 [|y2 tB]];
    reflexivity.
Qed.

Lemma flat_map_view {B} (f : Match -> list B) (g : list string * list string -> list B)
    (ms : list Match) :
  (forall m, f m = g (matchView m)) ->
  flat_map f ms = flat_map g (map matchView ms).
Proof.
  intros H. induction ms as [|m ms IH]; simpl; [reflexivity|]. now rewrite IH, H.
Qed.

Section SameViews.
Variables ms1 ms2 : list Match.
Hypothesis sameViews : Permutation (map matchView ms1) (map matchView ms2).

Lemma sameViews_wf : forallb wfMatch ms1 = forallb wfMatch ms2.
Proof.
  assert (H : forall ms, forallb wfMatch ms = forallb viewComplete (map matchView ms)).
  { induction ms as [|m ms IH]; simpl; [reflexivity|]. now rewrite IH, wfMatch_view. }
  rewrite !H. now apply forallb_perm.
Qed.

Lemma sameViews_ids : Permutation (flat_map slotIds ms1) (flat_map slotIds ms2).
Proof.
  rewrite !(flat_map_view slotIds viewIds) by apply slotIds_view.
  now apply flat_map_perm.
Qed.

Lemma sameViews_teamKeys : Permutation (flat_map teamKeys ms1) (flat_map teamKeys ms2).
Proof.
  rewrite !(flat_map_view teamKeys viewKeys)
    by (intros m; unfold teamKeys, viewKeys; now rewrite slotIds_view).
  now apply flat_map_perm.
Qed.

Lemma sameViews_crossKeys : Permutation (flat_map crossKeys ms1) (flat_map crossKeys ms2).
Proof.
  rewrite !(flat_map_view crossKeys viewCrossKeys)
    by (intros m; unfold crossKeys, viewCrossKeys; now rewrite slotIds_view).
  now apply flat_map_perm.
Qed.

Lemma sameViews_stats (st : Stats) :
  fold_left applyMatch ms1 st = fold_left applyMatch ms2 st.
Proof.
  assert (H : forall ms,
             fold_left applyMatch ms st
             = mkStats (fold_left bump (flat_map slotIds ms) (gamesPlayed st))
                       (fold_left tally (flat_map teamKeys ms) (partnerCount st))
                       (fold_left tally (flat_map crossKeys ms) (opponentCount st))).
  { intros ms. rewrite <- applyMatch_games, <- applyMatch_partner, <- applyMatch_opponent.
    now destruct (fold_left applyMatch ms st). }
  rewrite !H. f_equal.
  - apply bump_fold_perm, sameViews_ids.
  - apply tally_fold_perm, sameViews_teamKeys.
  - apply tally_fold_perm, sameViews_crossKeys.
Qed.

End SameViews.

(** X4: Two histories whose matches show the same first two players of each
    team, in whatever order the matches come and however they are
    grouped into rounds, give the same counters, the same coverage and,
    for the same shuffle, the same round: court numbers, results, dates
    and the players past the second of a team are not looked at. *)
Theorem history_read_through_teams (players : list Player) (h1 h2 : list SavedRound) :
  Permutation (map matchView (historyMatches h1)) (map matchView (historyMatches h2)) ->
  computeStats players h1 = computeStats players h2 /\
  partnerCoverage players h1 = partnerCoverage players h2 /\
  forall shuffle courtsWanted,
    generateFairRound shuffle players courtsWanted h1
    = generateFairRound shuffle players courtsWanted h2.
Proof.
  intros Hperm.
  assert (Hwf : wfHistory h1 = wfHistory h2) by now apply sameViews_wf.
  assert (Hstats : computeStats players h1 = computeStats players h2).
  { destruct (wfHistory h2) eqn:H2.
    - rewrite !computeStats_wf by assumption. f_equal. now apply sameViews_stats.
    - now rewrite !computeStats_illformed by assumption. }
  split; [exact Hstats|]. split.
  - destruct (Nat.le_gt_cases (length players) 1) as [Hn|Hn].
    + now rewrite !partnerCoverage_small by exact Hn.
    + destruct (wfHistory h2) eqn:H2.
      * rewrite !partnerCoverage_wf by assumption.
        assert (Hseen : seenKeys h1 = seenKeys h2).
        { unfold seenKeys. apply set_eq. intros k. rewrite !elem_of_list_to_set.
          now rewrite (sameViews_teamKeys _ _ Hperm). }
        now rewrite Hseen.
      * rewrite !partnerCoverage_illformed by (trivial; lia). reflexivity.
  - intros shuffle courtsWanted. unfold generateFairRound. now rewrite Hstats.
Qed.

Lemma history_read_through_teams_witness :
  computeStats roster8 [firstRound]
  = computeStats roster8
      [SavedRound.mk "late" 7 1 [Match.mk 9 [letter 4; letter 5] [letter 6; letter 7]] [];
       SavedRound.mk "early" 3 1
         [Match.mk 9 [letter 0; letter 1; letter 6] [letter 2; letter 3]] []].
Proof.
  apply (history_read_through_teams roster8 [firstRound]).
  vm_compute. apply perm_swap.
Defined.

(** ** The score of a split *)

Lemma partner_sym (stats : Stats) (x y : string) : partner stats x y = partner stats y x.
Proof. unfold partner. now rewrite makeKey_comm. Qed.

Lemma opp_comm (stats : Stats) (x y : string) : opp stats x y = opp stats y x.
Proof. unfold opp. now rewrite makeKey_comm. Qed.

Lemma matchScore_cong (stats : Stats) (a b c d a' b' c' d' : Player) :
  jsLift2 Z.add (times 14 (partner stats (Player.id a) (Player.id b)))
                (times 14 (partner stats (Player.id c) (Player.id d)))
  = jsLift2 Z.add (times 14 (partner stats (Player.id a') (Player.id b')))
                  (times 14 (partner stats (Player.id c') (Player.id d'))) ->
  times 3 (plus (plus (plus (opp stats (Player.id a) (Player.id c))
                            (opp stats (Player.id a) (Player.id d)))
                      (opp stats (Player.id b) (Player.id c)))
                (opp stats (Player.id b) (Player.id d)))
  = times 3 (plus (plus (plus (opp stats (Player.id a') (Player.id c'))
                              (opp stats (Player.id a') (Player.id d')))
                        (opp stats (Player.id b') (Player.id c')))
                  (opp stats (Player.id b') (Player.id d'))) ->
  toNumber (plus (plus (plus (gp stats (Player.id a)) (gp stats (Player.id b)))
                       (gp stats (Player.id c)))
                 (gp stats (Player.id d)))
  = toNumber (plus (plus (plus (gp stats (Player.id a')) (gp stats (Player.id b')))
                         (gp stats (Player.id c')))
                   (gp stats (Player.id d'))) ->
  matchScore stats a b c d = matchScore stats a' b' c' d'.
Proof. unfold matchScore. cbv zeta. now intros -> -> ->. Qed.

(** X5: The score of a match does not change when the two players of a team
    swap places or when the two teams swap sides, so the three options
    [bestSplitForFour] compares stand for all the ways to seat four
    players. *)
Theorem match_score_symmetric (stats : Stats) (a b c d : Player) :
  matchScore stats b a c d = matchScore stats a b c d /\
  matchScore stats a b d c = matchScore stats a b c d /\
  matchScore stats c d a b = matchScore stats a b c d.
Proof.
  repeat split; apply matchScore_cong; unfold times; rewrite ?toNumber_plus.
  - now rewrite (partner_sym stats (Player.id b) (Player.id a)).
  - by_cases.
  - by_cases.
  - now rewrite (partner_sym stats (Player.id d) (Player.id c)).
  - by_cases.
  - by_cases.
  - by_cases.
  - rewrite (opp_comm stats (Player.id c) (Player.id a)),
            (opp_comm stats (Player.id c) (Player.id b)),
            (opp_comm stats (Player.id d) (Player.id a)),
            (opp_comm stats (Player.id d) (Player.id b)). by_cases.
  - by_cases.
Qed.

(** ** The fields of a coverage *)

Lemma percentOf_full (done total : Z) : 0 < total -> total <= done -> percentOf done total = 100.
Proof.
  intros Ht Hd. unfold percentOf.
  assert (H : mathRound (toDouble (toDouble 1 * 100))
              <= mathRound (toDouble (toDouble (inject_Z done / inject_Z total) * 100))).
  { apply scaled_monotone; [discriminate|].
    apply Qle_shift_div_l.
    - rewrite <- (Zlt_Qlt 0). exact Ht.
    - rewrite Qmult_1_l. now rewrite <- Zle_Qle. }
  assert (H100 : mathRound (toDouble (toDouble 1 * 100)) = 100) by (vm_compute; reflexivity).
  lia.
Qed.

(** X6: Whatever coverage is returned, the total is the number of pairs of
    the roster, the percentage lies between 0 and 100, the number of
    missing pairs between 0 and the total, the coverage is complete
    exactly when no pair is missing, and a complete coverage shows 100
    percent. *)
Theorem coverage_fields_consistent (players : list Player) (history : list SavedRound)
    (c : Coverage) :
  partnerCoverage players history = Return c ->
  let n := Z.of_nat (length players) in
  totalPairs c = n * (n - 1) / 2 /\
  0 <= percent c <= 100 /\
  0 <= missingPairs c <= totalPairs c /\
  (complete c = true <-> missingPairs c = 0) /\
  (complete c = true -> percent c = 100).
Proof.
  intros E n.
  destruct (Nat.le_gt_cases (length players) 1) as [Hn|Hn].
  - rewrite partnerCoverage_small in E by exact Hn. injection E as <-. simpl.
    assert (Hcases : n = 0 \/ n = 1) by lia.
    destruct Hcases as [-> | ->]; repeat split; try reflexivity; lia.
  - pose proof (partnerCoverage_returns _ _ _ E ltac:(lia)) as Hwf.
    rewrite partnerCoverage_wf in E by exact Hwf. cbv zeta in E. fold n in E.
    destruct (Z.leb_spec n 1) as [?|_]; [lia|]. injection E as <-. simpl.
    set (done := Z.of_nat (size (seenKeys history))).
    assert (Hpos : 0 < n * (n - 1) / 2).
    { apply Z.div_str_pos. nia. }
    split; [reflexivity|]. split; [unfold percentOf; lia|]. split; [lia|]. split.
    + rewrite Z.leb_le. lia.
    + rewrite Z.leb_le. intros Hd. now apply percentOf_full.
Qed.

Lemma coverage_fields_consistent_witness :
  totalPairs (mkCoverage false 14 24 28) = 8 * (8 - 1) / 2 /\
  0 <= percent (mkCoverage false 14 24 28) <= 100 /\
  0 <= missingPairs (mkCoverage false 14 24 28) <= totalPairs (mkCoverage false 14 24 28) /\
  (complete (mkCoverage false 14 24 28) = true <-> missingPairs (mkCoverage false 14 24 28) = 0) /\
  (complete (mkCoverage false 14 24 28) = true -> percent (mkCoverage false 14 24 28) = 100).
Proof.
  apply (coverage_fields_consistent roster8 [firstRound]). vm_compute. reflexivity.
Defined.

(** ** The recommended number of rounds, exactly *)

Lemma recommend_bracket (N C : Z) :
  4 <= N ->
  let c := Z.max 1 (Z.min C (N / 4)) in
  let R := recommendRoundsPartner N C in
  1 <= R /\ N * (N - 1) <= R * (4 * c) /\ (R - 1) * (4 * c) < N * (N - 1).
Proof.
  intros HN c R. subst c R.
  pose proof (recommend_covers N C HN) as Hcov.
  split; [|split; [lia|]].
  - unfold recommendRoundsPartner. destruct (Z.ltb_spec N 4); lia.
  - unfold recommendRoundsPartner.
    destruct (Z.ltb_spec N 4) as [?|_]; [lia|].
    assert (Hp : 1 <= N / 4) by (apply Z.div_le_lower_bound; lia).
    destruct (Z.eqb_spec (N / 4) 0) as [?|_]; [lia|].
    set (c := Z.max 1 (Z.min C (N / 4))).
    assert (Hc : 1 <= c) by (unfold c; lia).
    set (num := N * (N - 1)).
    assert (Hnum : 0 < num) by (unfold num; nia).
    set (q := (inject_Z num / inject_Z (4 * c))%Q).
    assert (Hq : (Qceiling q - 1) * (4 * c) < num).
    { pose proof (Qceiling_lt q) as H.
      assert (Hden : (0 < inject_Z (4 * c))%Q).
      { change 0%Q with (inject_Z 0). rewrite <- Zlt_Qlt. lia. }
      apply (Qmult_lt_r _ _ _ Hden) in H.
      unfold q in H at 2. unfold Qdiv in H.
      rewrite <- Qmult_assoc, (Qmult_comm (/ _)), Qmult_inv_r, Qmult_1_r in H
        by (intros E; rewrite E in Hden; discriminate Hden).
      rewrite <- inject_Z_mult in H.
      rewrite Zlt_Qlt. exact H. }
    nia.
Qed.

(** X7: With at least four players, and few enough of them for the
    product N * (N - 1) to be exact in a double, a round on [c] courts,
    [c] being the court count clamped between one and a quarter of the
    roster, forms [2 * c] teams, and the recommendation is the least
    number of rounds that form as many teams as there are pairs of
    players. *)
Theorem recommend_is_least (N C : Z) :
  4 <= N -> N * (N - 1) < 2 ^ 53 ->
  let c := Z.max 1 (Z.min C (N / 4)) in
  let R := recommendRoundsPartner N C in
  N * (N - 1) / 2 <= R * (2 * c) /\ (R - 1) * (2 * c) < N * (N - 1) / 2.
Proof.
  intros HN _ c R. destruct (recommend_bracket N C HN) as (HR & Hle & Hlt).
  fold c R in HR, Hle, Hlt.
  assert (Heven : N * (N - 1) = 2 * (N * (N - 1) / 2)).
  { apply Z_div_exact_2; [lia|].
    replace (N * (N - 1)) with (N * N - N) by ring.
    rewrite Zminus_mod, Z.mul_mod by lia.
    pose proof (Z.mod_pos_bound N 2 ltac:(lia)) as Hb.
    assert (Hcases : N mod 2 = 0 \/ N mod 2 = 1) by lia.
    destruct Hcases as [-> | ->]; reflexivity. }
  lia.
Qed.

Lemma recommend_is_least_witness :
  8 * (8 - 1) / 2 <= recommendRoundsPartner 8 2 * (2 * Z.max 1 (Z.min 2 (8 / 4))) /\
  (recommendRoundsPartner 8 2 - 1) * (2 * Z.max 1 (Z.min 2 (8 / 4))) < 8 * (8 - 1) / 2.
Proof. apply (recommend_is_least 8 2); [lia | reflexivity]. Defined.

(** X8: With at least four players the recommendation is at least one
    round, more courts never raise it, and courts below one or beyond a
    quarter of the roster count as the nearest court count in between. *)
Theorem recommend_antitone_in_courts (N C C' : Z) :
  4 <= N -> C <= C' ->
  1 <= recommendRoundsPartner N C' <= recommendRoundsPartner N C /\
  recommendRoundsPartner N C = recommendRoundsPartner N (Z.max 1 (Z.min C (N / 4))).
Proof.
  intros HN HC.
  destruct (recommend_bracket N C HN) as (HR & Hle & Hlt).
  destruct (recommend_bracket N C' HN) as (HR' & Hle' & Hlt').
  cbv zeta in *.
  set (c := Z.max 1 (Z.min C (N / 4))) in *.
  set (c' := Z.max 1 (Z.min C' (N / 4))) in *.
  assert (Hcc : 1 <= c <= c') by (unfold c, c'; lia).
  split; [split; [exact HR' | nia]|].
  assert (Hp : 1 <= N / 4) by (apply Z.div_le_lower_bound; lia).
  assert (E : Z.max 1 (Z.min c (if N / 4 =? 0 then 1 else N / 4))
              = Z.max 1 (Z.min C (if N / 4 =? 0 then 1 else N / 4))).
  { unfold c. destruct (Z.eqb_spec (N / 4) 0); lia. }
  unfold recommendRoundsPartner. now rewrite E.
Qed.

Lemma recommend_antitone_in_courts_witness :
  1 <= recommendRoundsPartner 9 2 <= recommendRoundsPartner 9 1 /\
  recommendRoundsPartner 9 1 = recommendRoundsPartner 9 (Z.max 1 (Z.min 1 (9 / 4))).
Proof. apply (recommend_antitone_in_courts 9 1 2); lia. Defined.

(** ** What a complete coverage means *)

Lemma pairKeys_in (ids : list string) (x y : string) :
  x ∈ ids -> y ∈ ids -> x <> y -> makeKey x y ∈ pairKeys ids.
Proof.
  induction ids as [|z rest IH]; intros Hx Hy Hne; [inversion Hx|].
  simpl. apply elem_of_app.
  apply elem_of_cons in Hx as [->|Hx]; apply elem_of_cons in Hy as [->|Hy].
  - congruence.
  - left. apply list_elem_of_fmap. eauto.
  - left. rewrite makeKey_comm. apply list_elem_of_fmap. eauto.
  - right. now apply IH.
Qed.

Lemma pairKeys_inv (ids : list string) (k : string) :
  NoDup ids -> k ∈ pairKeys ids ->
  exists x y, x ∈ ids /\ y ∈ ids /\ x <> y /\ k = makeKey x y.
Proof.
  induction ids as [|z rest IH]; intros Hnd Hk; [inversion Hk|].
  apply NoDup_cons in Hnd as [Hz Hnd]. simpl in Hk.
  apply elem_of_app in Hk as [Hk|Hk].
  - apply list_elem_of_fmap in Hk as (y & -> & Hy).
    exists z, y. repeat split; [left | now right | congruence].
  - destruct (IH Hnd Hk) as (x & y & Hx & Hy & Hne & ->).
    exists x, y. repeat split; trivial; now right.
Qed.

Lemma plainIds_elem (ids : list string) (x : string) :
  plainIds ids -> x ∈ ids -> underscoreFree x = true.
Proof. unfold plainIds. rewrite Forall_forall. auto. Qed.

Lemma pairKeys_NoDup (ids : list string) :
  NoDup ids -> plainIds ids -> NoDup (pairKeys ids).
Proof.
  induction ids as [|z rest IH]; intros Hnd Hpl; [constructor|].
  apply NoDup_cons in Hnd as [Hz Hnd].
  pose proof (plainIds_elem _ z Hpl ltac:(left)) as Uz.
  assert (Hpl' : plainIds rest) by (apply Forall_cons in Hpl; tauto).
  simpl. apply NoDup_app. split; [|split].
  - apply NoDup_fmap_2_strong; [|exact Hnd].
    intros x y Hx Hy E. apply makeKey_inj in E; eauto using plainIds_elem.
    destruct E as [[_ E]|[E _]]; [exact E|]. subst. contradiction.
  - intros k Hk Hk'. apply list_elem_of_fmap in Hk as (y & -> & Hy).
    destruct (pairKeys_inv rest _ Hnd Hk') as (u & v & Hu & Hv & Hne & E).
    apply makeKey_inj in E; eauto using plainIds_elem.
    destruct E as [[-> _]|[-> _]]; contradiction.
  - now apply IH.
Qed.

Lemma pairKeys_length (ids : list string) :
  Z.of_nat (length (pairKeys ids))
  = Z.of_nat (length ids) * (Z.of_nat (length ids) - 1) / 2.
Proof.
  assert (H : 2 * Z.of_nat (length (pairKeys ids))
              = Z.of_nat (length ids) * (Z.of_nat (length ids) - 1)).
  { induction ids as [|z rest IH]; [reflexivity|].
    simpl pairKeys. rewrite length_app, length_map. simpl length. nia. }
  rewrite <- H, Z.mul_comm, Z.div_mul by lia. reflexivity.
Qed.

Lemma teamKeys_partnersIn (m : Match) (x y : string) :
  wfMatch m = true -> plainIds (slotIds m) ->
  underscoreFree x = true -> underscoreFree y = true ->
  makeKey x y ∈ teamKeys m <-> partnersIn x y m.
Proof.
  intros Hwf Hpl Ux Uy.
  destruct (wfMatch_slots m Hwf) as (a1 & a2 & b1 & b2 & Hs & _).
  destruct (wfMatch_teams m _ _ _ _ Hwf Hs) as [EA EB].
  destruct (wfMatch_keys m _ _ _ _ Hs) as (Ek & _).
  rewrite Hs in Hpl. destruct (plainIds4 _ _ _ _ Hpl) as (U1 & U2 & U3 & U4).
  rewrite Ek, !elem_of_cons, elem_of_nil. unfold partnersIn.
  rewrite (isTeam_key x y a1 a2 (Match.teamA m)), (isTeam_key x y b1 b2 (Match.teamB m))
    by assumption.
  intuition congruence.
Qed.

Lemma pairKeys_pairsOf (ids : list string) :
  pairKeys ids = map (fun xy => makeKey xy.1 xy.2) (pairsOf ids).
Proof.
  induction ids as [|z rest IH]; [reflexivity|].
  simpl. rewrite map_app, map_map, IH. reflexivity.
Qed.

Lemma pairsOf_elem (ids : list string) (x y : string) :
  (x, y) ∈ pairsOf ids -> x ∈ ids /\ y ∈ ids.
Proof.
  induction ids as [|z rest IH]; intros H; [inversion H|].
  simpl in H. apply elem_of_app in H as [H|H].
  - apply list_elem_of_fmap in H as (y' & E & Hy). injection E as -> ->.
    split; [left | now right].
  - destruct (IH H). split; now right.
Qed.

Lemma pairsOf_distinct (ids : list string) (x y : string) :
  NoDup ids -> (x, y) ∈ pairsOf ids -> x <> y.
Proof.
  induction ids as [|z rest IH]; intros Hnd H; [inversion H|].
  apply NoDup_cons in Hnd as [Hz Hnd]. simpl in H.
  apply elem_of_app in H as [H|H]; [|now apply IH].
  apply list_elem_of_fmap in H as (y' & E & Hy'). injection E as -> ->.
  intros ->. contradiction.
Qed.

Lemma pairsOf_in (ids : list string) (x y : string) :
  x ∈ ids -> y ∈ ids -> x <> y -> (x, y) ∈ pairsOf ids \/ (y, x) ∈ pairsOf ids.
Proof.
  induction ids as [|z rest IH]; intros Hx Hy Hne; [inversion Hx|].
  simpl. rewrite !elem_of_app.
  apply elem_of_cons in Hx as [->|Hx]; apply elem_of_cons in Hy as [->|Hy].
  - congruence.
  - left. left. apply list_elem_of_fmap. eauto.
  - right. left. apply list_elem_of_fmap. eauto.
  - destruct (IH Hx Hy Hne); tauto.
Qed.

Lemma length_filter_fmap {A B} (f : A -> B) (P : B -> Prop) `{!forall y, Decision (P y)}
    (l : list A) :
  length (filter P (map f l)) = length (filter (fun x => P (f x)) l).
Proof.
  induction l as [|x l IH]; [reflexivity|].
  simpl map. rewrite !filter_cons. destruct (decide (P (f x))); simpl; now rewrite IH.
Qed.

Lemma filter_none {A} (P : A -> Prop) `{!forall x, Decision (P x)} (l : list A) :
  (forall x, x ∈ l -> ~ P x) -> filter P l = [].
Proof.
  induction l as [|x l IH]; intros Hno; [reflexivity|].
  rewrite filter_cons_False by (apply Hno; left).
  apply IH. intros y Hy. apply Hno. now right.
Qed.

Lemma length_filter_ext {A} (P Q : A -> Prop) `{!forall x, Decision (P x)}
    `{!forall x, Decision (Q x)} (l : list A) :
  (forall x, x ∈ l -> P x <-> Q x) -> length (filter P l) = length (filter Q l).
Proof. intros Hext. now rewrite (filter_ext_in P Q l Hext). Qed.

Lemma everPartners_key (history : list SavedRound) (x y : string) :
  wfHistory history = true -> plainIds (historyIds history) ->
  underscoreFree x = true -> underscoreFree y = true ->
  makeKey x y ∈ seenKeys history <-> everPartners x y history.
Proof.
  intros Hwf Hpl Ux Uy. unfold seenKeys, everPartners.
  rewrite elem_of_list_to_set, elem_of_flat_map, Exists_exists.
  assert (Hm : forall m, m ∈ historyMatches history ->
                         (makeKey x y ∈ teamKeys m <-> partnersIn x y m)).
  { intros m Hin. apply teamKeys_partnersIn; trivial.
    - eapply forallb_elem; eauto.
    - apply Forall_forall. intros z Hz. eapply plainIds_elem; [exact Hpl|].
      apply elem_of_flat_map. eauto. }
  split; intros (m & Hin & H); exists m; (split; [exact Hin|]); now apply Hm.
Qed.

Lemma everPartners_sym (history : list SavedRound) (x y : string) :
  everPartners x y history -> everPartners y x history.
Proof.
  unfold everPartners. rewrite !Exists_exists.
  intros (m & Hin & H). exists m. split; [exact Hin | now apply partnersIn_sym].
Qed.

(** The keys seen in a history of the roster's players are keys of
    pairs of the roster. *)
Lemma seenKeys_roster (ids : list string) (history : list SavedRound) (k : string) :
  wfHistory history = true ->
  (forall x, x ∈ historyIds history -> x ∈ ids) ->
  (forall m, m ∈ historyMatches history -> NoDup (slotIds m)) ->
  k ∈ seenKeys history -> k ∈ pairKeys ids.
Proof.
  intros Hwf Hin Hdist Hk. unfold seenKeys in Hk.
  apply elem_of_list_to_set, elem_of_flat_map in Hk as (m & Hm & Hk).
  destruct (wfMatch_slots m (forallb_elem _ _ _ Hwf Hm)) as (a1 & a2 & b1 & b2 & Hs & _).
  destruct (wfMatch_keys m _ _ _ _ Hs) as (Ek & _).
  pose proof (Hdist m Hm) as Hnd. rewrite Hs in Hnd.
  destruct (NoDup4 _ _ _ _ Hnd) as (N12 & _ & _ & _ & _ & N34).
  assert (Hall : forall z, z ∈ [a1; a2; b1; b2] -> z ∈ ids).
  { intros z Hz. apply Hin, elem_of_flat_map. exists m. now rewrite Hs. }
  rewrite Ek, !elem_of_cons, elem_of_nil in Hk.
  destruct Hk as [->|[->|[]]]; apply pairKeys_in; trivial; apply Hall;
    rewrite !elem_of_cons; tauto.
Qed.

Lemma missing_count (ids : list string) (history : list SavedRound) :
  NoDup ids -> plainIds ids -> wfHistory history = true ->
  (forall x, x ∈ historyIds history -> x ∈ ids) ->
  (forall m, m ∈ historyMatches history -> NoDup (slotIds m)) ->
  Z.of_nat (length (pairKeys ids)) - Z.of_nat (size (seenKeys history))
  = Z.of_nat (length (filter (fun xy => ~ everPartners xy.1 xy.2 history) (pairsOf ids))).
Proof.
  intros Hnd Hpl Hwf Hin Hdist.
  assert (Hplh : plainIds (historyIds history)).
  { apply Forall_forall. intros z Hz. eapply plainIds_elem; eauto. }
  assert (Hseen : seenKeys history
                  = list_to_set (filter (fun k => k ∈ seenKeys history) (pairKeys ids))).
  { apply set_eq. intros k. rewrite elem_of_list_to_set, list_elem_of_filter.
    split; [|tauto]. intros Hk. split; [exact Hk|]. eapply seenKeys_roster; eauto. }
  rewrite Hseen at 1.
  rewrite size_list_to_set by (apply NoDup_filter; now apply pairKeys_NoDup).
  pose proof (filter_app_complement (fun k => k ∈ seenKeys history) (pairKeys ids)) as Hc.
  apply Permutation_length in Hc. rewrite length_app in Hc.
  replace (Z.of_nat (length (pairKeys ids))
           - Z.of_nat (length (filter (fun k => k ∈ seenKeys history) (pairKeys ids))))
    with (Z.of_nat (length (filter (fun k => k ∉ seenKeys history) (pairKeys ids))))
    by lia.
  f_equal. rewrite pairKeys_pairsOf, length_filter_fmap.
  apply length_filter_ext. intros [x y] Hxy. simpl.
  destruct (pairsOf_elem ids x y Hxy) as [Hx Hy].
  rewrite everPartners_key by eauto using plainIds_elem. reflexivity.
Qed.

(** X9: For a roster of distinct identifiers free of underscores and a
    history played by players of the roster only, each match by four
    different players: the number of missing pairs that is returned is
    the number of pairs of players of the roster that have not been
    partners yet, and the coverage is complete exactly when every two
    players of the roster have been. *)
Theorem complete_means_all_partnered (players : list Player) (history : list SavedRound)
    (c : Coverage) :
  NoDup (map Player.id players) -> plainIds (map Player.id players) ->
  (forall x, x ∈ historyIds history -> x ∈ map Player.id players) ->
  (forall m, m ∈ historyMatches history -> NoDup (slotIds m)) ->
  partnerCoverage players history = Return c ->
  missingPairs c
  = Z.of_nat (length (filter (fun xy => ~ everPartners xy.1 xy.2 history)
                             (pairsOf (map Player.id players)))) /\
  (complete c = true <->
   forall x y, x ∈ map Player.id players -> y ∈ map Player.id players -> x <> y ->
               everPartners x y history).
Proof.
  intros Hnd Hpl Hin Hdist E.
  set (ids := map Player.id players) in *.
  set (missing := filter (fun xy => ~ everPartners xy.1 xy.2 history) (pairsOf ids)).
  assert (Hall : missing = [] <->
                 forall x y, x ∈ ids -> y ∈ ids -> x <> y -> everPartners x y history).
  { split.
    - intros Hnil x y Hx Hy Hne.
      destruct (decide (everPartners x y history)) as [|Hno]; [assumption|].
      destruct (decide (everPartners y x history)) as [H|Hno'];
        [now apply everPartners_sym|].
      exfalso. assert (Hempty : forall xy, xy ∉ missing).
      { intros xy. rewrite Hnil. apply not_elem_of_nil. }
      destruct (pairsOf_in ids x y Hx Hy Hne) as [Hp|Hp].
      + apply (Hempty (x, y)). apply list_elem_of_filter. auto.
      + apply (Hempty (y, x)). apply list_elem_of_filter. auto.
    - intros Hev. apply filter_none.
      intros [x y] Hxy H. simpl in H. apply H.
      destruct (pairsOf_elem ids x y Hxy) as [Hx Hy]. apply Hev; trivial.
      eapply pairsOf_distinct; eauto. }
  destruct (Nat.le_gt_cases (length players) 1) as [Hn|Hn].
  - rewrite partnerCoverage_small in E by exact Hn. injection E as <-. simpl.
    assert (Hnil : pairsOf ids = []).
    { unfold ids. destruct players as [|p [|q l]]; try reflexivity. simpl in Hn. lia. }
    assert (Hm : missing = []) by (unfold missing; now rewrite Hnil).
    rewrite Hm. split; [reflexivity|]. split; [intros _; now apply Hall | reflexivity].
  - pose proof (partnerCoverage_returns _ _ _ E ltac:(lia)) as Hwf.
    rewrite partnerCoverage_wf in E by exact Hwf. cbv zeta in E.
    destruct (Z.leb_spec (Z.of_nat (length players)) 1) as [?|_]; [lia|].
    injection E as <-. simpl.
    pose proof (missing_count ids history Hnd Hpl Hwf Hin Hdist) as Hcount.
    fold missing in Hcount.
    rewrite pairKeys_length in Hcount. unfold ids in Hcount at 1 2.
    rewrite length_map in Hcount.
    split; [lia|]. rewrite <- Hall, Z.leb_le.
    split; intros H.
    + apply length_zero_iff_nil. lia.
    + rewrite H in Hcount. simpl in Hcount. lia.
Qed.

Lemma complete_means_all_partnered_witness :
  let history :=
    [SavedRound.mk "r3" 3 1 [Match.mk 1 [letter 0; letter 3] [letter 1; letter 2]] [];
     SavedRound.mk "r2" 2 1 [Match.mk 1 [letter 0; letter 2] [letter 1; letter 3]] [];
     SavedRound.mk "r1" 1 1 [Match.mk 1 [letter 0; letter 1] [letter 2; letter 3]] []] in
  let c := mkCoverage true 100 0 6 in
  missingPairs c
  = Z.of_nat (length (filter (fun xy => ~ everPartners xy.1 xy.2 history)
                             (pairsOf (map Player.id roster4)))) /\
  (complete c = true <->
   forall x y, x ∈ map Player.id roster4 -> y ∈ map Player.id roster4 -> x <> y ->
               everPartners x y history).
Proof.
  intros history c. apply (complete_means_all_partnered roster4 history c).
  - apply (bool_decide_unpack _). vm_compute. reflexivity.
  - apply (bool_decide_unpack _). vm_compute. reflexivity.
  - apply Forall_forall. apply (bool_decide_unpack _). vm_compute. reflexivity.
  - apply Forall_forall. apply (bool_decide_unpack _). vm_compute. reflexivity.
  - vm_compute. reflexivity.
Defined.

(** ** The first round *)

Lemma choose_zero {A} (l : list A) : choose 0 l = [[]].
Proof. now destruct l. Qed.

(** The first four players are the first combination. *)
Lemma choose_first {A} (p q r s : A) (rest : list A) :
  exists gs, choose 4 (p :: q :: r :: s :: rest) = [p; q; r; s] :: gs.
Proof. simpl. rewrite choose_zero. simpl. eexists. reflexivity. Qed.

Lemma removeChosen_first (p q r s : Player) (rest : list Player) :
  NoDup (map Player.id (p :: q :: r :: s :: rest)) ->
  removeChosen (list_to_set (map Player.id [p; q; r; s])) (p :: q :: r :: s :: rest) = rest.
Proof.
  intros Hnd. rewrite removeChosen_spec; [|exact Hnd|].
  - pose proof (NoDup_ids_NoDup _ Hnd) as Hnd'.
    apply NoDup_cons in Hnd' as [Hp Hnd']. apply NoDup_cons in Hnd' as [Hq Hnd'].
    apply NoDup_cons in Hnd' as [Hr Hnd']. apply NoDup_cons in Hnd' as [Hs Hnd'].
    rewrite !filter_cons_False by (rewrite !elem_of_cons; tauto).
    apply filter_all. intros x Hx. rewrite !elem_of_cons, elem_of_nil.
    intros [->|[->|[->|[->|[]]]]]; [apply Hp | apply Hq | apply Hr | apply Hs];
      rewrite ?elem_of_cons; tauto.
  - intros x. rewrite !elem_of_cons, elem_of_nil. tauto.
Qed.

Section NoHistory.
Variable players : list Player.

Lemma first_stats : statsOf players [] = mkStats (initialGames players) ∅ ∅.
Proof. reflexivity. Qed.

(** With no round saved every counter reads zero, or no number under a
    name that is inherited. *)
Lemma first_gp (x : string) : flat (toNumber (gp (statsOf players []) x)).
Proof.
  unfold gp, read. rewrite first_stats. simpl gamesPlayed. rewrite initialGames_lookup.
  destruct (decide (x ∈ map Player.id players /\ x <> "__proto__")); [now left|].
  destruct (decide (x ∈ prototypeNames)); [now right | now left].
Qed.

Lemma first_partner (x y : string) : flat (toNumber (partner (statsOf players []) x y)).
Proof.
  unfold partner, read. rewrite first_stats. simpl partnerCount. rewrite lookup_empty.
  destruct (decide (makeKey x y ∈ prototypeNames)); [now right | now left].
Qed.

Lemma first_opp (x y : string) : flat (toNumber (opp (statsOf players []) x y)).
Proof.
  unfold opp, read. rewrite first_stats. simpl opponentCount. rewrite lookup_empty.
  destruct (decide (makeKey x y ∈ prototypeNames)); [now right | now left].
Qed.

Lemma flat_add (m n : jsval Z) : flat m -> flat n -> flat (jsLift2 Z.add m n).
Proof. intros [->| ->] [->| ->]; (now left) || (now right). Qed.

Lemma flat_mul (k : Z) (n : jsval Z) : flat n -> flat (jsMap (Z.mul k) n).
Proof.
  intros [->| ->]; [left | now right]. simpl. now rewrite Z.mul_0_r.
Qed.

Lemma first_score (a b c d : Player) : level (matchScore (statsOf players []) a b c d).
Proof.
  unfold matchScore, times. rewrite !toNumber_plus.
  set (stats := statsOf players []).
  assert (Hp : flat (jsLift2 Z.add
                       (jsMap (Z.mul 14) (toNumber (partner stats (Player.id a) (Player.id b))))
                       (jsMap (Z.mul 14) (toNumber (partner stats (Player.id c) (Player.id d))))))
    by (apply flat_add; apply flat_mul, first_partner).
  assert (Ho : flat (jsMap (Z.mul 3)
                       (jsLift2 Z.add
                          (jsLift2 Z.add
                             (jsLift2 Z.add (toNumber (opp stats (Player.id a) (Player.id c)))
                                            (toNumber (opp stats (Player.id a) (Player.id d))))
                             (toNumber (opp stats (Player.id b) (Player.id c))))
                          (toNumber (opp stats (Player.id b) (Player.id d))))))
    by (apply flat_mul; repeat apply flat_add; apply first_opp).
  assert (Hg : flat (jsLift2 Z.add
                       (jsLift2 Z.add
                          (jsLift2 Z.add (toNumber (gp stats (Player.id a)))
                                         (toNumber (gp stats (Player.id b))))
                          (toNumber (gp stats (Player.id c))))
                       (toNumber (gp stats (Player.id d)))))
    by (repeat apply flat_add; apply first_gp).
  cbv zeta.
  destruct Hp as [-> | ->], Ho as [-> | ->], Hg as [-> | ->];
    (now left) || (now right).
Qed.

Lemma level_not_less (x y : jsval Q) : level x -> level y -> jsLtQ x y = false.
Proof. intros [->| ->] [->| ->]; reflexivity. Qed.

Lemma level_not_after (x y : jsval Q) :
  level x -> level y -> positiveQ (jsLift2 Qminus x y) = false.
Proof. intros [->| ->] [->| ->]; reflexivity. Qed.

Lemma first_split (p q r s : Player) :
  bestSplitForFour (statsOf players []) p q r s
  = Split.mk p q r s (matchScore (statsOf players []) p q r s).
Proof.
  unfold bestSplitForFour. cbn [jsSort jsInsert Split.score].
  rewrite (level_not_after _ _ (first_score p r q s) (first_score p s q r)).
  cbn [jsInsert Split.score].
  rewrite (level_not_after _ _ (first_score p q r s) (first_score p r q s)).
  reflexivity.
Qed.

Lemma first_keep (b : Best.t) (gs : list (list Player)) :
  level (Best.score b) ->
  fold_left (considerGroup (statsOf players [])) gs (Some b) = Some b.
Proof.
  intros Hb. induction gs as [|g gs IH]; [reflexivity|].
  simpl. replace (considerGroup (statsOf players []) (Some b) g) with (Some b); [exact IH|].
  destruct g as [|p [|q [|r [|s [|]]]]]; try reflexivity.
  unfold considerGroup, consider. rewrite first_split. simpl Split.score.
  now rewrite (level_not_less _ _ (first_score p q r s) Hb).
Qed.

Lemma first_search (p q r s : Player) (rest : list Player) :
  searchBest (statsOf players []) (p :: q :: r :: s :: rest)
  = Some (Best.mk [p; q; r; s]
                  (Split.mk p q r s (matchScore (statsOf players []) p q r s))
                  (matchScore (statsOf players []) p q r s)).
Proof.
  rewrite searchBest_fold.
  destruct (choose_first p q r s rest) as [gs ->]. cbn [fold_left].
  unfold considerGroup at 2. unfold consider. rewrite first_split. simpl Split.score.
  cbv iota. apply first_keep. simpl. apply first_score.
Qed.

Lemma first_courts (todo : nat) (court : Z) (pool : list Player) :
  NoDup (map Player.id pool) ->
  map snd (courtLoop (statsOf players []) todo court pool) = inOrder todo court pool.
Proof.
  revert court pool. induction todo as [|todo IH]; intros court pool Hnd; [reflexivity|].
  destruct pool as [|p [|q [|r [|s rest]]]]; try reflexivity.
  cbn [courtLoop inOrder]. rewrite first_search.
  destruct (Nat.ltb_spec (length (p :: q :: r :: s :: rest)) 4) as [Hlt|_];
    [simpl in Hlt; lia|].
  cbn [Best.split Best.group]. rewrite removeChosen_first by exact Hnd.
  cbn [map snd matchOfSplit Split.a Split.b Split.c Split.d].
  f_equal. apply IH. simpl in Hnd. now do 4 (apply NoDup_cons in Hnd as [_ Hnd]).
Qed.

Lemma first_ranking (l : list Player) : byGames (statsOf players []) l = l.
Proof.
  unfold byGames. induction l as [|x l IH]; [reflexivity|].
  simpl. rewrite IH. destruct l as [|y l']; [reflexivity|].
  simpl. unfold afterByGames.
  destruct (first_gp (Player.id x)) as [-> | ->], (first_gp (Player.id y)) as [-> | ->];
    reflexivity.
Qed.

End NoHistory.

Lemma inOrder_take (todo : nat) (court : Z) (l : list Player) :
  inOrder todo court (take (4 * todo) l) = inOrder todo court l.
Proof.
  revert court l. induction todo as [|todo IH]; intros court l; [reflexivity|].
  replace (4 * S todo)%nat with (S (S (S (S (4 * todo))))) by lia.
  destruct l as [|p [|q [|r [|s rest]]]]; try reflexivity.
  simpl take. cbn [inOrder]. now rewrite IH.
Qed.

(** X10: With no round saved yet, every split costs the same and nobody has
    played: the round is the shuffled roster cut into fours, the first
    two of each four against the other two, and the bench is what is
    left of it. *)
Theorem first_round_follows_shuffle (shuffle : list Player -> list Player)
    (players : list Player) (courtsWanted : Z) :
  (forall l, Permutation l (shuffle l)) ->
  NoDup (map Player.id players) ->
  let courts := usedCourts players courtsWanted in
  generateFairRound shuffle players courtsWanted []
  = Return (Generated.mk (inOrder (Z.to_nat courts) 1 (shuffle players))
                         (drop (Z.to_nat (courts * 4)) (shuffle players))).
Proof.
  intros Hperm Hnd courts.
  rewrite generateFairRound_wf by reflexivity. cbv zeta. fold courts.
  unfold activeOf, benchOf. rewrite first_ranking, first_courts.
  - replace (Z.to_nat (courts * 4)) with (4 * Z.to_nat courts)%nat.
    + now rewrite inOrder_take.
    + pose proof (usedCourts_bounds players courtsWanted). fold courts in H. lia.
  - eapply NoDup_ids_sublist; [|apply sublist_take]. now rewrite <- Hperm.
Qed.

Lemma first_round_follows_shuffle_witness :
  generateFairRound sameOrder roster8 2 []
  = Return (Generated.mk (inOrder (Z.to_nat (usedCourts roster8 2)) 1 (sameOrder roster8))
                         (drop (Z.to_nat (usedCourts roster8 2 * 4)) (sameOrder roster8))).
Proof.
  apply (first_round_follows_shuffle sameOrder roster8 2).
  - apply sameOrder_perm.
  - apply (bool_decide_unpack _). vm_compute. reflexivity.
Defined.

(** ** The round as a whole *)

(** What is known of the round of a roster of distinct identifiers. *)
Lemma generated_round (shuffle : list Player -> list Player) (players : list Player)
    (courtsWanted : Z) (history : list SavedRound) :
  (forall l, Permutation l (shuffle l)) ->
  NoDup (map Player.id players) ->
  wfHistory history = true ->
  let stats := statsOf players history in
  let courts := usedCourts players courtsWanted in
  let active := activeOf stats (shuffle players) (courts * 4) in
  let bench := benchOf stats (shuffle players) (courts * 4) in
  let ms := map snd (courtLoop stats (Z.to_nat courts) 1 active) in
  generateFairRound shuffle players courtsWanted history = Return (Generated.mk ms bench) /\
  NoDup (map Player.id active) /\
  (ownNames (map Player.id players) -> numericOn stats active) /\
  length ms = Z.to_nat courts /\
  map Match.court ms = seqZ 1 courts /\
  Forall twoPerTeam ms /\
  Permutation (flat_map matchPlayers ms) active /\
  Permutation (active ++ bench) players /\
  (storable (map Player.id players) -> StronglySorted (fewerGames stats) (active ++ bench)).
Proof.
  intros Hshuffle Hnd Hwf. cbv zeta.
  pose proof (active_NoDup shuffle Hshuffle players history
                (usedCourts players courtsWanted * 4) Hnd) as Hnda.
  pose proof (active_numeric shuffle Hshuffle players history
                (usedCourts players courtsWanted * 4)) as Hnum.
  destruct (courtLoop_partition (statsOf players history)
              (Z.to_nat (usedCourts players courtsWanted)) 1 _ Hnda)
    as (Hlen & Hcourts & Hteams & Hperm).
  { now apply active_length. }
  cbv zeta in *.
  destruct (usedCourts_bounds players courtsWanted) as [H0 _].
  split; [now apply generateFairRound_wf|].
  split; [exact Hnda|]. split; [exact Hnum|]. split; [exact Hlen|].
  split; [now rewrite Hcourts, Z2Nat.id by exact H0|].
  split; [exact Hteams|]. split; [exact Hperm|].
  split; [now apply active_bench_perm|].
  intros Hst. unfold activeOf, benchOf. rewrite take_drop. unfold byGames.
  apply jsSort_ranked. eapply gamesOn_perm; [now apply roster_games|].
  symmetry. apply Hshuffle.
Qed.

(** ** The costs along the courts *)

Lemma candidates_sublist (pool pool' : list Player) (c : Candidate) :
  pool' `sublist_of` pool -> c ∈ candidates pool' -> c ∈ candidates pool.
Proof.
  intros Hsub Hc. unfold candidates in Hc.
  apply elem_of_flat_map in Hc as (g & Hg & Hc).
  eapply candidates_complete; [|eapply choose_length, Hg | exact Hc].
  transitivity pool'; [eapply choose_sublist, Hg | exact Hsub].
Qed.

Lemma emits_cost (stats : Stats) (m : Match) (cand : Candidate) :
  emits m cand -> matchCost stats m = totalCost stats cand.
Proof.
  destruct cand as [[[a b] c] d]. unfold emits, matchCost. now intros [-> ->].
Qed.

Lemma courtLoop_pool (stats : Stats) (todo : nat) (court : Z) (pool : list Player)
    (k : nat) (pool_k : list Player) (m : Match) :
  courtLoop stats todo court pool !! k = Some (pool_k, m) -> pool_k `sublist_of` pool.
Proof.
  revert court pool k. induction todo as [|todo IH]; intros court pool k Hk;
    [discriminate Hk|].
  simpl in Hk. destruct (length pool <? 4)%nat; [discriminate Hk|].
  destruct (searchBest stats pool) as [best|]; [|discriminate Hk].
  destruct k as [|k].
  - injection Hk as <- _. reflexivity.
  - cbn [lookup list_lookup] in Hk. apply IH in Hk.
    transitivity (removeChosen (list_to_set (map Player.id (Best.group best))) pool);
      [exact Hk | apply removeChosen_sublist].
Qed.

Lemma courtLoop_ascend (stats : Stats) (todo : nat) (court : Z) (pool : list Player)
    (k : nat) (m m' : Match) :
  NoDup (map Player.id pool) -> numericOn stats pool ->
  map snd (courtLoop stats todo court pool) !! k = Some m ->
  map snd (courtLoop stats todo court pool) !! S k = Some m' ->
  (matchCost stats m <= matchCost stats m')%Q.
Proof.
  revert court pool k. induction todo as [|todo IH]; intros court pool k Hnd Hnum Hk Hk';
    [discriminate Hk|].
  destruct (Nat.lt_ge_cases (length pool) 4) as [Hshort|Hlen].
  { rewrite courtLoop_short in Hk by exact Hshort. discriminate Hk. }
  destruct (courtLoop_step stats todo court pool Hnum Hlen) as
    (best & i & Hmin & Hsub & Hg & Hperm & E).
  rewrite E in Hk, Hk'. clear E. cbn [map snd] in Hk, Hk'.
  set (pool' := removeChosen _ pool) in *.
  assert (Hnd' : NoDup (map Player.id pool')) by now apply NoDup_ids_removeChosen.
  assert (Hnum' : numericOn stats pool') by now apply numericOn_removeChosen.
  destruct k as [|k].
  - injection Hk as <-. cbn [lookup list_lookup] in Hk'.
    assert (H1 : exists pool1, courtLoop stats todo (court + 1) pool' !! 0%nat
                               = Some (pool1, m')).
    { destruct (courtLoop stats todo (court + 1) pool') as [|[pool1 m1] tr];
        [discriminate Hk'|].
      injection Hk' as <-. now exists pool1. }
    destruct H1 as [pool1 H1]. clear Hk'. rename m' into m1.
    destruct (courtLoop_trace stats todo (court + 1) pool' 0 pool1 m1 Hnd' Hnum' H1)
      as (_ & j & cand' & (Hj & _ & _) & Hemits).
    apply courtLoop_pool in H1.
    rewrite (emits_cost stats m1 cand' Hemits).
    rewrite (emits_cost stats (matchOfSplit court (Best.split best))
                        (candOf (Best.split best))) by (split; reflexivity).
    destruct Hmin as (_ & Hall & _).
    assert (Hin : cand' ∈ candidates pool).
    { eapply candidates_sublist; [|eapply list_elem_of_lookup_2, Hj].
      transitivity pool'; [exact H1 | apply removeChosen_sublist]. }
    apply list_elem_of_lookup_1 in Hin as [j' Hj']. eapply Hall, Hj'.
  - cbn [lookup list_lookup] in Hk, Hk'. eapply IH; eauto.
Qed.

(** X11: Whenever a round is returned for a roster of distinct identifiers,
    none of them [__proto__] and no two of them with a key that names a
    member of [Object.prototype], the costs of its matches ascend with
    the court numbers: a court is never filled at a higher cost than the
    next one. *)
Theorem court_costs_ascend (shuffle : list Player -> list Player)
    (players : list Player) (courtsWanted : Z) (history : list SavedRound)
    (r : Generated.t) :
  (forall l, Permutation l (shuffle l)) ->
  NoDup (map Player.id players) ->
  ownNames (map Player.id players) ->
  generateFairRound shuffle players courtsWanted history = Return r ->
  exists stats,
    computeStats players history = Return stats /\
    forall k m m',
      Generated.matches r !! k = Some m -> Generated.matches r !! S k = Some m' ->
      (matchCost stats m <= matchCost stats m')%Q.
Proof.
  intros Hshuffle Hnd Hown Hr.
  pose proof (generateFairRound_returns _ _ _ _ _ Hr) as Hwf.
  destruct (generated_round shuffle players courtsWanted history Hshuffle Hnd Hwf)
    as (E & Hnda & Hnum & _).
  cbv zeta in *. rewrite E in Hr. injection Hr as <-.
  exists (statsOf players history). split; [now apply computeStats_statsOf|].
  cbn [Generated.matches]. intros k m m'. apply courtLoop_ascend; auto.
Qed.

Lemma court_costs_ascend_witness :
  exists stats,
    computeStats roster8 [firstRound] = Return stats /\
    forall k m m',
      Generated.matches secondRound !! k = Some m ->
      Generated.matches secondRound !! S k = Some m' ->
      (matchCost stats m <= matchCost stats m')%Q.
Proof.
  apply (court_costs_ascend sameOrder roster8 2 [firstRound] secondRound).
  - apply sameOrder_perm.
  - apply (bool_decide_unpack _). vm_compute. reflexivity.
  - apply plainIds_ownNames, roster8_plain.
  - vm_compute. reflexivity.
Defined.

(** ** Games played, round after round *)

Lemma sorted_app_cross {A} (R : A -> A -> Prop) (l1 l2 : list A) (a b : A) :
  StronglySorted R (l1 ++ l2) -> a ∈ l1 -> b ∈ l2 -> R a b.
Proof.
  induction l1 as [|x l1 IH]; intros Hs Ha Hb; [inversion Ha|].
  simpl in Hs. apply StronglySorted_inv in Hs as [Hs Hx].
  apply elem_of_cons in Ha as [->|Ha]; [|now apply IH].
  rewrite Forall_forall in Hx. apply Hx, elem_of_app. now right.
Qed.

Lemma twoPerTeam_wf (m : Match) : twoPerTeam m -> wfMatch m = true.
Proof. unfold twoPerTeam, wfMatch. now intros [-> ->]. Qed.

Lemma twoPerTeam_slots (m : Match) :
  twoPerTeam m -> slotIds m = map Player.id (matchPlayers m).
Proof.
  unfold twoPerTeam, slotIds, matchPlayers. intros [HA HB].
  now rewrite !firstn_all2 by lia.
Qed.

Lemma twoPerTeam_all_wf (ms : list Match) : Forall twoPerTeam ms -> forallb wfMatch ms = true.
Proof.
  induction 1 as [|m ms Hm _ IH]; [reflexivity|]. simpl.
  now rewrite (twoPerTeam_wf m Hm), IH.
Qed.

Lemma twoPerTeam_all_slots (ms : list Match) :
  Forall twoPerTeam ms -> flat_map slotIds ms = map Player.id (flat_map matchPlayers ms).
Proof.
  induction 1 as [|m ms Hm _ IH]; [reflexivity|]. simpl.
  now rewrite map_app, (twoPerTeam_slots m Hm), IH.
Qed.

Lemma occ_roster (l : list Player) (p : Player) :
  NoDup (map Player.id l) ->
  occ (Player.id p) (map Player.id l)
  = if decide (Player.id p ∈ map Player.id l) then 1 else 0.
Proof.
  intros Hnd. destruct (decide (Player.id p ∈ map Player.id l)) as [Hin|Hout].
  - pose proof (occ_NoDup (Player.id p) _ Hnd). pose proof (occ_pos _ _ Hin). lia.
  - now apply occ_zero.
Qed.

Lemma historyIds_cons (round : SavedRound) (history : list SavedRound) :
  historyIds (round :: history)
  = flat_map slotIds (SavedRound.matches round) ++ historyIds history.
Proof. unfold historyIds, historyMatches. simpl. now rewrite flat_map_app. Qed.

Lemma wfHistory_cons (round : SavedRound) (history : list SavedRound) :
  wfHistory (round :: history)
  = forallb wfMatch (SavedRound.matches round) && wfHistory history.
Proof. unfold wfHistory, historyMatches. simpl. now rewrite forallb_app. Qed.

Lemma gamesOf_roster (players : list Player) (history : list SavedRound) (p : Player) :
  storable (map Player.id players) -> p ∈ players ->
  gamesOf (statsOf players history) (Player.id p) = occ (Player.id p) (historyIds history).
Proof.
  intros Hst Hp.
  assert (Hin : Player.id p ∈ map Player.id players) by (apply list_elem_of_fmap; eauto).
  unfold gamesOf. rewrite gp_roster; [reflexivity | exact Hin |].
  now apply (storable_elem _ _ Hst).
Qed.

(** X12: Whenever a round is returned for a roster of distinct identifiers,
    none of them [__proto__], and saved on top of the history, the
    counters of the new history are returned too; a player of the roster
    has one game more if in a match of the round and as many as before
    if not; and if no player had two games more than another before,
    none has after. *)
Theorem games_stay_even (shuffle : list Player -> list Player)
    (players : list Player) (courtsWanted : Z) (history : list SavedRound)
    (r : Generated.t) (round : SavedRound) :
  (forall l, Permutation l (shuffle l)) ->
  NoDup (map Player.id players) ->
  storable (map Player.id players) ->
  generateFairRound shuffle players courtsWanted history = Return r ->
  SavedRound.matches round = Generated.matches r ->
  exists stats stats',
    computeStats players history = Return stats /\
    computeStats players (round :: history) = Return stats' /\
    (forall p, p ∈ players ->
       gamesOf stats' (Player.id p)
       = gamesOf stats (Player.id p)
         + if decide (p ∈ flat_map matchPlayers (Generated.matches r)) then 1 else 0) /\
    (evenGames stats players -> evenGames stats' players).
Proof.
  intros Hshuffle Hnd Hst Hr Hround.
  pose proof (generateFairRound_returns _ _ _ _ _ Hr) as Hwf.
  destruct (generated_round shuffle players courtsWanted history Hshuffle Hnd Hwf)
    as (E & Hnda & _ & _ & _ & Hteams & Hperm & Hall & Hsorted).
  specialize (Hsorted Hst).
  cbv zeta in *. rewrite E in Hr. injection Hr as <-.
  cbn [Generated.matches] in *.
  set (stats := statsOf players history) in *.
  set (active := activeOf stats (shuffle players) (usedCourts players courtsWanted * 4)) in *.
  set (bench := benchOf stats (shuffle players) (usedCourts players courtsWanted * 4)) in *.
  set (ms := map snd (courtLoop stats (Z.to_nat (usedCourts players courtsWanted)) 1 active))
    in *.
  assert (Hwf' : wfHistory (round :: history) = true).
  { rewrite wfHistory_cons, Hround, twoPerTeam_all_wf by exact Hteams. exact Hwf. }
  exists stats, (statsOf players (round :: history)).
  split; [now apply computeStats_statsOf|]. split; [now apply computeStats_statsOf|].
  assert (Hgames : forall p, p ∈ players ->
            gamesOf (statsOf players (round :: history)) (Player.id p)
            = gamesOf stats (Player.id p)
              + if decide (p ∈ flat_map matchPlayers ms) then 1 else 0).
  { intros p Hp. unfold stats. rewrite !gamesOf_roster by assumption.
    rewrite historyIds_cons, occ_app, Hround, twoPerTeam_all_slots by exact Hteams.
    rewrite occ_roster by now rewrite Hperm.
    assert (Hiff : Player.id p ∈ map Player.id (flat_map matchPlayers ms)
                   <-> p ∈ flat_map matchPlayers ms).
    { split; [|intros H; apply list_elem_of_fmap; eauto].
      intros H. apply list_elem_of_fmap in H as (q & Eq & Hq).
      assert (Hq' : q ∈ players).
      { rewrite <- Hall. apply elem_of_app. left. now rewrite <- Hperm. }
      now rewrite (NoDup_ids_inj players p q Hnd Hp Hq' Eq). }
    destruct (decide (Player.id p ∈ map Player.id (flat_map matchPlayers ms))),
             (decide (p ∈ flat_map matchPlayers ms)); tauto || lia. }
  split; [exact Hgames|].
  intros Heven p q Hp Hq. rewrite (Hgames p Hp), (Hgames q Hq).
  specialize (Heven p q Hp Hq) as Hpq.
  destruct (decide (p ∈ flat_map matchPlayers ms)) as [Pin|Pout],
           (decide (q ∈ flat_map matchPlayers ms)) as [Qin|Qout]; try lia.
  assert (Hqb : q ∈ bench).
  { rewrite <- Hall in Hq. apply elem_of_app in Hq as [Hq|Hq]; [|exact Hq].
    exfalso. apply Qout. now rewrite Hperm. }
  rewrite Hperm in Pin.
  pose proof (sorted_app_cross _ _ _ p q Hsorted Pin Hqb) as Hle.
  unfold fewerGames in Hle. lia.
Qed.

Lemma games_stay_even_witness :
  exists stats stats',
    computeStats roster8 [firstRound] = Return stats /\
    computeStats roster8 [SavedRound.mk "round-2" 1 2 (Generated.matches secondRound) [];
                          firstRound] = Return stats' /\
    (forall p, p ∈ roster8 ->
       gamesOf stats' (Player.id p)
       = gamesOf stats (Player.id p)
         + if decide (p ∈ flat_map matchPlayers (Generated.matches secondRound))
           then 1 else 0) /\
    (evenGames stats roster8 -> evenGames stats' roster8).
Proof.
  apply (games_stay_even sameOrder roster8 2 [firstRound] secondRound).
  - apply sameOrder_perm.
  - apply (bool_decide_unpack _). vm_compute. reflexivity.
  - apply plainIds_storable, roster8_plain.
  - vm_compute. reflexivity.
  - reflexivity.
Defined.

(** * The rankings *)

(** ** Sorting with a comparator *)

Lemma jsInsert_sorted {A} (after : A -> A -> bool) (R : A -> A -> Prop) (x : A) (l : list A) :
  (forall y, y ∈ l -> after x y = false -> R x y) ->
  (forall y, y ∈ l -> after x y = true -> R y x) ->
  (forall y z, y ∈ l -> z ∈ l -> R x y -> R y z -> R x z) ->
  StronglySorted R l -> StronglySorted R (jsInsert after x l).
Proof.
  intros Hstay Hpass Htrans. induction l as [|y l IH]; intros Hs; simpl.
  - repeat constructor.
  - apply StronglySorted_inv in Hs as [Hl Hy].
    destruct (after x y) eqn:Hxy.
    + constructor.
      * apply IH; trivial.
        -- intros z Hz. apply Hstay. now right.
        -- intros z Hz. apply Hpass. now right.
        -- intros z w Hz Hw. apply Htrans; now right.
      * rewrite jsInsert_perm. constructor; [|exact Hy].
        apply Hpass; [left | exact Hxy].
    + constructor; [constructor; assumption|].
      assert (Rxy : R x y) by (apply Hstay; [left | exact Hxy]).
      constructor; [exact Rxy|].
      rewrite Forall_forall in Hy |- *. intros z Hz.
      apply (Htrans y z); [left | now right | exact Rxy | now apply Hy].
Qed.

Lemma jsSort_sorted {A} (after : A -> A -> bool) (R : A -> A -> Prop) (l : list A) :
  (forall x y, x ∈ l -> y ∈ l -> after x y = false -> R x y) ->
  (forall x y, x ∈ l -> y ∈ l -> after x y = true -> R y x) ->
  (forall x y z, x ∈ l -> y ∈ l -> z ∈ l -> R x y -> R y z -> R x z) ->
  StronglySorted R (jsSort after l).
Proof.
  induction l as [|x l IH]; intros Hstay Hpass Htrans; simpl; [constructor|].
  apply jsInsert_sorted.
  - intros y Hy. rewrite jsSort_perm in Hy. apply Hstay; [left | now right].
  - intros y Hy. rewrite jsSort_perm in Hy. apply Hpass; [left | now right].
  - intros y z Hy Hz. rewrite jsSort_perm in Hy, Hz.
    apply Htrans; [left | now right | now right].
  - apply IH.
    + intros y z Hy Hz. apply Hstay; now right.
    + intros y z Hy Hz. apply Hpass; now right.
    + intros y z w Hy Hz Hw. apply Htrans; now right.
Qed.

(** ** Points credited *)

Lemma addPoints_fold (a : Z) (team : list Player) (points : gmap string Value)
    (x : string) (n : Z) :
  x <> "__proto__" ->
  points !! x = Some (Numeric (Num n)) ->
  fold_left (addPoints a) team points !! x
  = Some (Numeric (Num (n + a * occ x (map Player.id team)))).
Proof.
  intros Hp. revert points n. induction team as [|p team IH]; intros points n Hx; simpl.
  - rewrite occ_nil, Hx. num_eq.
  - rewrite occ_cons. destruct (decide (Player.id p = x)) as [E|Hne].
    + rewrite (IH _ (n + a)); [num_eq|].
      unfold addPoints. rewrite E, assign_lookup by exact Hp.
      rewrite decide_True by reflexivity. now rewrite (read_own _ _ _ Hx).
    + rewrite (IH _ n); [num_eq|].
      unfold addPoints. rewrite assign_lookup_ne by exact Hne. exact Hx.
Qed.

Lemma creditTeams_lookup (a b : Z) (m : Match) (points : gmap string Value)
    (x : string) (n : Z) :
  x <> "__proto__" ->
  points !! x = Some (Numeric (Num n)) ->
  creditTeams a b m points !! x = Some (Numeric (Num (n + earnedIn x a b m))).
Proof.
  intros Hp Hx. unfold creditTeams, earnedIn.
  erewrite addPoints_fold; [|exact Hp|eapply addPoints_fold; [exact Hp | exact Hx]]. num_eq.
Qed.

Lemma creditRound_lookup (round : SavedRound) (points : gmap string Value)
    (x : string) (n : Z) :
  x <> "__proto__" ->
  points !! x = Some (Numeric (Num n)) ->
  creditRound round points !! x = Some (Numeric (Num (n + earnedRound x round))).
Proof.
  intros Hp. unfold creditRound, earnedRound. revert points n.
  induction (SavedRound.matches round) as [|m ms IH]; intros points n Hx; simpl.
  - rewrite Hx. num_eq.
  - destruct (resultAt (SavedRound.results round) (Match.court m)) as [[a b]|].
    + erewrite IH; [|eapply creditTeams_lookup; [exact Hp | exact Hx]]. num_eq.
    + erewrite IH; [|exact Hx]. num_eq.
Qed.

Lemma credit_history_lookup (history : list SavedRound) (points : gmap string Value)
    (x : string) (n : Z) :
  x <> "__proto__" ->
  points !! x = Some (Numeric (Num n)) ->
  fold_left (fun points round => creditRound round points) history points !! x
  = Some (Numeric (Num (n + earned x history))).
Proof.
  intros Hp. unfold earned. revert points n.
  induction history as [|round history IH]; intros points n Hx; simpl.
  - rewrite Hx. num_eq.
  - erewrite IH; [|eapply creditRound_lookup; [exact Hp | exact Hx]]. num_eq.
Qed.

Lemma credit_now_lookup (results : gmap Z MatchResult) (matches : list Match)
    (points : gmap string Value) (x : string) (n : Z) :
  x <> "__proto__" ->
  points !! x = Some (Numeric (Num n)) ->
  fold_left (pointsOfCurrent results) matches points !! x
  = Some (Numeric (Num (n + earnedNow x matches results))).
Proof.
  intros Hp. unfold earnedNow. revert points n.
  induction matches as [|m ms IH]; intros points n Hx; simpl.
  - rewrite Hx. num_eq.
  - unfold pointsOfCurrent at 2.
    destruct (results !! Match.court m) as [[[a|] [b|]]|];
      try (erewrite IH; [|exact Hx]; num_eq).
    erewrite IH; [|eapply creditTeams_lookup; [exact Hp | exact Hx]]. num_eq.
Qed.

Lemma zeroPoints_lookup (players : list Player) (p : Player) :
  p ∈ players -> Player.id p <> "__proto__" ->
  zeroPoints players !! Player.id p = Some (Numeric (Num 0)).
Proof.
  intros Hp Hproto. change (zeroPoints players) with (initialGames players).
  rewrite initialGames_lookup, decide_True; [reflexivity|].
  split; [|exact Hproto]. apply list_elem_of_fmap. eauto.
Qed.

Lemma roster_storable (players : list Player) (p : Player) :
  storable (map Player.id players) -> p ∈ players -> Player.id p <> "__proto__".
Proof.
  intros Hst Hp. apply (storable_elem _ _ Hst). apply list_elem_of_fmap. eauto.
Qed.

(** ** The ranking over the saved rounds *)

Lemma round_points (round : SavedRound) (points : gmap string Value) :
  forOf (pointsOfMatch (SavedRound.results round)) (SavedRound.matches round) points
  = if forallb (hasResult round) (SavedRound.matches round)
    then Return (creditRound round points) else Throw.
Proof.
  destruct (forallb (hasResult round) (SavedRound.matches round)) eqn:Hall.
  - apply (forOf_pure _ _ (hasResult round)); [|exact Hall].
    intros s m Hm. unfold pointsOfMatch, hasResult in *.
    destruct (resultAt (SavedRound.results round) (Match.court m)) as [[a b]|];
      [reflexivity | discriminate Hm].
  - apply (forOf_throws _ (hasResult round)); [| |exact Hall].
    + intros s m Hm. unfold pointsOfMatch, hasResult in *.
      destruct (resultAt (SavedRound.results round) (Match.court m)) as [[a b]|];
        [discriminate Hm | reflexivity].
    + intros s m Hm. unfold pointsOfMatch, hasResult in *.
      destruct (resultAt (SavedRound.results round) (Match.court m)) as [[a b]|];
        [eauto | discriminate Hm].
Qed.

Lemma totalRanking_spec (localeCompare : string -> string -> Z)
    (players : list Player) (history : list SavedRound) :
  totalRanking localeCompare players history
  = if resultsComplete history
    then Return (rankRows localeCompare
                   (rowsOf players
                      (fold_left (fun points round => creditRound round points)
                                 history (zeroPoints players))))
    else Throw.
Proof.
  unfold totalRanking, resultsComplete.
  set (ok := fun round => forallb (hasResult round) (SavedRound.matches round)).
  destruct (forallb ok history) eqn:Hall.
  - rewrite (forOf_pure _ (fun points round => creditRound round points) ok);
      [reflexivity | | exact Hall].
    intros s round Hr. rewrite round_points. unfold ok in Hr. now rewrite Hr.
  - rewrite (forOf_throws _ ok); [reflexivity | | | exact Hall].
    + intros s round Hr. rewrite round_points. unfold ok in Hr. now rewrite Hr.
    + intros s round Hr. rewrite round_points. unfold ok in Hr. rewrite Hr. eauto.
Qed.

(** X13: The ranking over the saved rounds is returned exactly when every
    match of every saved round has a result for its court; otherwise
    reading the score of the missing result raises.  The teams may have
    any number of players. *)
Theorem total_ranking_needs_results (localeCompare : string -> string -> Z)
    (players : list Player) (history : list SavedRound) :
  (resultsComplete history = true ->
   exists rows, totalRanking localeCompare players history = Return rows) /\
  (resultsComplete history = false ->
   totalRanking localeCompare players history = Throw).
Proof.
  rewrite totalRanking_spec. split; intros ->; eauto.
Qed.

(** ** The order of a ranking *)

Lemma after_numeric (localeCompare : string -> string -> Z) (x y : Row) (n m : Z) :
  Row.points x = Numeric (Num n) -> Row.points y = Numeric (Num m) ->
  positiveZ (byPointsThenName localeCompare x y)
  = if m - n =? 0 then 0 <? localeCompare (Row.name x) (Row.name y) else 0 <? m - n.
Proof.
  intros Hx Hy. unfold byPointsThenName. rewrite Hx, Hy. simpl.
  destruct (m - n =? 0); reflexivity.
Qed.

Lemma rankRows_sorted (localeCompare : string -> string -> Z) (rows : list Row) :
  (forall r, r ∈ rows -> isCount (Row.points r)) ->
  StronglySorted (fun x y => pointsZ y <= pointsZ x) (rankRows localeCompare rows) /\
  (consistent localeCompare ->
   StronglySorted (rankedBefore localeCompare) (rankRows localeCompare rows)).
Proof.
  intros Hnum.
  assert (Hafter : forall x y, x ∈ rows -> y ∈ rows ->
            positiveZ (byPointsThenName localeCompare x y)
            = if pointsZ y - pointsZ x =? 0
              then 0 <? localeCompare (Row.name x) (Row.name y)
              else 0 <? pointsZ y - pointsZ x).
  { intros x y Hx Hy. destruct (Hnum x Hx) as [n Hn], (Hnum y Hy) as [m Hm].
    rewrite (after_numeric _ x y n m Hn Hm). unfold pointsZ. now rewrite Hn, Hm. }
  split; [|intros [Hanti Htrans]]; unfold rankRows; apply jsSort_sorted.
  - intros x y Hx Hy. rewrite (Hafter x y Hx Hy).
    destruct (Z.eqb_spec (pointsZ y - pointsZ x) 0); [lia|].
    intros H. apply Z.ltb_ge in H. lia.
  - intros x y Hx Hy. rewrite (Hafter x y Hx Hy).
    destruct (Z.eqb_spec (pointsZ y - pointsZ x) 0); [lia|].
    intros H. apply Z.ltb_lt in H. lia.
  - intros x y z _ _ _. lia.
  - intros x y Hx Hy. rewrite (Hafter x y Hx Hy). unfold rankedBefore.
    destruct (Z.eqb_spec (pointsZ y - pointsZ x) 0); intros H; apply Z.ltb_ge in H; lia.
  - intros x y Hx Hy. rewrite (Hafter x y Hx Hy). unfold rankedBefore.
    destruct (Z.eqb_spec (pointsZ y - pointsZ x) 0); intros H; apply Z.ltb_lt in H;
      [|lia].
    right. split; [lia|]. now apply Hanti.
  - intros x y z _ _ _. unfold rankedBefore.
    intros [H1|[H1 L1]] [H2|[H2 L2]]; try (left; lia).
    right. split; [lia|]. now apply (Htrans _ (Row.name y)).
Qed.

Lemma rowsOf_scores (players : list Player) (points : gmap string Value)
    (score : string -> Z) :
  (forall p, p ∈ players ->
     points !! Player.id p = Some (Numeric (Num (score (Player.id p))))) ->
  rowsOf players points = map (rowFor score) players.
Proof.
  intros H. unfold rowsOf. apply map_ext_in. intros p Hp.
  apply list_elem_of_In in Hp. unfold rowFor. now rewrite (read_own _ _ _ (H p Hp)).
Qed.

Lemma totalRanking_rows (localeCompare : string -> string -> Z)
    (players : list Player) (history : list SavedRound) (rows : list Row) :
  storable (map Player.id players) ->
  totalRanking localeCompare players history = Return rows ->
  rows = rankRows localeCompare (map (rowFor (fun x => earned x history)) players).
Proof.
  intros Hst. rewrite totalRanking_spec. destruct (resultsComplete history); [|discriminate].
  intros E. injection E as <-. f_equal. apply rowsOf_scores.
  intros p Hp. pose proof (roster_storable players p Hst Hp) as Hproto.
  rewrite (credit_history_lookup history _ _ 0); [reflexivity | exact Hproto |].
  now apply zeroPoints_lookup.
Qed.

Lemma currentRoundRanking_rows (localeCompare : string -> string -> Z)
    (players : list Player) (matches : list Match) (results : gmap Z MatchResult) :
  storable (map Player.id players) ->
  currentRoundRanking localeCompare players matches results
  = rankRows localeCompare (map (rowFor (fun x => earnedNow x matches results)) players).
Proof.
  intros Hst. unfold currentRoundRanking. cbv zeta. f_equal. apply rowsOf_scores.
  intros p Hp. pose proof (roster_storable players p Hst Hp) as Hproto.
  rewrite (credit_now_lookup results matches _ _ 0); [reflexivity | exact Hproto |].
  now apply zeroPoints_lookup.
Qed.

Lemma rowFor_numeric (score : string -> Z) (players : list Player) (r : Row) :
  r ∈ map (rowFor score) players -> isCount (Row.points r).
Proof. intros H. apply list_elem_of_fmap in H as (p & -> & _). simpl. eexists. reflexivity. Qed.

(** X14: Whenever the ranking over the saved rounds is returned for a
    roster without the identifier [__proto__], it has one row for each
    player of the roster, with the points the history is worth to the
    player's identifier (players that are no longer on the roster have
    no row and change nobody's points); the rows are in descending order
    of points; and when the comparison of names is consistent, rows with
    equal points are in the order of their names. *)
Theorem total_ranking_rows_and_order (localeCompare : string -> string -> Z)
    (players : list Player) (history : list SavedRound) (rows : list Row) :
  storable (map Player.id players) ->
  totalRanking localeCompare players history = Return rows ->
  Permutation rows (map (rowFor (fun x => earned x history)) players) /\
  StronglySorted (fun x y => pointsZ y <= pointsZ x) rows /\
  (consistent localeCompare -> StronglySorted (rankedBefore localeCompare) rows).
Proof.
  intros Hst E. apply totalRanking_rows in E; [|exact Hst]. subst rows.
  split; [apply jsSort_perm|]. apply rankRows_sorted.
  intros r. apply rowFor_numeric.
Qed.

(** The comparison by length is consistent. *)
Lemma byLength_consistent : consistent byLength.
Proof. unfold consistent, byLength. split; intros; lia. Qed.

Lemma total_ranking_rows_and_order_witness :
  let rows := [Row.mk "e" "e" (Numeric (Num 4)); Row.mk "f" "f" (Numeric (Num 4));
               Row.mk "c" "c" (Numeric (Num 3)); Row.mk "d" "d" (Numeric (Num 3))] in
  let players := map letter [2; 3; 4; 5]%nat in
  let history := [SavedRound.mk "r" 0 2 [Match.mk 2 [letter 4; letter 5] [letter 6; letter 7];
                                         Match.mk 1 [letter 0; letter 1] [letter 2; letter 3]]
                                [(1, (6, 3)); (2, (4, 5))]] in
  Permutation rows (map (rowFor (fun x => earned x history)) players) /\
  StronglySorted (fun x y => pointsZ y <= pointsZ x) rows /\
  (consistent byLength -> StronglySorted (rankedBefore byLength) rows).
Proof.
  intros rows players history.
  apply (total_ranking_rows_and_order byLength players history rows).
  - apply plainIds_storable. repeat constructor.
  - vm_compute. reflexivity.
Defined.

(** ** Sums *)

Lemma sumZ_app (l1 l2 : list Z) : sumZ (l1 ++ l2) = sumZ l1 + sumZ l2.
Proof. induction l1 as [|x l1 IH]; simpl; [reflexivity|]. rewrite IH. lia. Qed.

Lemma sumZ_perm (l1 l2 : list Z) : Permutation l1 l2 -> sumZ l1 = sumZ l2.
Proof. induction 1; simpl; lia. Qed.

Lemma sumZ_map_add {A} (f g : A -> Z) (l : list A) :
  sumZ (map (fun x => f x + g x) l) = sumZ (map f l) + sumZ (map g l).
Proof. induction l as [|x l IH]; simpl; [reflexivity|]. rewrite IH. lia. Qed.

Lemma sumZ_map_scale {A} (a : Z) (f : A -> Z) (l : list A) :
  sumZ (map (fun x => a * f x) l) = a * sumZ (map f l).
Proof. induction l as [|x l IH]; simpl; [lia|]. rewrite IH. lia. Qed.

Lemma sumZ_map_zero {A} (l : list A) : sumZ (map (fun _ => 0) l) = 0.
Proof. induction l as [|x l IH]; simpl; [reflexivity|]. rewrite IH. lia. Qed.

Lemma sumZ_map_ext {A} (f g : A -> Z) (l : list A) :
  (forall x, x ∈ l -> f x = g x) -> sumZ (map f l) = sumZ (map g l).
Proof.
  intros H. induction l as [|x l IH]; simpl; [reflexivity|].
  rewrite (H x) by left. rewrite IH; [reflexivity|]. intros y Hy. apply H. now right.
Qed.

Lemma sumZ_swap {A B} (g : A -> B -> Z) (xs : list A) (ys : list B) :
  sumZ (map (fun x => sumZ (map (g x) ys)) xs)
  = sumZ (map (fun y => sumZ (map (fun x => g x y) xs)) ys).
Proof.
  induction xs as [|x xs IH]; simpl.
  - now rewrite sumZ_map_zero.
  - rewrite IH, <- sumZ_map_add. reflexivity.
Qed.

Lemma sum_indicator (ids : list string) (y : string) :
  NoDup ids -> y ∈ ids -> sumZ (map (fun x => if decide (y = x) then 1 else 0) ids) = 1.
Proof.
  induction ids as [|z ids IH]; intros Hnd Hy; [inversion Hy|].
  apply NoDup_cons in Hnd as [Hz Hnd]. simpl.
  destruct (decide (y = z)) as [->|Hne].
  - rewrite (sumZ_map_ext _ (fun _ => 0)), sumZ_map_zero; [reflexivity|].
    intros x Hx. destruct (decide (z = x)) as [->|]; [contradiction | reflexivity].
  - apply elem_of_cons in Hy as [?|Hy]; [contradiction|]. now rewrite IH.
Qed.

Lemma sum_occ (ids l : list string) :
  NoDup ids -> (forall y, y ∈ l -> y ∈ ids) ->
  sumZ (map (fun x => occ x l) ids) = Z.of_nat (length l).
Proof.
  intros Hnd. induction l as [|y l IH]; intros Hin.
  - rewrite (sumZ_map_ext _ (fun _ => 0)), sumZ_map_zero; [reflexivity|].
    intros x _. apply occ_nil.
  - rewrite (sumZ_map_ext _ (fun x => (if decide (y = x) then 1 else 0) + occ x l))
      by (intros x _; apply occ_cons).
    rewrite sumZ_map_add, sum_indicator, IH; trivial.
    + simpl length. lia.
    + intros z Hz. apply Hin. now right.
    + apply Hin. left.
Qed.

(** ** Every point is credited once *)

Lemma awarded_shared (ids : list string) (round : SavedRound) :
  NoDup ids ->
  (forall m p, m ∈ SavedRound.matches round -> p ∈ matchPlayers m -> Player.id p ∈ ids) ->
  sumZ (map (fun x => earnedRound x round) ids) = awarded round.
Proof.
  intros Hnd Hin. unfold earnedRound, awarded.
  rewrite sumZ_swap. apply sumZ_map_ext. intros m Hm.
  assert (HA : forall y, y ∈ map Player.id (Match.teamA m) -> y ∈ ids).
  { intros y Hy. apply list_elem_of_fmap in Hy as (p & -> & Hp).
    apply (Hin m p Hm). unfold matchPlayers. apply elem_of_app. now left. }
  assert (HB : forall y, y ∈ map Player.id (Match.teamB m) -> y ∈ ids).
  { intros y Hy. apply list_elem_of_fmap in Hy as (p & -> & Hp).
    apply (Hin m p Hm). unfold matchPlayers. apply elem_of_app. now right. }
  destruct (resultAt (SavedRound.results round) (Match.court m)) as [[a b]|];
    [|apply sumZ_map_zero].
  unfold earnedIn.
  rewrite sumZ_map_add, !sumZ_map_scale, !sum_occ, !length_map by assumption.
  reflexivity.
Qed.

(** X15: Whenever the ranking over the saved rounds is returned for a roster
    of distinct identifiers, none of them [__proto__], and a history in
    which everybody is on the roster, the points of the rows add up to
    what the rounds handed out: for each match the score of either team
    times the number of its players. *)
Theorem ranking_points_add_up (localeCompare : string -> string -> Z)
    (players : list Player) (history : list SavedRound) (rows : list Row) :
  NoDup (map Player.id players) ->
  storable (map Player.id players) ->
  allOnRoster players history ->
  totalRanking localeCompare players history = Return rows ->
  sumZ (map pointsZ rows) = sumZ (map awarded history).
Proof.
  intros Hnd Hst Hin E. apply totalRanking_rows in E; [|exact Hst]. subst rows.
  rewrite (sumZ_perm _ (map pointsZ (map (rowFor (fun x => earned x history)) players)))
    by (apply Permutation_map, jsSort_perm).
  rewrite map_map. unfold pointsZ, rowFor. simpl.
  rewrite <- (map_map Player.id (fun x => earned x history)).
  unfold earned. rewrite sumZ_swap. apply sumZ_map_ext. intros round Hround.
  apply awarded_shared; [exact Hnd|].
  intros m p Hm Hp. apply (Hin m p); [|exact Hp].
  unfold historyMatches. apply elem_of_flat_map. eauto.
Qed.

Lemma ranking_points_add_up_witness :
  sumZ (map pointsZ [Row.mk "a" "a" (Numeric (Num 6)); Row.mk "b" "b" (Numeric (Num 6));
                     Row.mk "g" "g" (Numeric (Num 5)); Row.mk "h" "h" (Numeric (Num 5));
                     Row.mk "e" "e" (Numeric (Num 4)); Row.mk "f" "f" (Numeric (Num 4));
                     Row.mk "c" "c" (Numeric (Num 3)); Row.mk "d" "d" (Numeric (Num 3))])
  = sumZ (map awarded [firstRound]).
Proof.
  apply (ranking_points_add_up byLength roster8 [firstRound]).
  - apply (bool_decide_unpack _). vm_compute. reflexivity.
  - apply plainIds_storable, roster8_plain.
  - intros m p Hm Hp. apply (bool_decide_unpack _).
    revert p Hp. apply Forall_forall. revert m Hm. apply Forall_forall.
    vm_compute. repeat constructor.
  - vm_compute. reflexivity.
Defined.

(** ** The ranking of the current round *)

(** X16: For a roster without the identifier [__proto__], the ranking of
    the current round has one row for each player of the roster, with
    the points of the matches that have both scores entered, a match
    with a score missing counting for nothing; the rows are in
    descending order of points, and in the order of their names where
    the points are equal and the comparison of names is consistent.
    With no match fully scored every row has zero points. *)
Theorem current_ranking_rows_and_order (localeCompare : string -> string -> Z)
    (players : list Player) (matches : list Match) (results : gmap Z MatchResult) :
  storable (map Player.id players) ->
  let rows := currentRoundRanking localeCompare players matches results in
  Permutation rows (map (rowFor (fun x => earnedNow x matches results)) players) /\
  StronglySorted (fun x y => pointsZ y <= pointsZ x) rows /\
  (consistent localeCompare -> StronglySorted (rankedBefore localeCompare) rows) /\
  ((forall m r, m ∈ matches -> results !! Match.court m = Some r ->
                MatchResult.scoreA r = None \/ MatchResult.scoreB r = None) ->
   forall row, row ∈ rows -> Row.points row = Numeric (Num 0)).
Proof.
  intros Hst. cbv zeta. rewrite currentRoundRanking_rows by exact Hst.
  split; [apply jsSort_perm|].
  destruct (rankRows_sorted localeCompare
              (map (rowFor (fun x => earnedNow x matches results)) players))
    as [Hdesc Hfull].
  { intros r. apply rowFor_numeric. }
  split; [exact Hdesc|]. split; [exact Hfull|].
  intros Hblank row Hrow. unfold rankRows in Hrow. rewrite jsSort_perm in Hrow.
  apply list_elem_of_fmap in Hrow as (p & -> & _). simpl. do 2 f_equal.
  unfold earnedNow. rewrite (sumZ_map_ext _ (fun _ => 0)); [apply sumZ_map_zero|].
  intros m Hm. destruct (results !! Match.court m) as [[[a|] [b|]]|] eqn:E; try reflexivity.
  destruct (Hblank m _ Hm E); discriminate.
Qed.

Lemma current_ranking_rows_and_order_witness :
  let rows := currentRoundRanking byLength roster8 (Generated.matches secondRound)
                                  {[1 := MatchResult.mk (Some 6) (Some 2)]} in
  Permutation rows
    (map (rowFor (fun x => earnedNow x (Generated.matches secondRound)
                                     {[1 := MatchResult.mk (Some 6) (Some 2)]}))
         roster8) /\
  StronglySorted (fun x y => pointsZ y <= pointsZ x) rows /\
  (consistent byLength -> StronglySorted (rankedBefore byLength) rows) /\
  ((forall m r, m ∈ Generated.matches secondRound ->
                ({[1 := MatchResult.mk (Some 6) (Some 2)]} : gmap Z MatchResult)
                  !! Match.court m = Some r ->
                MatchResult.scoreA r = None \/ MatchResult.scoreB r = None) ->
   forall row, row ∈ rows -> Row.points row = Numeric (Num 0)).
Proof.
  apply (current_ranking_rows_and_order byLength roster8 (Generated.matches secondRound)
           {[1 := MatchResult.mk (Some 6) (Some 2)]}).
  apply plainIds_storable, roster8_plain.
Defined.

(** * The handlers *)

(** ** Generating a round *)

Lemma blank_results_lookup (ms : list Match) (res : gmap Z MatchResult) (c : Z) :
  fold_left (fun res m => <[Match.court m := MatchResult.mk None None]> res) ms res !! c
  = if decide (c ∈ map Match.court ms) then Some (MatchResult.mk None None) else res !! c.
Proof.
  revert res. induction ms as [|m ms IH]; intros res; simpl.
  - destruct (decide (c ∈ [])) as [H|]; [inversion H | reflexivity].
  - rewrite IH.
    destruct (decide (c ∈ map Match.court ms)) as [Hin|Hn],
             (decide (c ∈ Match.court m :: map Match.court ms)) as [Hin'|Hn'];
      try reflexivity.
    + exfalso. apply Hn'. now right.
    + apply elem_of_cons in Hin' as [->|?]; [|contradiction]. apply lookup_insert_eq.
    + rewrite lookup_insert_ne; [reflexivity|]. intros E. apply Hn'. rewrite E. left.
Qed.

Lemma usedIdsOf_spec (ms : list Match) :
  usedIdsOf ms = list_to_set (map Player.id (flat_map matchPlayers ms)).
Proof.
  unfold usedIdsOf.
  assert (Hteam : forall (team : list Player) (used : gset string),
            fold_left (fun used p => {[Player.id p]} ∪ used) team used
            = list_to_set (map Player.id team) ∪ used).
  { induction team as [|p team IH]; intros used; simpl.
    - now rewrite (left_id_L ∅ (∪)).
    - rewrite IH. apply set_eq. intros x.
      rewrite !elem_of_union, elem_of_singleton. tauto. }
  assert (Hall : forall used : gset string,
            fold_left (fun used m =>
                         fold_left (fun used p => {[Player.id p]} ∪ used) (Match.teamB m)
                           (fold_left (fun used p => {[Player.id p]} ∪ used)
                                      (Match.teamA m) used))
                      ms used
            = list_to_set (map Player.id (flat_map matchPlayers ms)) ∪ used).
  { induction ms as [|m ms IH]; intros used; simpl.
    - now rewrite (left_id_L ∅ (∪)).
    - rewrite IH, !Hteam. unfold matchPlayers.
      rewrite !map_app, !list_to_set_app_L. apply set_eq. intros x.
      rewrite !elem_of_union. tauto. }
  rewrite Hall. apply (right_id_L ∅ (∪)).
Qed.

Lemma filter_perm {A} (P : A -> Prop) `{!forall x, Decision (P x)} (l l' : list A) :
  Permutation l l' -> Permutation (filter P l) (filter P l').
Proof.
  induction 1 as [|x l l' _ IH|x y l|l1 l2 l3 _ IH1 _ IH2].
  - reflexivity.
  - rewrite !filter_cons. destruct (decide (P x)); [now apply perm_skip | exact IH].
  - rewrite !filter_cons. destruct (decide (P x)), (decide (P y)); try reflexivity.
    apply perm_swap.
  - now rewrite IH1.
Qed.

(** The players the page lists as pausing are the bench. *)
Lemma unused_is_bench (localeCompare : string -> string -> Z)
    (players active bench : list Player) (ms : list Match) :
  NoDup (map Player.id players) ->
  Permutation (active ++ bench) players ->
  Permutation (flat_map matchPlayers ms) active ->
  Permutation (unusedPlayers localeCompare players ms) bench.
Proof.
  intros Hnd Hall Hms. unfold unusedPlayers, sortedPlayers.
  rewrite (filter_perm _ _ (active ++ bench))
    by (rewrite jsSort_perm; now symmetry).
  rewrite usedIdsOf_spec, filter_app.
  rewrite <- Hall, map_app in Hnd. apply NoDup_app in Hnd as (_ & Hdisj & _).
  assert (Hused : forall p, Player.id p ∈ (list_to_set (map Player.id (flat_map matchPlayers ms))
                                            : gset string)
                            <-> Player.id p ∈ map Player.id active).
  { intros p. rewrite elem_of_list_to_set. now rewrite Hms. }
  rewrite (filter_none _ active), (filter_all _ bench).
  - reflexivity.
  - intros p Hp Hin. apply Hused in Hin. apply (Hdisj _ Hin).
    apply list_elem_of_fmap. eauto.
  - intros p Hp Hn. apply Hn, Hused. apply list_elem_of_fmap. eauto.
Qed.

Lemma effectiveCourts_bounds (s : App.t) :
  (4 <= length (App.players s))%nat ->
  1 <= effectiveCourts s <= Z.of_nat (length (App.players s)) / 4.
Proof.
  intros Hn. unfold effectiveCourts, maxCourtsPossible.
  assert (1 <= Z.of_nat (length (App.players s)) / 4)
    by (apply Z.div_le_lower_bound; lia).
  lia.
Qed.

(** X17: When the tournament is running, the roster has at least four
    players with distinct identifiers and every saved team its two
    players, the button for a new round leaves a round on the courts 1
    to [effectiveCourts]: two players per team, both scores of every
    court blank, so that the round cannot be saved yet, the error
    cleared and nothing else changed; and the players in its matches
    together with those the page lists as pausing are the roster. *)
Theorem new_round_awaits_scores (localeCompare : string -> string -> Z)
    (shuffle : list Player -> list Player) (s : App.t) :
  (forall l, Permutation l (shuffle l)) ->
  NoDup (map Player.id (App.players s)) ->
  wfHistory (App.savedRounds s) = true ->
  tournamentFinished s = false ->
  (4 <= length (App.players s))%nat ->
  exists s',
    generateRoundFair shuffle s = Return s' /\
    s' = setResults (App.results s') (setMatches (App.matches s') (setError EmptyString s)) /\
    map Match.court (App.matches s') = seqZ 1 (effectiveCourts s) /\
    Forall twoPerTeam (App.matches s') /\
    (forall c, App.results s' !! c
               = if decide (1 <= c <= effectiveCourts s)
                 then Some (MatchResult.mk None None) else None) /\
    canSaveCurrentRound s' = false /\
    Permutation (flat_map matchPlayers (App.matches s')
                 ++ unusedPlayers localeCompare (App.players s') (App.matches s'))
                (App.players s).
Proof.
  intros Hshuffle Hnd Hwf Hrun Hn.
  destruct (effectiveCourts_bounds s Hn) as [Hlo Hhi].
  unfold generateRoundFair. rewrite Hrun.
  destruct (Nat.ltb_spec (length (App.players s)) 4) as [?|_]; [lia|].
  rewrite Z.min_l by exact Hhi.
  destruct (generated_round shuffle (App.players s) (effectiveCourts s) (App.savedRounds s)
              Hshuffle Hnd Hwf)
    as (E & _ & _ & Hlen & Hcourts & Hteams & Hperm & Hall & _).
  cbv zeta in *.
  assert (Hused : usedCourts (App.players s) (effectiveCourts s) = effectiveCourts s)
    by (unfold usedCourts; lia).
  rewrite Hused in *. rewrite E. simpl.
  eexists. split; [reflexivity|]. simpl.
  split; [reflexivity|]. split; [exact Hcourts|]. split; [exact Hteams|].
  set (ms := map snd (courtLoop _ _ _ _)) in *.
  assert (Hres : forall c,
            fold_left (fun res m => <[Match.court m := MatchResult.mk None None]> res) ms
                      (∅ : gmap Z MatchResult) !! c
            = if decide (1 <= c <= effectiveCourts s)
              then Some (MatchResult.mk None None) else None).
  { intros c. rewrite blank_results_lookup, Hcourts, lookup_empty.
    destruct (decide (c ∈ seqZ 1 (effectiveCourts s))) as [Hin|Hout],
             (decide (1 <= c <= effectiveCourts s)) as [Hc|Hc]; try reflexivity;
      exfalso; rewrite elem_of_seqZ in *; lia. }
  split; [exact Hres|]. split.
  - unfold canSaveCurrentRound. simpl.
    destruct ms as [|m ms']; [simpl in Hlen; lia|]. simpl.
    rewrite Hres. simpl in Hcourts.
    rewrite (seqZ_cons 1) in Hcourts by lia. injection Hcourts as -> _.
    rewrite decide_True by lia. reflexivity.
  - rewrite (unused_is_bench localeCompare _ _ _ ms Hnd Hall Hperm).
    now rewrite Hperm.
Qed.

Lemma new_round_awaits_scores_witness :
  exists s',
    generateRoundFair sameOrder afterFirstRound = Return s' /\
    s' = setResults (App.results s')
           (setMatches (App.matches s') (setError EmptyString afterFirstRound)) /\
    map Match.court (App.matches s') = seqZ 1 (effectiveCourts afterFirstRound) /\
    Forall twoPerTeam (App.matches s') /\
    (forall c, App.results s' !! c
               = if decide (1 <= c <= effectiveCourts afterFirstRound)
                 then Some (MatchResult.mk None None) else None) /\
    canSaveCurrentRound s' = false /\
    Permutation (flat_map matchPlayers (App.matches s')
                 ++ unusedPlayers byLength (App.players s') (App.matches s'))
                (App.players afterFirstRound).
Proof.
  apply (new_round_awaits_scores byLength sameOrder afterFirstRound).
  - apply sameOrder_perm.
  - apply (bool_decide_unpack _). vm_compute. reflexivity.
  - reflexivity.
  - reflexivity.
  - simpl. lia.
Defined.

(** ** Saving a round *)

Lemma setError_twice (e e' : string) (s : App.t) : setError e (setError e' s) = setError e s.
Proof. reflexivity. Qed.

Lemma freeze_all (results : gmap Z MatchResult) (ms : list Match)
    (acc : list (Z * (Z * Z))) :
  forallb (scored results) ms = true ->
  forOf (freezeResult results) ms acc = Return (rev (map (frozenOf results) ms) ++ acc).
Proof.
  revert acc. induction ms as [|m ms IH]; intros acc Hall; [reflexivity|].
  simpl in Hall. apply andb_prop in Hall as [Hm Hall].
  assert (Hstep : freezeResult results acc m = Return (frozenOf results m :: acc)).
  { unfold freezeResult, frozenOf, scored in *.
    destruct (results !! Match.court m); [reflexivity | discriminate Hm]. }
  cbn [forOf]. rewrite Hstep. cbn [mbind Completion_bind].
  rewrite IH by exact Hall. cbn [map rev]. now rewrite <- app_assoc.
Qed.

Lemma resultAt_frozen (results : gmap Z MatchResult) (l : list Match) (c : Z) :
  c ∈ map Match.court l ->
  resultAt (map (frozenOf results) l) c
  = Some match results !! c with
         | Some r => (numberOf (MatchResult.scoreA r), numberOf (MatchResult.scoreB r))
         | None => (0, 0)
         end.
Proof.
  induction l as [|m l IH]; intros Hc; [inversion Hc|].
  simpl. destruct (Z.eqb_spec (Match.court m) c) as [->|Hne]; [reflexivity|].
  apply elem_of_cons in Hc as [?|Hc]; [congruence | now apply IH].
Qed.

Lemma resultAt_rev_frozen (results : gmap Z MatchResult) (ms : list Match) (m : Match)
    (a b : Z) :
  m ∈ ms -> results !! Match.court m = Some (MatchResult.mk (Some a) (Some b)) ->
  resultAt (rev (map (frozenOf results) ms) ++ []) (Match.court m) = Some (a, b).
Proof.
  intros Hm E. rewrite app_nil_r, <- map_rev, resultAt_frozen.
  - now rewrite E.
  - apply list_elem_of_fmap. exists m. split; [reflexivity|].
    apply list_elem_of_In, in_rev. rewrite rev_involutive. now apply list_elem_of_In.
Qed.

Lemma canSave_scored (s : App.t) :
  canSaveCurrentRound s = true ->
  App.matches s <> [] /\ forallb (scored (App.results s)) (App.matches s) = true.
Proof.
  unfold canSaveCurrentRound.
  destruct (App.matches s) as [|m ms]; [discriminate|]. simpl. intros H.
  split; [discriminate | exact H].
Qed.

Lemma scored_both (results : gmap Z MatchResult) (m : Match) :
  scored results m = true ->
  exists a b, results !! Match.court m = Some (MatchResult.mk (Some a) (Some b)).
Proof.
  unfold scored. destruct (results !! Match.court m) as [[[a|] [b|]]|]; try discriminate.
  eauto.
Qed.

(** What [saveRound] does when it saves. *)
Lemma saveRound_saves (uuid : string) (now : Z) (s : App.t) :
  tournamentFinished s = false -> canSaveCurrentRound s = true ->
  saveRound uuid now s
  = Return (setResults ∅
              (setMatches []
                 (setSavedRounds
                    (SavedRound.mk uuid now (Z.of_nat (length (App.matches s)))
                                   (App.matches s)
                                   (rev (map (frozenOf (App.results s)) (App.matches s)) ++ [])
                       :: App.savedRounds s)
                    (setError EmptyString s)))).
Proof.
  intros Hrun Hcan. destruct (canSave_scored s Hcan) as [Hne Hall].
  unfold saveRound. rewrite Hrun, Hcan. simpl negb. cbv iota.
  destruct (App.matches s) as [|m ms] eqn:Hms; [congruence|].
  cbn [length Nat.eqb]. cbv iota. rewrite <- Hms in *.
  now rewrite freeze_all by exact Hall.
Qed.

Lemma saveRound_refuses (uuid : string) (now : Z) (s : App.t) :
  negb (tournamentFinished s) && canSaveCurrentRound s = false ->
  exists message, message <> EmptyString /\ saveRound uuid now s = Return (setError message s).
Proof.
  intros H. unfold saveRound.
  destruct (tournamentFinished s).
  { exists finishedMessage. split; [discriminate | reflexivity]. }
  simpl in H. rewrite H.
  destruct (length (App.matches s) =? 0)%nat.
  - exists nothingToSaveMessage. split; [discriminate | reflexivity].
  - exists scoresMissingMessage. split; [discriminate | reflexivity].
Qed.

(** X18: Saving never raises.  While the tournament is running and every
    court of the current round has both scores, it puts a round in front
    of the saved ones that holds the matches as they are and, for the
    court of each match, the two scores entered, and clears the current
    round and the error; deleting the last round then gives the saved
    rounds back as they were.  In every other case it leaves the state
    as it is but for an error message. *)
Theorem save_round_effect (uuid : string) (now : Z) (s : App.t) :
  exists s',
    saveRound uuid now s = Return s' /\
    if negb (tournamentFinished s) && canSaveCurrentRound s
    then exists round,
        s' = setResults ∅ (setMatches [] (setSavedRounds (round :: App.savedRounds s)
                                                         (setError EmptyString s))) /\
        SavedRound.id round = uuid /\ SavedRound.createdAt round = now /\
        SavedRound.courts round = Z.of_nat (length (App.matches s)) /\
        SavedRound.matches round = App.matches s /\
        (forall m, m ∈ App.matches s ->
           exists a b,
             App.results s !! Match.court m = Some (MatchResult.mk (Some a) (Some b)) /\
             resultAt (SavedRound.results round) (Match.court m) = Some (a, b)) /\
        App.savedRounds (deleteLastRound s') = App.savedRounds s
    else exists message, message <> EmptyString /\ s' = setError message s.
Proof.
  destruct (negb (tournamentFinished s) && canSaveCurrentRound s) eqn:H.
  - apply andb_prop in H as [Hrun Hcan]. apply negb_true_iff in Hrun.
    eexists. split; [now apply saveRound_saves|].
    eexists. split; [reflexivity|]. simpl. repeat split.
    intros m Hm. destruct (canSave_scored s Hcan) as [_ Hall].
    destruct (scored_both _ m (forallb_elem _ _ _ Hall Hm)) as (a & b & E).
    exists a, b. split; [exact E|]. now apply resultAt_rev_frozen.
  - destruct (saveRound_refuses uuid now s H) as (message & Hne & E).
    exists (setError message s). split; [exact E|]. eauto.
Qed.

(** ** From the current round to the total *)

Lemma earned_cons (x : string) (round : SavedRound) (history : list SavedRound) :
  earned x (round :: history) = earnedRound x round + earned x history.
Proof. reflexivity. Qed.

Lemma resultsComplete_cons (round : SavedRound) (history : list SavedRound) :
  resultsComplete (round :: history)
  = forallb (hasResult round) (SavedRound.matches round) && resultsComplete history.
Proof. reflexivity. Qed.

Lemma totalRanking_complete (localeCompare : string -> string -> Z)
    (players : list Player) (history : list SavedRound) (rows : list Row) :
  totalRanking localeCompare players history = Return rows -> resultsComplete history = true.
Proof.
  rewrite totalRanking_spec. destruct (resultsComplete history); [reflexivity | discriminate].
Qed.

(** X19: When a round is saved and no player of the roster has the
    identifier [__proto__], the ranking over the saved rounds is
    returned afterwards if it was before, and the points of every player
    in it are those of before plus those of the ranking of the current
    round. *)
Theorem saving_adds_round_to_total (localeCompare : string -> string -> Z)
    (uuid : string) (now : Z) (s s' : App.t) (rows : list Row) :
  storable (map Player.id (App.players s)) ->
  tournamentFinished s = false -> canSaveCurrentRound s = true ->
  saveRound uuid now s = Return s' ->
  totalRanking localeCompare (App.players s) (App.savedRounds s) = Return rows ->
  exists rows',
    totalRanking localeCompare (App.players s') (App.savedRounds s') = Return rows' /\
    Permutation rows'
      (map (rowFor (fun x => earned x (App.savedRounds s)
                             + earnedNow x (App.matches s) (App.results s)))
           (App.players s)).
Proof.
  intros Hst Hrun Hcan Hsave Hrows.
  rewrite saveRound_saves in Hsave by assumption. injection Hsave as <-. simpl.
  set (round := SavedRound.mk _ _ _ _ _).
  destruct (canSave_scored s Hcan) as [_ Hall].
  assert (Hres : forall m, m ∈ App.matches s ->
            exists a b,
              App.results s !! Match.court m = Some (MatchResult.mk (Some a) (Some b)) /\
              resultAt (SavedRound.results round) (Match.court m) = Some (a, b)).
  { intros m Hm. destruct (scored_both _ m (forallb_elem _ _ _ Hall Hm)) as (a & b & E).
    exists a, b. split; [exact E|]. now apply resultAt_rev_frozen. }
  assert (Hcomplete : resultsComplete (round :: App.savedRounds s) = true).
  { rewrite resultsComplete_cons, (totalRanking_complete _ _ _ _ Hrows), andb_true_r.
    apply forallb_forall. intros m Hm. apply list_elem_of_In in Hm.
    destruct (Hres m Hm) as (a & b & _ & E). unfold hasResult. now rewrite E. }
  assert (Hsame : forall x, earned x (round :: App.savedRounds s)
                            = earned x (App.savedRounds s)
                              + earnedNow x (App.matches s) (App.results s)).
  { intros x. rewrite earned_cons, Z.add_comm. f_equal.
    unfold earnedRound, earnedNow. apply sumZ_map_ext. intros m Hm.
    change (SavedRound.matches round) with (App.matches s) in Hm.
    destruct (Hres m Hm) as (a & b & -> & ->). reflexivity. }
  destruct (totalRanking localeCompare (App.players s) (round :: App.savedRounds s))
    as [rows'|] eqn:E.
  - exists rows'. split; [reflexivity|].
    apply totalRanking_rows in E; [|exact Hst]. subst rows'.
    unfold rankRows. rewrite jsSort_perm.
    erewrite map_ext; [reflexivity|].
    intros p. unfold rowFor. now rewrite Hsame.
  - rewrite totalRanking_spec, Hcomplete in E. discriminate E.
Qed.

Lemma saving_adds_round_to_total_witness :
  let s := setResults {[1 := MatchResult.mk (Some 5) (Some 2)]}
             (setMatches [Match.mk 1 [letter 0; letter 2] [letter 1; letter 3]]
                         afterFirstRound) in
  exists rows',
    totalRanking byLength roster8
      [SavedRound.mk "round-2" 9 1 (App.matches s) [(1, (5, 2))]; firstRound]
    = Return rows' /\
    Permutation rows'
      (map (rowFor (fun x => earned x (App.savedRounds s)
                             + earnedNow x (App.matches s) (App.results s)))
           (App.players s)).
Proof.
  intros s.
  apply (saving_adds_round_to_total byLength "round-2" 9 s
           (setResults ∅ (setMatches []
              (setSavedRounds
                 [SavedRound.mk "round-2" 9 1 (App.matches s) [(1, (5, 2))]; firstRound]
                 s)))
           [Row.mk "a" "a" (Numeric (Num 6)); Row.mk "b" "b" (Numeric (Num 6));
            Row.mk "g" "g" (Numeric (Num 5)); Row.mk "h" "h" (Numeric (Num 5));
            Row.mk "e" "e" (Numeric (Num 4)); Row.mk "f" "f" (Numeric (Num 4));
            Row.mk "c" "c" (Numeric (Num 3)); Row.mk "d" "d" (Numeric (Num 3))]).
  - apply plainIds_storable, roster8_plain.
  - reflexivity.
  - reflexivity.
  - vm_compute. reflexivity.
  - vm_compute. reflexivity.
Defined.

(** ** Entering scores *)

Section Entering.
Variable Number : string -> Z.

Lemma updateScore_fields (court : Z) (side : Side) (value : string) (s : App.t) :
  updateScore Number court side value s
  = setResults (App.results (updateScore Number court side value s)) s.
Proof. reflexivity. Qed.

Lemma enter_all_fields (entries : list Entry) (s : App.t) :
  fold_left (enter Number) entries s = setResults (App.results (fold_left (enter Number) entries s)) s.
Proof.
  revert s. induction entries as [|e entries IH]; intros s; simpl.
  - now destruct s.
  - rewrite IH at 1. unfold enter at 2. now destruct s.
Qed.

Lemma updateScore_fills (court : Z) (side : Side) (value : string) (s : App.t) :
  value <> EmptyString -> filled (updateScore Number court side value s) court side.
Proof.
  intros Hv. unfold filled, updateScore. simpl. rewrite lookup_insert_eq.
  destruct value as [|c v]; [congruence|].
  eexists. exists (Z.max 0 (Number (String c v))).
  split; [reflexivity|]. split; [now destruct side | lia].
Qed.

Lemma updateScore_keeps (court court' : Z) (side side' : Side) (value : string) (s : App.t) :
  value <> EmptyString -> filled s court' side' ->
  filled (updateScore Number court side value s) court' side'.
Proof.
  intros Hv (r & v & Hr & Hs & Hpos).
  destruct (decide (court' = court)) as [->|Hne].
  - destruct side, side';
      try (now apply updateScore_fills);
      unfold filled, updateScore; simpl; rewrite lookup_insert_eq, Hr; simpl;
      eexists; exists v; (split; [reflexivity|]); simpl; auto.
  - unfold filled, updateScore. simpl. rewrite lookup_insert_ne by congruence. eauto.
Qed.

Lemma enter_all_fills (entries : list Entry) (s : App.t) (court : Z) (side : Side) :
  (forall e, e ∈ entries -> e.2 <> EmptyString) ->
  filled s court side \/ (exists value, (court, side, value) ∈ entries) ->
  filled (fold_left (enter Number) entries s) court side.
Proof.
  revert s. induction entries as [|e entries IH]; intros s Hne H; simpl.
  - destruct H as [H|[value H]]; [exact H | inversion H].
  - apply IH; [intros e' He'; apply Hne; now right|].
    destruct H as [H|[value H]].
    + left. apply updateScore_keeps; [apply Hne; left | exact H].
    + apply elem_of_cons in H as [<-|H]; [|eauto].
      left. simpl. apply updateScore_fills. apply (Hne (court, side, value)). left.
Qed.

(** X20: Typing texts into score fields changes nothing but the results.
    Once a text that is not empty has been typed for both sides of the
    court of every match, and no empty one, every court has two scores
    that are not negative and the round can be saved, provided there is
    a match at all. *)
Theorem entered_scores_allow_saving (entries : list Entry) (s : App.t) :
  (forall e, e ∈ entries -> e.2 <> EmptyString) ->
  (forall m side, m ∈ App.matches s ->
                  exists value, (Match.court m, side, value) ∈ entries) ->
  let s' := fold_left (enter Number) entries s in
  s' = setResults (App.results s') s /\
  (forall m, m ∈ App.matches s ->
     exists a b, App.results s' !! Match.court m = Some (MatchResult.mk (Some a) (Some b))
                 /\ 0 <= a /\ 0 <= b) /\
  canSaveCurrentRound s' = negb (length (App.matches s) =? 0)%nat.
Proof.
  intros Hne Hall s'.
  assert (Hfields : s' = setResults (App.results s') s) by apply enter_all_fields.
  assert (Hboth : forall m, m ∈ App.matches s ->
            exists a b,
              App.results s' !! Match.court m = Some (MatchResult.mk (Some a) (Some b))
              /\ 0 <= a /\ 0 <= b).
  { intros m Hm.
    destruct (enter_all_fills entries s (Match.court m) SideA Hne)
      as (r & a & Hr & Ha & Hpa); [right; now apply Hall|].
    destruct (enter_all_fills entries s (Match.court m) SideB Hne)
      as (r' & b & Hr' & Hb & Hpb); [right; now apply Hall|].
    fold s' in Hr, Hr'. rewrite Hr in Hr'. injection Hr' as <-.
    exists a, b. destruct r as [ra rb]. simpl in Ha, Hb. subst. auto. }
  split; [exact Hfields|]. split; [exact Hboth|].
  assert (Hms : App.matches s' = App.matches s) by now rewrite Hfields.
  unfold canSaveCurrentRound. rewrite Hms.
  destruct (length (App.matches s) =? 0)%nat; [reflexivity|]. simpl.
  apply forallb_forall. intros m Hm. apply list_elem_of_In in Hm.
  destruct (Hboth m Hm) as (a & b & -> & _). reflexivity.
Qed.

End Entering.

Lemma entered_scores_allow_saving_witness :
  let Number := fun text => Z.of_nat (String.length text) in
  let s := setMatches [Match.mk 1 [letter 0; letter 2] [letter 1; letter 3]]
                      afterFirstRound in
  let s' := fold_left (enter Number) [(1, SideA, "21"); (1, SideB, "15")] s in
  s' = setResults (App.results s') s /\
  (forall m, m ∈ App.matches s ->
     exists a b, App.results s' !! Match.court m = Some (MatchResult.mk (Some a) (Some b))
                 /\ 0 <= a /\ 0 <= b) /\
  canSaveCurrentRound s' = negb (length (App.matches s) =? 0)%nat.
Proof.
  intros Number s.
  apply (entered_scores_allow_saving Number [(1, SideA, "21"); (1, SideB, "15")] s).
  - intros e He. apply (bool_decide_unpack _).
    revert e He. apply Forall_forall. vm_compute. repeat constructor.
  - intros m side Hm. apply list_elem_of_singleton in Hm. subst m.
    destruct side; eexists; simpl; rewrite !elem_of_cons; eauto.
Defined.

(** ** The end of the tournament *)

(** X21: Extra rounds reopen the tournament and ending it closes it; resuming
    a tournament that was ended by hand reopens it while fewer rounds
    than the target are saved.  A round saved in normal mode with a
    target closes the tournament exactly when it is the round that
    reaches the target, and a round saved otherwise never does;
    deleting a round of a tournament that was not ended by hand and has
    no more rounds than the target reopens it. *)
Theorem tournament_ends_at_target (uuid : string) (now : Z) (s : App.t) :
  tournamentFinished (playExtraRounds s) = false /\
  tournamentFinished (endTournamentNow s) = true /\
  (Z.of_nat (length (App.savedRounds s)) < App.targetRounds s ->
   tournamentFinished (resumeTournament s) = false) /\
  (forall s', tournamentFinished s = false -> canSaveCurrentRound s = true ->
              saveRound uuid now s = Return s' ->
              (tournamentFinished s' = true <->
               App.extraMode s = false /\
               App.targetRounds s = Z.of_nat (length (App.savedRounds s)) + 1)) /\
  (App.manualEnded s = false -> App.savedRounds s <> [] ->
   Z.of_nat (length (App.savedRounds s)) <= App.targetRounds s ->
   tournamentFinished (deleteLastRound s) = false).
Proof.
  split; [|split; [|split; [|split]]].
  - unfold tournamentFinished. reflexivity.
  - unfold tournamentFinished. reflexivity.
  - intros Hlt. unfold tournamentFinished. simpl.
    destruct (Z.leb_spec (App.targetRounds s) (Z.of_nat (length (App.savedRounds s))));
      [lia|]. now rewrite andb_false_r.
  - intros s' Hrun Hcan Hsave.
    rewrite saveRound_saves in Hsave by assumption. injection Hsave as <-.
    unfold tournamentFinished in *.
    cbn [App.manualEnded App.extraMode App.targetRounds App.savedRounds
         setResults setMatches setSavedRounds setError length].
    rewrite Nat2Z.inj_succ.
    destruct (App.manualEnded s), (App.extraMode s),
             (Z.ltb_spec 0 (App.targetRounds s)),
             (Z.leb_spec (App.targetRounds s) (Z.of_nat (length (App.savedRounds s)))),
             (Z.leb_spec (App.targetRounds s)
                         (Z.succ (Z.of_nat (length (App.savedRounds s)))));
      simpl in *; try discriminate Hrun;
      (split; [intros Hfin; first [discriminate Hfin | (split; [reflexivity | lia])]
              | intros [Hmode Htarget]; first [discriminate Hmode | reflexivity | lia]]).
  - intros Hman Hne Hle. unfold tournamentFinished. simpl. rewrite Hman. simpl.
    destruct (App.savedRounds s) as [|r rs]; [congruence|]. simpl in *.
    rewrite drop_0.
    destruct (Z.leb_spec (App.targetRounds s) (Z.of_nat (length rs))); [lia|].
    now rewrite andb_false_r.
Qed.

(** ** The roster and the coverage *)

Lemma percentOf_antitone (done total total' : Z) :
  0 <= done -> 0 < total' <= total -> percentOf done total <= percentOf done total'.
Proof.
  intros Hd Ht. unfold percentOf.
  assert (mathRound (toDouble (toDouble (inject_Z done / inject_Z total) * 100))
          <= mathRound (toDouble (toDouble (inject_Z done / inject_Z total') * 100))); [|lia].
  apply scaled_monotone; [apply quotient_nonneg; lia|].
  destruct total as [|t|t], total' as [|t'|t']; try lia.
  unfold Qle, Qdiv, Qmult, Qinv, inject_Z. simpl. nia.
Qed.

Lemma coverage_by_size (l1 l2 : list Player) (history : list SavedRound) (c2 : Coverage) :
  (length l1 <= length l2)%nat ->
  partnerCoverage l2 history = Return c2 ->
  exists c1, partnerCoverage l1 history = Return c1 /\
             percent c2 <= percent c1 /\ totalPairs c1 <= totalPairs c2.
Proof.
  intros Hlen E2.
  destruct (Nat.le_gt_cases (length l1) 1) as [H1|H1].
  - rewrite partnerCoverage_small by exact H1. eexists. split; [reflexivity|]. simpl.
    destruct (Nat.le_gt_cases (length l2) 1) as [H2|H2].
    + rewrite partnerCoverage_small in E2 by exact H2. injection E2 as <-. simpl. lia.
    + pose proof (partnerCoverage_returns _ _ _ E2 ltac:(lia)) as Hwf.
      rewrite partnerCoverage_wf in E2 by exact Hwf. cbv zeta in E2.
      destruct (Z.leb_spec (Z.of_nat (length l2)) 1) as [?|_]; [lia|].
      injection E2 as <-. simpl. unfold percentOf.
      assert (0 <= Z.of_nat (length l2) * (Z.of_nat (length l2) - 1) / 2)
        by (apply Z.div_pos; nia).
      lia.
  - pose proof (partnerCoverage_returns _ _ _ E2 ltac:(lia)) as Hwf.
    rewrite partnerCoverage_wf in E2 |- * by exact Hwf. cbv zeta in *.
    destruct (Z.leb_spec (Z.of_nat (length l2)) 1) as [?|_]; [lia|].
    destruct (Z.leb_spec (Z.of_nat (length l1)) 1) as [?|_]; [lia|].
    injection E2 as <-. eexists. split; [reflexivity|]. simpl.
    assert (Hmono : Z.of_nat (length l1) * (Z.of_nat (length l1) - 1) / 2
                    <= Z.of_nat (length l2) * (Z.of_nat (length l2) - 1) / 2)
      by (apply Z.div_le_mono; nia).
    split; [|exact Hmono].
    apply percentOf_antitone; [lia|]. split; [|exact Hmono].
    apply Z.div_str_pos. nia.
Qed.

(** X22: The saved rounds stay when the roster changes, so the pairs seen
    stay while the pairs to see follow the size of the roster: removing
    a player never lowers the percentage of the coverage, which is still
    returned, and adding one never raises it. *)
Theorem roster_size_moves_coverage (id uuid : string) (s : App.t) (c : Coverage) :
  coverage s = Return c ->
  (exists c', coverage (removePlayer id s) = Return c' /\
              percent c <= percent c' /\ totalPairs c' <= totalPairs c) /\
  (forall c', coverage (addPlayer uuid s) = Return c' ->
              percent c' <= percent c /\ totalPairs c <= totalPairs c').
Proof.
  intros E. unfold coverage in *. split.
  - apply (coverage_by_size _ (App.players s)); [|exact E].
    simpl. apply length_filter.
  - intros c' E'. unfold addPlayer in E'.
    destruct (String.length (trim (App.name s)) <? 2)%nat.
    + rewrite E in E'. injection E' as <-. lia.
    + simpl in E'.
      destruct (coverage_by_size (App.players s)
                  (App.players s ++ [Player.mk uuid (trim (App.name s))])
                  (App.savedRounds s) c')
        as (c1 & E1 & H1 & H2); [|exact E'|].
      * rewrite length_app. lia.
      * rewrite E in E1. injection E1 as <-. auto.
Qed.

Lemma roster_size_moves_coverage_witness :
  (exists c', coverage (removePlayer "h" afterFirstRound) = Return c' /\
              percent (mkCoverage false 14 24 28) <= percent c' /\
              totalPairs c' <= totalPairs (mkCoverage false 14 24 28)) /\
  (forall c', coverage (addPlayer "i" afterFirstRound) = Return c' ->
              percent c' <= percent (mkCoverage false 14 24 28) /\
              totalPairs (mkCoverage false 14 24 28) <= totalPairs c').
Proof.
  apply (roster_size_moves_coverage "h" "i" afterFirstRound). vm_compute. reflexivity.
Defined.

(** ** Starting a tournament *)

Lemma imap_ids {A} (f : nat -> A -> Player) (uuid : nat -> string) (l : list A) (k : nat) :
  (forall i x, Player.id (f i x) = uuid (k + i)%nat) ->
  map Player.id (imap f l) = map uuid (seq k (length l)).
Proof.
  revert f k. induction l as [|x l IH]; intros f k Hf; [reflexivity|].
  simpl. rewrite Hf, Nat.add_0_r. f_equal.
  apply (IH (f ∘ S) (S k)). intros i y. simpl. rewrite Hf. f_equal. lia.
Qed.

(** X23: When the set-up form passes the checks, the start button leaves a
    tournament that is set up and running: one player for each name of
    the form, trimmed, with the identifiers in the order they were
    drawn, distinct if the draws are; at least one court and no more
    than the roster fills, so that the court count is used as it is; no
    round saved or current, and no error.  When the form does not pass,
    the state is left as it is but for an error message. *)
Theorem start_leaves_running_tournament (uuid : nat -> string) (s : App.t) :
  let s' := startTournamentFromSetup uuid s in
  if setupValid s
  then App.setupDone s' = true /\
       App.players s' = imap (fun i n => Player.mk (uuid i) (trim n)) (App.setupNames s) /\
       ((forall i j, uuid i = uuid j -> i = j) -> NoDup (map Player.id (App.players s'))) /\
       1 <= App.courts s' /\ effectiveCourts s' = App.courts s' /\
       App.savedRounds s' = [] /\ App.matches s' = [] /\ App.results s' = ∅ /\
       tournamentFinished s' = false /\ App.error s' = EmptyString
  else exists message, message <> EmptyString /\ s' = setError message s.
Proof.
  cbv zeta. unfold setupValid, startTournamentFromSetup.
  destruct (Nat.leb_spec 2 (String.length (trim (App.tournamentName s)))) as [Hn|Hn];
    destruct (Nat.ltb_spec (String.length (trim (App.tournamentName s))) 2) as [Hn'|Hn'];
    try lia; simpl.
  2:{ exists tournamentNameMessage. split; [discriminate | reflexivity]. }
  assert (Hnames : existsb (fun n => (String.length n =? 0)%nat) (map trim (App.setupNames s))
                   = negb (forallb (fun n => negb (String.length (trim n) =? 0)%nat)
                                   (App.setupNames s))).
  { induction (App.setupNames s) as [|n l IH]; [reflexivity|]. simpl. rewrite IH.
    now destruct (String.length (trim n) =? 0)%nat. }
  rewrite Hnames.
  destruct (forallb _ (App.setupNames s)); simpl.
  2:{ exists namesMissingMessage. split; [discriminate | reflexivity]. }
  destruct (Z.leb_spec 1 (App.setupCourts s)) as [Hc|Hc];
    destruct (Z.ltb_spec (App.setupCourts s) 1) as [Hc'|Hc']; try lia.
  2:{ exists courtsMissingMessage. split; [discriminate | reflexivity]. }
  simpl. split; [reflexivity|].
  assert (Himap : imap (fun i n => Player.mk (uuid i) n) (map trim (App.setupNames s))
                  = imap (fun i n => Player.mk (uuid i) (trim n)) (App.setupNames s)).
  { change (map trim (App.setupNames s)) with (trim <$> App.setupNames s).
    now rewrite imap_fmap. }
  split; [exact Himap|]. split.
  { intros Hinj. rewrite (imap_ids _ uuid _ 0) by reflexivity.
    apply NoDup_fmap_2_strong; [|apply NoDup_seq].
    intros i j _ _. apply Hinj. }
  set (n := Z.of_nat (length (imap _ _))).
  unfold effectiveCourts, maxCourtsPossible, tournamentFinished. simpl. fold n.
  repeat split; try lia.
  destruct (if App.targetRounds s =? 0 then _ else _) as [|t|t]; reflexivity.
Qed.

(** ** What the page shows of the current round *)

Lemma existsb_none {A} (f : A -> bool) (l : list A) (x : A) :
  existsb f l = false -> x ∈ l -> f x = false.
Proof.
  intros H Hx. destruct (f x) eqn:E; [|reflexivity].
  rewrite <- H. symmetry. apply existsb_exists. exists x.
  split; [now apply list_elem_of_In | exact E].
Qed.

(** X24: The three values the page derives from the scores agree: for a
    roster without the identifier [__proto__], while no score is entered
    every player has zero points in the ranking of the current round;
    and a round that can be saved has a score entered. *)
Theorem no_result_no_points (localeCompare : string -> string -> Z) (s : App.t) :
  storable (map Player.id (App.players s)) ->
  (anyCurrentResultEntered s = false ->
   forall row,
     row ∈ currentRoundRanking localeCompare (App.players s) (App.matches s) (App.results s) ->
     Row.points row = Numeric (Num 0)) /\
  (canSaveCurrentRound s = true -> anyCurrentResultEntered s = true).
Proof.
  intros Hst. split.
  - intros Hnone row Hrow. rewrite currentRoundRanking_rows in Hrow by exact Hst.
    unfold rankRows in Hrow. rewrite jsSort_perm in Hrow.
    apply list_elem_of_fmap in Hrow as (p & -> & _). simpl. do 2 f_equal.
    unfold earnedNow. rewrite (sumZ_map_ext _ (fun _ => 0)); [apply sumZ_map_zero|].
    intros m Hm. pose proof (existsb_none _ _ m Hnone Hm) as Hm'. simpl in Hm'.
    destruct (App.results s !! Match.court m) as [[[a|] [b|]]|]; try reflexivity.
    discriminate Hm'.
  - intros Hcan. destruct (canSave_scored s Hcan) as [Hne Hall].
    unfold anyCurrentResultEntered.
    destruct (App.matches s) as [|m ms]; [congruence|]. simpl in *.
    apply andb_prop in Hall as [Hm _]. unfold scored in Hm.
    destruct (App.results s !! Match.court m) as [[[a|] [b|]]|]; try discriminate Hm.
    reflexivity.
Qed.

Lemma no_result_no_points_witness :
  (anyCurrentResultEntered playing = false ->
   forall row,
     row ∈ currentRoundRanking byLength (App.players playing) (App.matches playing)
                               (App.results playing) ->
     Row.points row = Numeric (Num 0)) /\
  (canSaveCurrentRound playing = true -> anyCurrentResultEntered playing = true).
Proof.
  apply (no_result_no_points byLength playing).
  apply (bool_decide_unpack _). vm_compute. exact I.
Defined.

(** * The states the page gets to *)

(** ** What stays true *)

Lemma tidyMatches_nil : tidyMatches [].
Proof. repeat split; constructor. Qed.

Lemma scoresNonNegative_empty : scoresNonNegative ∅.
Proof. intros court r side v H. rewrite lookup_empty in H. discriminate H. Qed.

Lemma tidy_initial : tidy initialState.
Proof.
  tidy_split; simpl;
    [constructor | constructor | apply tidyMatches_nil | apply scoresNonNegative_empty
     | constructor].
Qed.

Lemma tidyRounds_wf (history : list SavedRound) :
  Forall tidyRound history -> wfHistory history = true.
Proof.
  unfold wfHistory, historyMatches.
  induction 1 as [|round history Hr _ IH]; [reflexivity|].
  simpl. rewrite forallb_app, IH, andb_true_r.
  destruct Hr as ((Hteams & _) & _). now apply twoPerTeam_all_wf.
Qed.

Lemma tidyRounds_complete (history : list SavedRound) :
  Forall tidyRound history -> resultsComplete history = true.
Proof.
  unfold resultsComplete.
  induction 1 as [|round history Hr _ IH]; [reflexivity|].
  simpl. rewrite IH, andb_true_r.
  destruct Hr as (_ & _ & _ & Hres).
  apply forallb_forall. intros m Hm. apply list_elem_of_In in Hm.
  destruct (Hres m Hm) as (a & b & E & _). unfold hasResult. now rewrite E.
Qed.

(** ** The new round *)

Lemma generated_tidy (shuffle : list Player -> list Player) (players : list Player)
    (courtsWanted : Z) (history : list SavedRound) (r : Generated.t) :
  (forall l, Permutation l (shuffle l)) ->
  NoDup (map Player.id players) -> plainIds (map Player.id players) ->
  generateFairRound shuffle players courtsWanted history = Return r ->
  tidyMatches (Generated.matches r).
Proof.
  intros Hshuffle Hnd Hpl Hr.
  pose proof (generateFairRound_returns _ _ _ _ _ Hr) as Hwf.
  destruct (generated_round shuffle players courtsWanted history Hshuffle Hnd Hwf)
    as (E & Hnda & _ & Hlen & Hcourts & Hteams & Hperm & Hall & _).
  cbv zeta in *. rewrite E in Hr. injection Hr as <-. cbn [Generated.matches].
  destruct (usedCourts_bounds players courtsWanted) as [H0 _].
  split; [exact Hteams|].
  rewrite twoPerTeam_all_slots by exact Hteams. split; [|split].
  - now rewrite Hperm.
  - apply Forall_forall. intros x Hx. apply (plainIds_elem _ x Hpl).
    rewrite <- Hall, map_app, <- Hperm. apply elem_of_app. now left.
  - rewrite Hcourts, Hlen, Z2Nat.id by exact H0. reflexivity.
Qed.

Lemma blankResults_lookup (ms : list Match) (c : Z) :
  blankResults ms !! c
  = if decide (c ∈ map Match.court ms) then Some (MatchResult.mk None None) else None.
Proof. unfold blankResults. now rewrite blank_results_lookup, lookup_empty. Qed.

Lemma blankResults_nonNegative (ms : list Match) : scoresNonNegative (blankResults ms).
Proof.
  intros court r side v H. rewrite blankResults_lookup in H.
  destruct (decide (court ∈ map Match.court ms)); [|discriminate H].
  injection H as <-. now destruct side.
Qed.

(** The three ways the button for a new round ends. *)
Lemma generateRoundFair_cases (shuffle : list Player -> list Player) (s s' : App.t) :
  generateRoundFair shuffle s = Return s' ->
  s' = setError finishedMessage s \/
  s' = setError tooFewPlayersMessage (setResults ∅ (setMatches [] s)) \/
  exists r,
    generateFairRound shuffle (App.players s)
      (Z.min (effectiveCourts s) (Z.of_nat (length (App.players s)) / 4))
      (App.savedRounds s) = Return r /\
    s' = setResults (blankResults (Generated.matches r))
           (setMatches (Generated.matches r) (setError EmptyString s)).
Proof.
  unfold generateRoundFair.
  destruct (tournamentFinished s); [intros E; injection E as <-; auto|].
  destruct (length (App.players s) <? 4)%nat; [intros E; injection E as <-; auto|].
  destruct (generateFairRound shuffle (App.players s) _ (App.savedRounds s)) as [r|];
    [|discriminate].
  simpl. intros E. injection E as <-. right. right. exists r. auto.
Qed.

Lemma tidy_generate (shuffle : list Player -> list Player) (s s' : App.t) :
  (forall l, Permutation l (shuffle l)) ->
  generateRoundFair shuffle s = Return s' -> tidy s -> tidy s'.
Proof.
  intros Hshuffle E (Hnd & Hpl & Hms & Hres & Hsaved).
  destruct (generateRoundFair_cases shuffle s s' E) as [->|[->|(r & Hr & ->)]].
  - tidy_split; assumption.
  - tidy_split; try assumption; [apply tidyMatches_nil | apply scoresNonNegative_empty].
  - tidy_split; try assumption.
    + eapply generated_tidy; eauto.
    + apply blankResults_nonNegative.
Qed.

(** ** Scores and saved rounds *)

Lemma tidy_updateScore (Number : string -> Z) (court : Z) (side : Side) (value : string)
    (s : App.t) :
  tidy s -> tidy (updateScore Number court side value s).
Proof.
  intros (Hnd & Hpl & Hms & Hres & Hsaved).
  tidy_split; try assumption.
  intros c r sd v. unfold updateScore. simpl.
  destruct (decide (c = court)) as [->|Hne].
  - rewrite lookup_insert_eq. intros E. injection E as <-.
    destruct side, sd, value as [|ch value]; simpl; try discriminate;
      try (intros E; injection E as <-; lia);
      destruct (App.results s !! court) as [r|] eqn:Er; simpl; try discriminate;
      intros E; first [ apply (Hres court r SideA v Er E) | apply (Hres court r SideB v Er E) ].
  - rewrite lookup_insert_ne by congruence. apply Hres.
Qed.

Lemma frozen_nonNegative (results : gmap Z MatchResult) (ms : list Match) (m : Match) :
  scoresNonNegative results -> forallb (scored results) ms = true -> m ∈ ms ->
  exists a b,
    resultAt (rev (map (frozenOf results) ms) ++ []) (Match.court m) = Some (a, b)
    /\ 0 <= a /\ 0 <= b.
Proof.
  intros Hres Hall Hm.
  destruct (scored_both _ m (forallb_elem _ _ _ Hall Hm)) as (a & b & E).
  exists a, b. split; [now apply resultAt_rev_frozen|]. split.
  - apply (Hres _ _ SideA a E). reflexivity.
  - apply (Hres _ _ SideB b E). reflexivity.
Qed.

Lemma tidy_saveRound (uuid : string) (now : Z) (s s' : App.t) :
  saveRound uuid now s = Return s' -> tidy s -> tidy s'.
Proof.
  intros E (Hnd & Hpl & Hms & Hres & Hsaved).
  destruct (negb (tournamentFinished s) && canSaveCurrentRound s) eqn:H.
  - apply andb_prop in H as [Hrun Hcan]. apply negb_true_iff in Hrun.
    rewrite saveRound_saves in E by assumption. injection E as <-.
    destruct (canSave_scored s Hcan) as [Hne Hall].
    tidy_split; try assumption;
      [apply tidyMatches_nil | apply scoresNonNegative_empty|].
    constructor; [|exact Hsaved].
    split; [exact Hms|]. split; [exact Hne|]. split; [reflexivity|].
    intros m Hm. now apply frozen_nonNegative.
  - destruct (saveRound_refuses uuid now s H) as (message & _ & E').
    rewrite E' in E. injection E as <-. tidy_split; assumption.
Qed.

(** ** The roster *)

Lemma tidy_addPlayer (uuid : string) (s : App.t) :
  underscoreFree uuid = true -> uuid ∉ map Player.id (App.players s) ->
  tidy s -> tidy (addPlayer uuid s).
Proof.
  intros Hplain Hfresh (Hnd & Hpl & Hms & Hres & Hsaved). unfold addPlayer.
  destruct (String.length (trim (App.name s)) <? 2)%nat; [tidy_split; assumption|].
  tidy_split; try assumption; state_fields.
  - rewrite map_app. apply NoDup_app. split; [exact Hnd|]. split.
    + intros x Hx Hx'. apply list_elem_of_singleton in Hx'. simpl in Hx'. congruence.
    + apply NoDup_singleton.
  - unfold plainIds. rewrite map_app. apply Forall_app. split; [exact Hpl|].
    now repeat constructor.
Qed.

Lemma tidy_removePlayer (id : string) (s : App.t) : tidy s -> tidy (removePlayer id s).
Proof.
  intros (Hnd & Hpl & Hms & Hres & Hsaved).
  assert (Hsub : map Player.id (filter (fun p => Player.id p <> id) (App.players s))
                 `sublist_of` map Player.id (App.players s)).
  { apply (fmap_sublist Player.id), sublist_filter. }
  tidy_split; try assumption; state_fields.
  - eapply sublist_NoDup; eauto.
  - unfold plainIds in *. rewrite Forall_forall in *. intros x Hx.
    apply Hpl. eapply sublist_subseteq; eauto.
Qed.

Lemma tidy_start (uuid : nat -> string) (s : App.t) :
  (forall i, underscoreFree (uuid i) = true) ->
  (forall i j : nat, uuid i = uuid j -> i = j) ->
  tidy s -> tidy (startTournamentFromSetup uuid s).
Proof.
  intros Hplain Hinj (Hnd & Hpl & Hms & Hres & Hsaved).
  unfold startTournamentFromSetup.
  destruct (String.length (trim (App.tournamentName s)) <? 2)%nat;
    [tidy_split; assumption|].
  destruct (existsb _ _); [tidy_split; assumption|].
  destruct (App.setupCourts s <? 1); [tidy_split; assumption|].
  simpl.
  assert (Hids : map Player.id (imap (fun i n => Player.mk (uuid i) n)
                                     (map trim (App.setupNames s)))
                 = map uuid (seq 0 (length (map trim (App.setupNames s)))))
    by now apply imap_ids.
  tidy_split; state_fields;
    [| |apply tidyMatches_nil | apply scoresNonNegative_empty | constructor];
    rewrite Hids.
  - apply NoDup_fmap_2_strong; [|apply NoDup_seq]. intros i j _ _. apply Hinj.
  - apply Forall_forall. intros x Hx. apply list_elem_of_fmap in Hx as (i & -> & _).
    apply Hplain.
Qed.

Lemma tidy_step (s s' : App.t) : step s s' -> tidy s -> tidy s'.
Proof.
  intros Hstep. destruct Hstep.
  - intros (Hnd & Hpl & Hms & Hres & Hsaved). tidy_split; assumption.
  - intros _. apply tidy_initial.
  - intros (Hnd & Hpl & Hms & Hres & Hsaved).
    tidy_split; try assumption;
      [apply tidyMatches_nil | apply scoresNonNegative_empty | constructor].
  - now apply tidy_start.
  - now apply tidy_addPlayer.
  - apply tidy_removePlayer.
  - now apply tidy_generate with shuffle.
  - apply tidy_updateScore.
  - now apply tidy_saveRound with uuid now.
  - intros (Hnd & Hpl & Hms & Hres & Hsaved). tidy_split; try assumption.
    unfold deleteLastRound; state_fields.
    destruct (App.savedRounds s) as [|r rs]; [constructor|].
    simpl. rewrite drop_0. now apply Forall_cons in Hsaved as [_ ?].
  - intros (Hnd & Hpl & Hms & Hres & Hsaved).
    tidy_split; try assumption; [apply tidyMatches_nil | apply scoresNonNegative_empty].
  - intros (Hnd & Hpl & Hms & Hres & Hsaved). tidy_split; assumption.
  - intros (Hnd & Hpl & Hms & Hres & Hsaved). tidy_split; assumption.
Qed.

Lemma reachable_tidy (s : App.t) : reachable s -> tidy s.
Proof.
  unfold reachable. revert s. apply (rtc_ind_r tidy initialState); [apply tidy_initial|].
  intros y z _ Hstep. now apply tidy_step.
Qed.

(** ** Nothing raises *)

(** X25: In every state the page gets to, the counters, the coverage and the
    ranking over the saved rounds are returned, and neither the button
    for a new round nor the one that saves, whatever the shuffle, the
    identifier and the time, raises: every saved match has its two
    players per team and its result. *)
Theorem page_never_raises (s : App.t) :
  reachable s ->
  (exists stats, computeStats (App.players s) (App.savedRounds s) = Return stats) /\
  (exists c, coverage s = Return c) /\
  (forall localeCompare,
     exists rows, totalRanking localeCompare (App.players s) (App.savedRounds s)
                  = Return rows) /\
  (forall shuffle, exists s', generateRoundFair shuffle s = Return s') /\
  (forall uuid now, exists s', saveRound uuid now s = Return s').
Proof.
  intros Hs. apply reachable_tidy in Hs as (_ & _ & _ & _ & Hsaved).
  pose proof (tidyRounds_wf _ Hsaved) as Hwf.
  split; [eexists; now apply computeStats_wf|]. split; [|split; [|split]].
  - unfold coverage. rewrite partnerCoverage_wf by exact Hwf. eauto.
  - intros localeCompare. rewrite totalRanking_spec, tidyRounds_complete by exact Hsaved.
    eauto.
  - intros shuffle. unfold generateRoundFair.
    destruct (tournamentFinished s); [eauto|].
    destruct (length (App.players s) <? 4)%nat; [eauto|].
    rewrite generateFairRound_wf by exact Hwf. simpl. eauto.
  - intros uuid now.
    destruct (negb (tournamentFinished s) && canSaveCurrentRound s) eqn:H.
    + apply andb_prop in H as [Hrun Hcan]. apply negb_true_iff in Hrun.
      rewrite saveRound_saves by assumption. eauto.
    + destruct (saveRound_refuses uuid now s H) as (message & _ & ->). eauto.
Qed.

Lemma unaryId_plain (i : nat) : underscoreFree (unaryId i) = true.
Proof. induction i as [|i IH]; [reflexivity | exact IH]. Qed.

Lemma unaryId_inj (i j : nat) : unaryId i = unaryId j -> i = j.
Proof.
  revert j. induction i as [|i IH]; intros [|j] E; try reflexivity; try discriminate E.
  injection E as E. f_equal. now apply IH.
Qed.

Lemma playing_reachable : reachable playing.
Proof.
  unfold reachable.
  eapply rtc_l; [apply (step_form "Freitag" 8 (map Player.name roster8) 2 0
                                  EmptyString EmptyString EmptyString)|].
  eapply rtc_l; [apply (step_start unaryId); [apply unaryId_plain | apply unaryId_inj]|].
  eapply rtc_l; [|apply rtc_refl].
  apply (step_generate sameOrder _ playing sameOrder_perm).
  vm_compute. reflexivity.
Qed.

Lemma savedOnce_reachable : reachable savedOnce.
Proof.
  unfold reachable. transitivity playing; [apply playing_reachable|].
  eapply rtc_l; [apply (step_updateScore textLength 1 SideA "xxxxx")|].
  eapply rtc_l; [apply (step_updateScore textLength 1 SideB "xx")|].
  eapply rtc_l; [apply (step_updateScore textLength 2 SideA "xxx")|].
  eapply rtc_l; [apply (step_updateScore textLength 2 SideB "xxxxxxxx")|].
  eapply rtc_l; [|apply rtc_refl].
  apply (step_saveRound "round-A" 1 scoredOnce savedOnce).
  vm_compute. reflexivity.
Qed.

Lemma page_never_raises_witness :
  (exists stats, computeStats (App.players savedOnce) (App.savedRounds savedOnce)
                 = Return stats) /\
  (exists c, coverage savedOnce = Return c) /\
  (forall localeCompare,
     exists rows, totalRanking localeCompare (App.players savedOnce) (App.savedRounds savedOnce)
                  = Return rows) /\
  (forall shuffle, exists s', generateRoundFair shuffle savedOnce = Return s') /\
  (forall uuid now, exists s', saveRound uuid now savedOnce = Return s').
Proof. apply (page_never_raises savedOnce). apply savedOnce_reachable. Defined.

(** ** Rounds stay valid *)

Lemma tidyRound_valid (round : SavedRound) : tidyRound round -> validRound round.
Proof.
  intros ((Hteams & Hnd & _) & _). split; [now apply twoPerTeam_all_wf | exact Hnd].
Qed.

Lemma sumZ_nonneg (l : list Z) : Forall (fun z => 0 <= z) l -> 0 <= sumZ l.
Proof. induction 1; simpl; lia. Qed.

Lemma earned_nonneg (x : string) (history : list SavedRound) :
  Forall tidyRound history -> 0 <= earned x history.
Proof.
  intros Hsaved. unfold earned. apply sumZ_nonneg, Forall_forall.
  intros z Hz. apply list_elem_of_fmap in Hz as (round & -> & Hround).
  rewrite Forall_forall in Hsaved. destruct (Hsaved round Hround) as (_ & _ & _ & Hres).
  unfold earnedRound. apply sumZ_nonneg, Forall_forall.
  intros z Hz. apply list_elem_of_fmap in Hz as (m & -> & Hm).
  destruct (Hres m Hm) as (a & b & -> & Ha & Hb). unfold earnedIn.
  pose proof (occ_nonneg x (map Player.id (Match.teamA m))).
  pose proof (occ_nonneg x (map Player.id (Match.teamB m))). nia.
Qed.

(** X26: In every state the page gets to, the identifiers of the roster are
    distinct and free of underscores; the matches of the current round
    and of every saved round have two players per team, nobody twice in
    a round, identifiers free of underscores and the courts 1, 2, ... in
    order; every saved round has at least one match and for each match
    a result of two scores that are not negative; no score entered is
    negative; and nobody has negative points in the ranking over the
    saved rounds. *)
Theorem rounds_stay_valid (s : App.t) :
  reachable s ->
  tidy s /\
  Forall validRound (App.savedRounds s) /\
  forall localeCompare rows,
    totalRanking localeCompare (App.players s) (App.savedRounds s) = Return rows ->
    Forall (fun row => 0 <= pointsZ row) rows.
Proof.
  intros Hs. apply reachable_tidy in Hs as Htidy. split; [exact Htidy|].
  destruct Htidy as (_ & Hplain & _ & _ & Hsaved). split.
  - eapply Forall_impl; [exact Hsaved | apply tidyRound_valid].
  - intros localeCompare rows E.
    apply totalRanking_rows in E; [|now apply plainIds_storable]. subst rows.
    apply Forall_forall. intros row Hrow. unfold rankRows in Hrow.
    rewrite jsSort_perm in Hrow. apply list_elem_of_fmap in Hrow as (p & -> & _).
    unfold pointsZ, rowFor. simpl. now apply earned_nonneg.
Qed.

Lemma rounds_stay_valid_witness :
  tidy savedOnce /\
  Forall validRound (App.savedRounds savedOnce) /\
  forall localeCompare rows,
    totalRanking localeCompare (App.players savedOnce) (App.savedRounds savedOnce) = Return rows ->
    Forall (fun row => 0 <= pointsZ row) rows.
Proof. apply (rounds_stay_valid savedOnce). apply savedOnce_reachable. Defined.

(** * The counters and the recommendation, summed up *)

Lemma size_list_to_set_le (l : list string) :
  (size (list_to_set l : gset string) <= length l)%nat.
Proof.
  induction l as [|x l IH].
  - now rewrite list_to_set_nil, size_empty.
  - rewrite list_to_set_cons. simpl length.
    destruct (decide (x ∈ (list_to_set l : gset string))) as [Hin|Hout].
    + replace ({[x]} ∪ list_to_set l : gset string) with (list_to_set l : gset string);
        [lia|].
      apply set_eq. intros y. rewrite elem_of_union, elem_of_singleton.
      split; [auto | intros [->|?]; assumption].
    + rewrite size_union by (apply disjoint_singleton_l; exact Hout).
      rewrite size_singleton. lia.
Qed.

Lemma teamKeys_length (m : Match) : (length (teamKeys m) <= 2)%nat.
Proof.
  unfold teamKeys. destruct (slotIds m) as [|a1 [|a2 [|b1 [|b2 [|]]]]]; simpl; lia.
Qed.

Lemma teamKeys_total (history : list SavedRound) (c : Z) :
  Forall (fun round => Z.of_nat (length (SavedRound.matches round)) <= c) history ->
  Z.of_nat (length (flat_map teamKeys (historyMatches history)))
  <= 2 * c * Z.of_nat (length history).
Proof.
  unfold historyMatches. induction 1 as [|round history Hr _ IH]; [simpl; lia|].
  simpl. rewrite flat_map_app, length_app.
  assert (Hround : (length (flat_map teamKeys (SavedRound.matches round))
                    <= 2 * length (SavedRound.matches round))%nat).
  { clear. induction (SavedRound.matches round) as [|m ms IHm]; simpl; [lia|].
    rewrite length_app. pose proof (teamKeys_length m). lia. }
  lia.
Qed.

(** X27: The recommendation is a lower bound indeed: for a roster of at
    least four players and a history in which no round has more matches
    than the court count clamped between one and a quarter of the
    roster, a coverage that is returned after fewer rounds than
    recommended is not complete. *)
Theorem fewer_rounds_never_complete (players : list Player) (courts : Z)
    (history : list SavedRound) (c : Coverage) :
  let N := Z.of_nat (length players) in
  4 <= N ->
  Forall (fun round => Z.of_nat (length (SavedRound.matches round))
                       <= Z.max 1 (Z.min courts (N / 4))) history ->
  Z.of_nat (length history) < recommendRoundsPartner N courts ->
  partnerCoverage players history = Return c ->
  complete c = false.
Proof.
  intros N HN Hcourts Hfew E.
  pose proof (partnerCoverage_returns _ _ _ E ltac:(lia)) as Hwf.
  rewrite partnerCoverage_wf in E by exact Hwf. cbv zeta in E. fold N in E.
  destruct (Z.leb_spec N 1) as [?|_]; [lia|]. injection E as <-. simpl.
  apply Z.leb_gt.
  destruct (recommend_bracket N courts HN) as (_ & _ & Hlt). cbv zeta in Hlt.
  pose proof (teamKeys_total history _ Hcourts) as Hkeys.
  pose proof (size_list_to_set_le (flat_map teamKeys (historyMatches history))) as Hsize.
  fold (seenKeys history) in Hsize.
  set (k := Z.max 1 (Z.min courts (N / 4))) in *.
  assert (Hk : 1 <= k) by (unfold k; lia).
  assert (Hdone : 2 * Z.of_nat (size (seenKeys history)) < N * (N - 1)) by nia.
  apply Z.div_lt_upper_bound in Hdone as Hdiv; [|lia].
  assert (Heven : N * (N - 1) = 2 * (N * (N - 1) / 2)).
  { apply Z_div_exact_2; [lia|].
    replace (N * (N - 1)) with (N * N - N) by ring.
    rewrite Zminus_mod, Z.mul_mod by lia.
    pose proof (Z.mod_pos_bound N 2 ltac:(lia)) as Hb.
    assert (Hcases : N mod 2 = 0 \/ N mod 2 = 1) by lia.
    destruct Hcases as [-> | ->]; reflexivity. }
  lia.
Qed.

Lemma fewer_rounds_never_complete_witness :
  complete (mkCoverage false 14 24 28) = false.
Proof.
  apply (fewer_rounds_never_complete roster8 2 [firstRound]).
  - apply (bool_decide_unpack _). vm_compute. reflexivity.
  - apply (bool_decide_unpack _). vm_compute. reflexivity.
  - apply (bool_decide_unpack _). vm_compute. reflexivity.
  - vm_compute. reflexivity.
Defined.

Lemma wf_ids_length (ms : list Match) :
  forallb wfMatch ms = true ->
  Z.of_nat (length (flat_map slotIds ms)) = 4 * Z.of_nat (length ms).
Proof.
  induction ms as [|m ms IH]; intros Hwf; [reflexivity|].
  simpl in Hwf. apply andb_prop in Hwf as [Hm Hwf].
  destruct (wfMatch_slots m Hm) as (a1 & a2 & b1 & b2 & Hs & _).
  simpl. rewrite length_app, Hs. simpl length. specialize (IH Hwf). lia.
Qed.

(** X28: Whenever the counters are returned for a roster of distinct
    identifiers, none of them [__proto__], and a history whose first two
    players of every team are on the roster, the games played of the
    roster add up to four for each match of the history. *)
Theorem games_add_up (players : list Player) (history : list SavedRound) (stats : Stats) :
  NoDup (map Player.id players) ->
  storable (map Player.id players) ->
  (forall x, x ∈ historyIds history -> x ∈ map Player.id players) ->
  computeStats players history = Return stats ->
  sumZ (map (fun p => gamesOf stats (Player.id p)) players)
  = 4 * Z.of_nat (length (historyMatches history)).
Proof.
  intros Hnd Hst Hin E. apply computeStats_returns in E as [Hwf ->].
  rewrite (sumZ_map_ext _ (fun p => occ (Player.id p) (historyIds history)))
    by (intros p Hp; now apply gamesOf_roster).
  rewrite <- (map_map Player.id (fun x => occ x (historyIds history))).
  rewrite sum_occ by assumption. now apply wf_ids_length.
Qed.

Lemma games_add_up_witness :
  sumZ (map (fun p => gamesOf (statsOf roster8 [firstRound]) (Player.id p)) roster8)
  = 4 * Z.of_nat (length (historyMatches [firstRound])).
Proof.
  apply (games_add_up roster8 [firstRound]).
  - apply (bool_decide_unpack _). vm_compute. reflexivity.
  - apply plainIds_storable, roster8_plain.
  - apply Forall_forall. apply (bool_decide_unpack _). vm_compute. reflexivity.
  - reflexivity.
Defined.
